(** * DailyTrack: the offline-first store and sync engine

    A shallow embedding of [src/db.js] (class [DailyTrackDB]), of
    [src/sync.js] (class [SyncManager]) and of the backup validation of
    [src/app.js], followed by the properties the specification states
    about them.

    Conventions of the embedding.
    - An IndexedDB object store is a finite map from keys to records; a
      record carries its own key at the store's key path.
    - [async] methods are computations in a state-and-exception monad over
      the [world]: a rejected promise is [Throw], [try]/[catch]/[finally]
      are combinators, [await] is sequencing.
    - The network and the wall clock are outside the program: they are
      two oracles indexed by a logical step counter ([tick]) that every
      transport call and every clock read advances, so that two calls with
      the same arguments may be answered differently. *)

From stdpp Require Import gmap strings list sorting.
From Stdlib Require Import ZArith NArith.

Local Open Scope Z_scope.

(** ** Records *)

(** The time value of [new Date(x)], in milliseconds since the epoch;
    [None] is the NaN of an invalid date (a missing or unparsable
    timestamp). *)
Definition timeValue := option Z.

(** A calendar date [YYYY-MM-DD], as its number of days since the epoch. *)
Definition day := Z.

Definition msPerDay : Z := 1000 * 60 * 60 * 24.

(** [new Date(t).toISOString().split('T')[0]] *)
Definition isoDate (t : Z) : day := t / msPerDay.

(** A stored object. The properties that the modelled code reads are
    fields of their own; every other property is kept in [fields]. A
    property that is absent or falsy where the code tests it is [None]. *)
Record record := mkRecord {
  id : option string;
  date : option string;
  updatedAt : timeValue;
  synced : bool;
  currentStreak : Z;
  longestStreak : Z;
  lastCompleted : option day;
  completionHistory : list day;
  fields : list (string * string)
}.

(** [new Date(a) > new Date(b)]: a comparison of time values, false as soon
    as one side is NaN. *)
Definition dateGt (a b : timeValue) : bool :=
  match a, b with
  | Some x, Some y => bool_decide (y < x)
  | _, _ => false
  end.

(** ** Sync queue entries *)

Inductive status := pending | completed | failed.

Record syncItem := mkSyncItem {
  qid : N;
  qtype : string;
  qdata : record;
  qstatus : status;
  attempts : nat;
  createdAt : Z;
  completedAt : option Z
}.

(** ** The database schema ([init], [onupgradeneeded]) *)

(** The object stores of records. ['syncQueue'] is kept apart because of its
    entry type and key generator; ['activityLog'] is used by none of the
    functions below. *)
Inductive storeName := Tasks | Expenses | Habits | Journal | Settings | Analytics.

#[global] Instance storeName_eq_dec : EqDecision storeName.
Proof. solve_decision. Defined.

Definition nameOf (n : storeName) : string :=
  match n with
  | Tasks => "tasks" | Expenses => "expenses" | Habits => "habits"
  | Journal => "journal" | Settings => "settings" | Analytics => "analytics"
  end.

(** [options: { keyPath: ... }] of each store. *)
Definition keyPath (n : storeName) (r : record) : option string :=
  match n with
  | Analytics => date r
  | _ => id r
  end.

Record database := mkDatabase {
  tasks : gmap string record;
  expenses : gmap string record;
  habits : gmap string record;
  journal : gmap string record;
  settings : gmap string record;
  analytics : gmap string record;
  syncQueue : gmap N syncItem;
  keyGenerator : N
}.

Definition objectStore (n : storeName) (d : database) : gmap string record :=
  match n with
  | Tasks => tasks d | Expenses => expenses d | Habits => habits d
  | Journal => journal d | Settings => settings d | Analytics => analytics d
  end.

Definition setObjectStore (n : storeName) (m : gmap string record)
    (d : database) : database :=
  match n with
  | Tasks => mkDatabase m (expenses d) (habits d) (journal d) (settings d)
               (analytics d) (syncQueue d) (keyGenerator d)
  | Expenses => mkDatabase (tasks d) m (habits d) (journal d) (settings d)
               (analytics d) (syncQueue d) (keyGenerator d)
  | Habits => mkDatabase (tasks d) (expenses d) m (journal d) (settings d)
               (analytics d) (syncQueue d) (keyGenerator d)
  | Journal => mkDatabase (tasks d) (expenses d) (habits d) m (settings d)
               (analytics d) (syncQueue d) (keyGenerator d)
  | Settings => mkDatabase (tasks d) (expenses d) (habits d) (journal d) m
               (analytics d) (syncQueue d) (keyGenerator d)
  | Analytics => mkDatabase (tasks d) (expenses d) (habits d) (journal d)
               (settings d) m (syncQueue d) (keyGenerator d)
  end.

Definition setSyncQueue (q : gmap N syncItem) (d : database) : database :=
  mkDatabase (tasks d) (expenses d) (habits d) (journal d) (settings d)
    (analytics d) q (keyGenerator d).

Definition setKeyGenerator (k : N) (d : database) : database :=
  mkDatabase (tasks d) (expenses d) (habits d) (journal d) (settings d)
    (analytics d) (syncQueue d) k.

(** A database right after [init]: every store empty, the key generator of
    ['syncQueue'] at 1. *)
Definition emptyDatabase : database :=
  mkDatabase ∅ ∅ ∅ ∅ ∅ ∅ ∅ 1%N.

(** ** The world of the program *)

(** The signals of the event emitter of [SyncManager]. *)
Inductive error := DataError | ConstraintError | TransportError | InvalidBackup.

Inductive signal :=
  | syncComplete
  | syncError (e : error)
  | networkRestored
  | networkLost.

Record world := mkWorld {
  db : database;              (* the IndexedDB database *)
  lastSync : option Z;        (* localStorage item 'lastSync' *)
  isSyncing : bool;           (* SyncManager.isSyncing *)
  emitted : list signal;      (* signals emitted so far, oldest first *)
  tick : nat                  (* transport calls and clock reads so far *)
}.

Definition setDb (d : database) (w : world) : world :=
  mkWorld d (lastSync w) (isSyncing w) (emitted w) (tick w).

Definition setLastSync (t : option Z) (w : world) : world :=
  mkWorld (db w) t (isSyncing w) (emitted w) (tick w).

Definition setIsSyncing (b : bool) (w : world) : world :=
  mkWorld (db w) (lastSync w) b (emitted w) (tick w).

Definition pushSignal (s : signal) (w : world) : world :=
  mkWorld (db w) (lastSync w) (isSyncing w) (emitted w ++ [s]) (tick w).

Definition step (w : world) : world :=
  mkWorld (db w) (lastSync w) (isSyncing w) (emitted w) (S (tick w)).

Definition initialWorld : world := mkWorld emptyDatabase None false [] 0.

(** ** Asynchronous computations *)

Inductive result (A : Type) :=
  | Ok (a : A)
  | Throw (e : error).
Arguments Ok {A} a.
Arguments Throw {A} e.

Definition M (A : Type) : Type := world → result A * world.

Definition ret {A} (a : A) : M A := λ w, (Ok a, w).

Definition throw {A} (e : error) : M A := λ w, (Throw e, w).

Definition bind {A B} (c : M A) (k : A → M B) : M B :=
  λ w, match c w with
       | (Ok a, w') => k a w'
       | (Throw e, w') => (Throw e, w')
       end.

#[global] Instance M_ret : MRet M := @ret.
#[global] Instance M_bind : MBind M := λ A B k c, bind c k.

(** [try { c } catch (error) { h error }] *)
Definition tryCatch {A} (c : M A) (h : error → M A) : M A :=
  λ w, match c w with
       | (Ok a, w') => (Ok a, w')
       | (Throw e, w') => h e w'
       end.

(** [try { c } finally { f }] *)
Definition tryFinally {A} (c : M A) (f : M unit) : M A :=
  λ w, match c w with
       | (r, w') =>
           match f w' with
           | (Ok _, w'') => (r, w'')
           | (Throw e, w'') => (Throw e, w'')
           end
       end.

(** [for (const x of l) { await f(x) }] *)
Fixpoint forEach {A} (l : list A) (f : A → M unit) : M unit :=
  match l with
  | [] => ret ()
  | x :: l' => f x;; forEach l' f
  end.

Definition getWorld : M world := λ w, (Ok w, w).
Definition modifyWorld (f : world → world) : M unit := λ w, (Ok (), f w).
Definition modifyDb (f : database → database) : M unit :=
  modifyWorld (λ w, setDb (f (db w)) w).

(** ** [DailyTrackDB]: generic operations ([src/db.js]) *)

(** The order of the keys of a store: strings by code unit. *)
Definition keyLe (a b : string * record) : Prop := String.leb a.1 b.1 = true.

#[global] Instance keyLe_dec a b : Decision (keyLe a b).
Proof. unfold keyLe. apply _. Defined.

(** [add(storeName, data)]: rejects when the record has no key at the key
    path, or when the key is taken. *)
Definition add (n : storeName) (data : record) : M string :=
  match keyPath n data with
  | None => throw DataError
  | Some k =>
      w ← getWorld;
      match objectStore n (db w) !! k with
      | Some _ => throw ConstraintError
      | None => modifyDb (λ d, setObjectStore n (<[k := data]> (objectStore n d)) d);; ret k
      end
  end.

(** [get(storeName, key)]: the record or [undefined]; an [undefined] key is
    refused by the store. *)
Definition get (n : storeName) (key : option string) : M (option record) :=
  match key with
  | None => throw DataError
  | Some k => w ← getWorld; ret (objectStore n (db w) !! k)
  end.

(** [getAll(storeName)]: every record, in the order of the keys. *)
Definition getAll (n : storeName) : M (list record) :=
  w ← getWorld;
  ret ((merge_sort keyLe (map_to_list (objectStore n (db w)))).*2).

(** [update(storeName, data)]: [put], create or replace. *)
Definition update (n : storeName) (data : record) : M string :=
  match keyPath n data with
  | None => throw DataError
  | Some k =>
      modifyDb (λ d, setObjectStore n (<[k := data]> (objectStore n d)) d);; ret k
  end.

(** [delete(storeName, key)] *)
Definition delete (n : storeName) (key : option string) : M unit :=
  match key with
  | None => throw DataError
  | Some k => modifyDb (λ d, setObjectStore n (base.delete k (objectStore n d)) d)
  end.

(** [clearStore(storeName)] *)
Definition clearStore (n : storeName) : M unit :=
  modifyDb (setObjectStore n ∅).

(** ** [SyncManager.applyRemoteUpdates] ([src/sync.js]) *)

Definition applyRemoteUpdate (n : storeName) (upd : record) : M unit :=
  existing ← get n (id upd);
  match existing with
  | Some e =>
      if dateGt (updatedAt upd) (updatedAt e)
      then update n upd;; ret ()
      else ret ()
  | None => add n upd;; ret ()
  end.

Definition applyRemoteUpdates (n : storeName) (updates : list record) : M unit :=
  forEach updates (applyRemoteUpdate n).

(** ** [DailyTrackDB]: the sync queue ([src/db.js]) *)

Section Environment.

(** The wall clock: [clock t] is the time value that [new Date()] or
    [Date.now()] reads at step [t]. *)
Variable clock : nat → Z.

(** [new Date()] / [Date.now()] *)
Definition now : M Z := λ w, (Ok (clock (tick w)), step w).

(** [add('syncQueue', item)] for an item without [id]: the key generator
    of the store assigns the key and writes it at the key path. *)
Definition addToQueue (type : string) (data : record) (st : status)
    (created : Z) (att : nat) : M N :=
  w ← getWorld;
  let k := keyGenerator (db w) in
  match syncQueue (db w) !! k with
  | Some _ => throw ConstraintError
  | None =>
      modifyDb (λ d, setKeyGenerator (k + 1)%N
                       (setSyncQueue (<[k := mkSyncItem k type data st att created None]>
                                        (syncQueue d)) d));;
      ret k
  end.

(** [addToSyncQueue(type, data)] *)
Definition addToSyncQueue (type : string) (data : record) : M N :=
  t ← now;
  addToQueue type data pending t 0.

(** [get('syncQueue', id)] *)
Definition getQueued (k : N) : M (option syncItem) :=
  w ← getWorld; ret (syncQueue (db w) !! k).

(** [update('syncQueue', item)]: [put] at the item's own [id]. *)
Definition updateQueued (item : syncItem) : M N :=
  modifyDb (λ d, setSyncQueue (<[qid item := item]> (syncQueue d)) d);;
  ret (qid item).

(** [delete('syncQueue', id)] *)
Definition deleteQueued (k : N) : M unit :=
  modifyDb (λ d, setSyncQueue (base.delete k (syncQueue d)) d).

Definition queueLe (a b : N * syncItem) : Prop := (a.1 ≤ b.1)%N.

#[global] Instance queueLe_dec a b : Decision (queueLe a b).
Proof. unfold queueLe. apply _. Defined.

Definition isPending (it : syncItem) : bool :=
  match qstatus it with pending => true | _ => false end.

(** [getAll('syncQueue', 'by-status', 'pending')]: the entries whose
    status is ['pending'], by ascending [id]. *)
Definition getAllPending : M (list syncItem) :=
  w ← getWorld;
  ret (filter (λ it, isPending it = true)
         ((merge_sort queueLe (map_to_list (syncQueue (db w)))).*2)).

(** [getPendingSyncItems(type = null)] *)
Definition getPendingSyncItems (type : option string) : M (list syncItem) :=
  items ← getAllPending;
  ret (match type with
       | Some ty => filter (λ it, qtype it = ty) items
       | None => items
       end).

(** [markSyncItemComplete(id)] *)
Definition markSyncItemComplete (k : N) : M unit :=
  item ← getQueued k;
  match item with
  | Some it =>
      t ← now;
      updateQueued (mkSyncItem (qid it) (qtype it) (qdata it) completed
                      (attempts it) (createdAt it) (Some t));;
      ret ()
  | None => ret ()
  end.

(** ** [DailyTrackDB.logHabitCompletion] ([src/db.js]) *)

(** Dates are day numbers: [habit.lastCompleted] and the [date] argument
    stand for the strings [YYYY-MM-DD] that the code compares, and the
    [yesterday] of the code, one local day before the time read, is taken
    to fall on the previous UTC date. *)

(** The result of [logHabitCompletion]: [null], the habit itself (already
    completed that day), or the key that [update] resolves to. *)
Inductive logResult :=
  | LogNull
  | LogHabit (h : record)
  | LogKey (k : string).

Definition setStreak (h : record) (cur longest : Z) (today : day) : record :=
  mkRecord (id h) (date h) (updatedAt h) (synced h) cur longest
    (Some today) (completionHistory h ++ [today]) (fields h).

Definition logHabitCompletion (habitId : string) (date : option day) : M logResult :=
  habit ← get Habits (Some habitId);
  match habit with
  | None => ret LogNull
  | Some h =>
      today ← match date with
              | Some d => ret d
              | None => t ← now; ret (isoDate t)
              end;
      let lastCompletion := lastCompleted h in
      if bool_decide (lastCompletion = Some today) then ret (LogHabit h)
      else
        h' ← match lastCompletion with
             | Some lc =>
                 t ← now;
                 let yesterdayStr := isoDate (t - msPerDay) in
                 if bool_decide (lc = yesterdayStr)
                 then ret (setStreak h (currentStreak h + 1)
                             (Z.max (longestStreak h) (currentStreak h + 1)) today)
                 else ret (setStreak h 1 (longestStreak h) today)
             | None => ret (setStreak h 1 1 today)
             end;
        k ← update Habits h';
        ret (LogKey k)
  end.

(** ** The remote transport ([SyncManager.apiRequest]) *)

(** The backup file format. [data] is the list of [Object.entries]. *)
Record backupData := mkBackup {
  data : option (list (string * list record));
  exportedAt : option Z;
  version : option string;
  app : option string
}.

Inductive method := GET | POST | PUT.

Inductive endpoint :=
  | ApiTasks | ApiExpenses | ApiHabits | ApiJournal | ApiSettings
  | ApiSync (since : Z)
  | ApiBackup | ApiBackupLatest.

Inductive body :=
  | NoBody
  | RecordBody (r : record)
  | BackupBody (b : backupData).

Record request := mkRequest {
  reqMethod : method;
  reqEndpoint : endpoint;
  reqBody : body
}.

(** The parsed JSON of a response, by the properties that the callers read:
    the three batches of [GET /api/sync] and the backup of
    [GET /api/backup/latest]. *)
Record json := mkJson {
  jTasks : list record;
  jExpenses : list record;
  jJournal : list record;
  jBackup : backupData
}.

(** The remote service: its answer to the request made at step [t], or
    [None] when the call fails (offline, network error, status not ok). *)
Variable api : nat → request → option json.

Definition apiRequest (m : method) (e : endpoint) (b : body) : M json :=
  λ w, match api (tick w) (mkRequest m e b) with
       | Some j => (Ok j, step w)
       | None => (Throw TransportError, step w)
       end.

Definition syncTask (task : record) : M json :=
  apiRequest POST ApiTasks (RecordBody task).
Definition syncExpense (expense : record) : M json :=
  apiRequest POST ApiExpenses (RecordBody expense).
Definition syncHabit (habit : record) : M json :=
  apiRequest POST ApiHabits (RecordBody habit).
Definition syncJournal (entry : record) : M json :=
  apiRequest POST ApiJournal (RecordBody entry).
Definition syncSettings (s : record) : M json :=
  apiRequest PUT ApiSettings (RecordBody s).

(** [registerSyncHandlers] and [syncHandlers.get(type)] *)
Definition syncHandlers (type : string) : option (record → M json) :=
  if decide (type = "task") then Some syncTask
  else if decide (type = "expense") then Some syncExpense
  else if decide (type = "habit") then Some syncHabit
  else if decide (type = "journal") then Some syncJournal
  else if decide (type = "settings") then Some syncSettings
  else None.

(** ** [SyncManager]: the sync cycle ([src/sync.js]) *)

Definition maxRetries : nat := 3.

Definition setAttempts (it : syncItem) (a : nat) : syncItem :=
  mkSyncItem (qid it) (qtype it) (qdata it) (qstatus it) a (createdAt it)
    (completedAt it).

Definition setStatus (it : syncItem) (s : status) : syncItem :=
  mkSyncItem (qid it) (qtype it) (qdata it) s (attempts it) (createdAt it)
    (completedAt it).

(** The body of the loop of [syncPendingItems]; [item] is the copy read by
    [getPendingSyncItems]. *)
Definition syncPendingItem (item : syncItem) : M unit :=
  tryCatch
    (match syncHandlers (qtype item) with
     | Some handler => handler (qdata item);; markSyncItemComplete (qid item)
     | None => ret ()
     end)
    (λ _,
       let item1 := setAttempts item (attempts item + 1) in
       if bool_decide (maxRetries ≤ attempts item1)%nat
       then updateQueued (setStatus item1 failed);; ret ()
       else ret ()).

Definition syncPendingItems : M unit :=
  pendingItems ← getPendingSyncItems None;
  forEach pendingItems syncPendingItem.

Definition setSynced (r : record) (b : bool) : record :=
  mkRecord (id r) (date r) (updatedAt r) b (currentStreak r) (longestStreak r)
    (lastCompleted r) (completionHistory r) (fields r).

(** One of the three blocks of [syncLocalChanges]. *)
Definition syncUnsynced (n : storeName) (push : record → M json) : M unit :=
  locals ← getAll n;
  let unsynced := filter (λ r, synced r = false) locals in
  forEach unsynced (λ r, push r;; update n (setSynced r true);; ret ()).

Definition syncLocalChanges : M unit :=
  syncUnsynced Tasks syncTask;;
  syncUnsynced Expenses syncExpense;;
  syncUnsynced Journal syncJournal.

(** [if (updates.x && updates.x.length > 0) await applyRemoteUpdates(...)] *)
Definition applyBatch (n : storeName) (batch : list record) : M unit :=
  match batch with
  | [] => ret ()
  | _ :: _ => applyRemoteUpdates n batch
  end.

(** The block guarded by the [try] of [fetchRemoteChanges]. *)
Definition pullAndApply (since : Z) : M unit :=
  updates ← apiRequest GET (ApiSync since) NoBody;
  applyBatch Tasks (jTasks updates);;
  applyBatch Expenses (jExpenses updates);;
  applyBatch Journal (jJournal updates);;
  t ← now;
  modifyWorld (setLastSync (Some t)).

Definition fetchRemoteChanges : M unit :=
  w ← getWorld;
  let since := default 0 (lastSync w) in
  tryCatch (pullAndApply since) (λ _, ret ()).

(** [emit(event, data)]: the listeners run inside their own [try]/[catch],
    so that [emit] never throws; the signal is recorded. *)
Definition emit (s : signal) : M unit := modifyWorld (pushSignal s).

Definition syncAll : M unit :=
  w ← getWorld;
  if isSyncing w then ret ()
  else
    modifyWorld (setIsSyncing true);;
    tryFinally
      (tryCatch
         (syncPendingItems;;
          syncLocalChanges;;
          fetchRemoteChanges;;
          emit syncComplete)
         (λ e, emit (syncError e)))
      (modifyWorld (setIsSyncing false)).

(** ** Backup and restore ([src/db.js], [src/app.js], [src/sync.js]) *)

Definition stores : list storeName :=
  [Tasks; Expenses; Habits; Journal; Settings; Analytics].

Fixpoint exportStores (l : list storeName) : M (list (string * list record)) :=
  match l with
  | [] => ret []
  | n :: l' =>
      items ← getAll n;
      rest ← exportStores l';
      ret ((nameOf n, items) :: rest)
  end.

Definition exportData : M backupData :=
  d ← exportStores stores;
  t ← now;
  ret (mkBackup (Some d) (Some t) (Some "2.0") (Some "DailyTrack")).

(** Truthiness of an optional string: [undefined] and [''] are falsy. *)
Definition truthy (s : option string) : bool :=
  match s with
  | Some s => negb (bool_decide (s = ""))
  | None => false
  end.

(** [stores.includes(storeName)], with the store that the name denotes. *)
Definition storeNamed (name : string) : option storeName :=
  find (λ n, bool_decide (nameOf n = name)) stores.

Definition importEntry (e : string * list record) : M unit :=
  match storeNamed e.1 with
  | Some n => forEach e.2 (λ item, add n item;; ret ())
  | None => ret ()
  end.

Definition importData (backup : backupData) : M bool :=
  match data backup with
  | Some entries =>
      if truthy (version backup) then
        forEach stores clearStore;;
        forEach entries importEntry;;
        ret true
      else throw InvalidBackup
  | None => throw InvalidBackup
  end.

(** [DailyTrackApp.validateBackup] ([src/app.js]) *)
Definition validateBackup (backup : backupData) : bool :=
  match data backup with
  | Some _ => truthy (version backup) && bool_decide (app backup = Some "DailyTrack")
  | None => false
  end.

(** [DailyTrackApp.restoreData] ([src/app.js]), from the parsed file on;
    [confirmed] is the answer of the user to the dialog. The result tells
    whether the restore went through. *)
Definition restoreData (backup : backupData) (confirmed : bool) : M bool :=
  tryCatch
    (if validateBackup backup then
       if confirmed then importData backup;; ret true
       else ret false
     else throw InvalidBackup)
    (λ _, ret false).

(** [SyncManager.restoreFromCloud] ([src/sync.js]) *)
Definition restoreFromCloud : M bool :=
  tryCatch
    (backup ← apiRequest GET ApiBackupLatest NoBody;
     importData (jBackup backup);;
     ret true)
    (λ _, ret false).

End Environment.

(** ** Well-formed databases *)

(** Every record sits under the key found at its key path, and every queue
    entry under its own [id]: objects enter a store through [add] and [put]
    only, which compute the key that way. *)
Definition keyedStore (n : storeName) (d : database) : Prop :=
  map_Forall (λ k r, keyPath n r = Some k) (objectStore n d).

Definition keyedDatabase (d : database) : Prop :=
  Forall (λ n, keyedStore n d) stores.

Definition keyedQueue (d : database) : Prop :=
  map_Forall (λ k it, qid it = k) (syncQueue d).

Definition wellKeyed (w : world) : Prop :=
  keyedDatabase (db w) ∧ keyedQueue (db w).

(** [put]: the world after storing [r] under [k] in store [n]. *)
Definition putRecord (n : storeName) (k : string) (r : record) (w : world) : world :=
  setDb (setObjectStore n (<[k := r]> (objectStore n (db w))) (db w)) w.

(** [settled n w u]: store [n] already holds, under the id of [u], a record
    that [u] does not beat. *)
Definition settled (n : storeName) (w : world) (u : record) : Prop :=
  ∃ k e, id u = Some k ∧ objectStore n (db w) !! k = Some e ∧
         dateGt (updatedAt u) (updatedAt e) = false.

(** The write discipline "never store, over a record, one with an older
    [updatedAt]", for a write operation of the store. *)
Definition neverStoresOlder (write : storeName → record → M string) : Prop :=
  ∀ n r w k e e',
    objectStore n (db w) !! k = Some e →
    objectStore n (db (write n r w).2) !! k = Some e' →
    dateGt (updatedAt e) (updatedAt e') = false.

(** [e'] is [e] itself or a record with a strictly greater time value. *)
Definition notOlder (e e' : record) : Prop :=
  e' = e ∨ dateGt (updatedAt e') (updatedAt e) = true.

(** [c] keeps [P]: whatever the outcome of [c], normal or thrown, [P] still
    holds of the world it leaves. *)
Definition preserves {A} (P : world → Prop) (c : M A) : Prop :=
  ∀ w, P w → P (c w).2.

(** The records of a store with their keys, in the order of the keys. *)
Definition storeItems (n : storeName) (d : database) : list (string * record) :=
  merge_sort keyLe (map_to_list (objectStore n d)).

(** The backup that [exportData] builds from world [w], read at time [t]. *)
Definition exported (t : Z) (w : world) : backupData :=
  mkBackup (Some (map (λ n, (nameOf n, (storeItems n (db w)).*2)) stores))
    (Some t) (Some "2.0") (Some "DailyTrack").

(** The database [d] after [clearStore] of every covered store. *)
Definition cleared (d : database) : database :=
  foldl (λ d n, setObjectStore n ∅ d) d stores.

(** The database [d] with every covered store replaced by that of [src]. *)
Definition restored (src d : database) : database :=
  foldl (λ d n, setObjectStore n (objectStore n src) d) d stores.

(** The current streak of a stored habit. *)
Definition streakOf (w : world) (habitId : string) : option Z :=
  currentStreak <$> objectStore Habits (db w) !! habitId.

(** The world after [n] runs of [c], whatever their outcomes. *)
Definition cycles {A} (c : M A) (n : nat) (w : world) : world :=
  Nat.iter n (λ w, (c w).2) w.

(** ** Sample data *)

Module Sample.

(** 2024-01-01T00:00:00Z and 2024-01-02T00:00:00Z *)
Definition jan1 : Z := 1704067200000.
Definition jan2 : Z := 1704153600000.

(** The date 2024-01-01. *)
Definition day1 : day := 19723.

Definition task (title : string) (t : Z) : record :=
  mkRecord (Some "t1") None (Some t) false 0 0 None [] [("title", title)].

Definition taskA : record := task "A" jan1.
Definition taskB : record := task "B" jan2.

Definition expense : record :=
  mkRecord (Some "e1") None (Some jan2) true 0 0 None [] [("amount", "12")].

(** An incoming object without [id]. *)
Definition orphan : record :=
  mkRecord None None (Some jan2) true 0 0 None [] [("amount", "7")].

Definition habit : record :=
  mkRecord (Some "h1") None None false 0 0 None [] [("name", "run")].

Definition metric : record :=
  mkRecord None (Some "2024-01-01") (Some jan1) false 0 0 None [] [("sync", "1")].

(** A clock that advances by one second at every step from 2024-01-03. *)
Definition clock (t : nat) : Z := 1704240000000 + 1000 * Z.of_nat t.

(** A clock that stays within day [d]. *)
Definition clockOn (d : day) (t : nat) : Z := d * msPerDay + Z.of_nat t.

Definition noBackup : backupData := mkBackup None None None None.

(** A remote service that is down. *)
Definition apiDown (t : nat) (r : request) : option json := None.

(** A remote service that acknowledges every push, and answers every pull
    with one newer task and an expense batch whose second object has no
    [id]. *)
Definition apiBadBatch (t : nat) (r : request) : option json :=
  Some (mkJson [taskB] [expense; orphan] [] noBackup).

(** A remote service that acknowledges every push and answers every pull
    with the newer task, flagged as synced. *)
Definition apiUp (t : nat) (r : request) : option json :=
  Some (mkJson [setSynced taskB true] [] [] noBackup).

(** A backup written by another application. *)
Definition foreignBackup : backupData :=
  mkBackup (Some [("tasks", [taskB])]) (Some jan2) (Some "1.0") (Some "OtherApp").

Definition apiForeignBackup (t : nat) (r : request) : option json :=
  Some (mkJson [] [] [] foreignBackup).

(** The local store holds task [taskA]. *)
Definition localA : world := (update Tasks taskA initialWorld).2.

(** The local store holds task [taskB]. *)
Definition localB : world := (update Tasks taskB initialWorld).2.

(** [taskA] was saved and queued for sync while offline. *)
Definition queuedA : world := (addToSyncQueue clock "task" taskA localA).2.

(** A store with one record in four collections. *)
Definition populated : world :=
  (update Analytics metric
     (update Habits habit
        (update Expenses expense
           (update Tasks taskA initialWorld).2).2).2).2.

(** The only record is a habit that was never completed. *)
Definition freshHabit : world := (update Habits habit initialWorld).2.

End Sample.

(** ** Maintenance and cloud backup ([src/db.js], [src/sync.js]) *)

#[global] Instance status_eq_dec : EqDecision status.
Proof. solve_decision. Defined.

Section Maintenance.

Variable clock : nat → Z.
Variable api : nat → request → option json.

(** [LocalTZA(t, isUTC)] of ECMAScript: the offset of the local time zone
    from UTC, in milliseconds, at time value [t], which is read as a UTC
    time when [isUTC] holds and as a local time otherwise. The time zone
    and its clock changes belong to the environment, as the clock does. *)
Variable localTZA : Z → bool → Z.

(** [LocalTime(t)] and [UTC(t)] of ECMAScript. *)
Definition LocalTime (t : Z) : Z := t + localTZA t true.
Definition UTC (t : Z) : Z := t - localTZA t false.

(** [d.setDate(d.getDate() - n)] on the time value of [d]: the day of the
    local time is moved back by [n], month and year carrying over, the
    time within the day is kept, and the result is read as a local time. *)
Definition setDateBack (n : Z) (t : Z) : Z := UTC (LocalTime t - n * msPerDay).

(** [getAll('syncQueue')]: every entry, by ascending [id]. *)
Definition getAllQueued : M (list syncItem) :=
  w ← getWorld;
  ret ((merge_sort queueLe (map_to_list (syncQueue (db w)))).*2).

(** [DailyTrackDB.optimize]. [reindexStore] only writes to the console. *)
Definition optimize : M unit :=
  t ← now clock;
  let thirtyDaysAgo := setDateBack 30 t in
  syncItems ← getAllQueued;
  let oldItems :=
    filter (λ item, createdAt item < thirtyDaysAgo ∧ qstatus item = completed)
      syncItems in
  forEach oldItems (λ item, deleteQueued (qid item)).

(** [SyncManager.clearSyncQueue]. The array [offlineQueue] that it resets
    is read by no function and is not part of the world. *)
Definition clearSyncQueue : M unit :=
  pendingItems ← getPendingSyncItems None;
  forEach pendingItems (λ item, deleteQueued (qid item)).

(** [SyncManager.backupToCloud] *)
Definition backupToCloud : M bool :=
  tryCatch
    (backupData ← exportData clock;
     apiRequest api POST ApiBackup (BackupBody backupData);;
     ret true)
    (λ _, ret false).

(** The day that a call of [logHabitCompletion] logs: the [date] argument,
    or the date read from the clock. *)
Definition loggedDay (d : option day) (w : world) : day :=
  match d with Some d => d | None => isoDate (clock (tick w)) end.

End Maintenance.

(** The entries of the queue, by ascending [id]. *)
Definition queueItems (d : database) : list syncItem :=
  (merge_sort queueLe (map_to_list (syncQueue d))).*2.

(** The queue [q] without the entries of [l]. *)
Definition deleteAll (l : list syncItem) (q : gmap N syncItem) : gmap N syncItem :=
  foldl (λ q it, base.delete (qid it) q) q l.

(** ** More invariants *)

(** The key generator of the queue is above every key in use. *)
Definition queueFresh (d : database) : Prop :=
  map_Forall (λ k _, (k < keyGenerator d)%N) (syncQueue d).

(** The invariant of the database. *)
Definition wellFormed (w : world) : Prop :=
  wellKeyed w ∧ queueFresh (db w).

(** A habit that was completed at least once has
    [1 ≤ currentStreak ≤ longestStreak]. *)
Definition streakInv (h : record) : Prop :=
  lastCompleted h = None ∨ (1 ≤ currentStreak h ∧ currentStreak h ≤ longestStreak h).

(** The types that [registerSyncHandlers] gives a handler to. *)
Definition handledTypes : list string :=
  ["task"; "expense"; "habit"; "journal"; "settings"].

(** The entry [it] once completed at time [t]. *)
Definition completedAtTime (it : syncItem) (t : Z) : syncItem :=
  mkSyncItem (qid it) (qtype it) (qdata it) completed (attempts it)
    (createdAt it) (Some t).

(** [it'] is what the drain of the queue may have made of entry [it]: the
    same id, type, payload and creation time, and the very same entry
    unless [it] was pending with a type that has a handler. *)
Definition evolves (it it' : syncItem) : Prop :=
  qid it' = qid it ∧ qtype it' = qtype it ∧ qdata it' = qdata it ∧
  createdAt it' = createdAt it ∧
  (qstatus it ≠ pending ∨ qtype it ∉ handledTypes → it' = it).

(** [evolves] on the optional entries under one key of two queues. *)
Definition evolvesAt (o o' : option syncItem) : Prop :=
  match o, o' with
  | Some it, Some it' => evolves it it'
  | None, None => True
  | _, _ => False
  end.

(** The world after [k] more transport calls or clock reads. *)
Definition steps (k : nat) (w : world) : world := Nat.iter k step w.

(** The records of store [n] that are not flagged as synced, with their
    keys, in the order of the keys. *)
Definition unsyncedItems (n : storeName) (d : database) : list (string * record) :=
  filter (λ kr, synced kr.2 = false) (storeItems n d).

(** Every record of store [n] is flagged as synced. *)
Definition allSynced (n : storeName) (d : database) : Prop :=
  map_Forall (λ _ r, synced r = true) (objectStore n d).

(** What the drain of the queue keeps of a world [w0]. *)
Definition drained (w0 w : world) : Prop :=
  keyedQueue (db w) ∧
  (∀ k, evolvesAt (syncQueue (db w0) !! k) (syncQueue (db w) !! k)) ∧
  (∀ n, objectStore n (db w) = objectStore n (db w0)) ∧
  keyGenerator (db w) = keyGenerator (db w0) ∧
  lastSync w = lastSync w0 ∧ isSyncing w = isSyncing w0 ∧ emitted w = emitted w0.

(** What the drain keeps of a world [w0], whatever the queue. *)
Definition besidesQueue (w0 w : world) : Prop :=
  (∀ n, objectStore n (db w) = objectStore n (db w0)) ∧
  lastSync w = lastSync w0 ∧ isSyncing w = isSyncing w0 ∧ emitted w = emitted w0.

#[global] Instance allSynced_dec n d : Decision (allSynced n d).
Proof. unfold allSynced. apply _. Defined.

(** The entry that the drain writes back when it gives up on [it]: one more
    attempt, status [failed]. *)
Definition gaveUp (it : syncItem) : syncItem :=
  setStatus (setAttempts it (attempts it + 1)) failed.

(** The stores that the sync cycle pushes from and pulls into. *)
Definition syncedStores : list storeName := [Tasks; Expenses; Journal].

(** What a sync cycle keeps of a world [w0]: the entries of the queue, up to
    [evolves], the key generator, the keys of every store, and the stores
    that are not synced. *)
Definition cycleInv (w0 w : world) : Prop :=
  keyedQueue (db w) ∧
  (∀ k, evolvesAt (syncQueue (db w0) !! k) (syncQueue (db w) !! k)) ∧
  keyGenerator (db w) = keyGenerator (db w0) ∧
  (∀ n k, is_Some (objectStore n (db w0) !! k) → is_Some (objectStore n (db w) !! k)) ∧
  (∀ n, n ∉ syncedStores → objectStore n (db w) = objectStore n (db w0)).

(** The items that a backup payload lists for store [n], in the order of the
    import. *)
Definition itemsFor (n : storeName) (entries : list (string * list record))
    : list record :=
  concat (map snd (filter (λ e, storeNamed e.1 = Some n) entries)).

(** A list of records can be added to an empty store [n]: each has a key at
    the key path of the store, and no two have the same key. *)
Definition importable (n : storeName) (l : list record) : Prop :=
  Forall (λ r, is_Some (keyPath n r)) l ∧ NoDup (keyPath n <$> l).

(** No record of [l] has a key that store [n] of world [w] holds. *)
Definition freshIn (n : storeName) (w : world) (l : list record) : Prop :=
  ∀ r k, r ∈ l → keyPath n r = Some k → objectStore n (db w) !! k = None.

(** ** More sample data *)

Module Scenario.

(** A time zone two hours ahead of UTC, without clock changes. *)
Definition plusTwo (t : Z) (isUTC : bool) : Z := 2 * 60 * 60 * 1000.

(** A note, of a type that has no sync handler. *)
Definition note : record :=
  mkRecord (Some "n1") None (Some Sample.jan1) false 0 0 None [] [("text", "hi")].

(** [taskA] and a note were queued while offline: entries 1 and 2, both
    pending. *)
Definition backlog : world :=
  (addToSyncQueue Sample.clock "note" note Sample.queuedA).2.

(** The first entry of [backlog] has been completed. *)
Definition halfDone : world := (markSyncItemComplete Sample.clock 1 backlog).2.

(** A habit on a streak of three days, last completed on [Sample.day1]. *)
Definition runner : record :=
  mkRecord (Some "h1") None None false 3 5 (Some Sample.day1)
    [Sample.day1 - 2; Sample.day1 - 1; Sample.day1] [("name", "run")].

Definition running : world := (update Habits runner initialWorld).2.

(** A backup that lists the same task twice. *)
Definition twiceBackup : backupData :=
  mkBackup (Some [("tasks", [Sample.taskA; Sample.taskB])]) (Some Sample.jan2)
    (Some "2.0") (Some "DailyTrack").

End Scenario.

(** * Properties *)

(** ** Sequencing *)

Lemma bind_Ok {A B} (c : M A) (k : A → M B) w a w1 :
  c w = (Ok a, w1) → (c ≫= k) w = k a w1.
Proof. intros H. unfold mbind, M_bind, bind. by rewrite H. Qed.

Lemma forEach_cons {A} (x : A) l (f : A → M unit) w :
  forEach (x :: l) f w =
    match f x w with
    | (Ok _, w1) => forEach l f w1
    | (Throw e, w1) => (Throw e, w1)
    end.
Proof. reflexivity. Qed.

(** ** Properties that a computation keeps *)

Create HintDb preserves discriminated.

Section Preserves.
Context (P : world → Prop).

Lemma preserves_ret {A} (a : A) : preserves P (ret a).
Proof. by intros w. Qed.

Lemma preserves_throw {A} e : preserves P (throw e : M A).
Proof. by intros w. Qed.

Lemma preserves_getWorld : preserves P getWorld.
Proof. by intros w. Qed.

Lemma preserves_bind {A C} (c : M A) (k : A → M C) :
  preserves P c → (∀ a, preserves P (k a)) → preserves P (c ≫= k).
Proof.
  intros Hc Hk w Hw. unfold mbind, M_bind, bind. specialize (Hc w Hw).
  destruct (c w) as [[a|e] w1]; simpl in *; [|done].
  by apply Hk.
Qed.

Lemma preserves_tryCatch {A} (c : M A) (h : error → M A) :
  preserves P c → (∀ e, preserves P (h e)) → preserves P (tryCatch c h).
Proof.
  intros Hc Hh w Hw. unfold tryCatch. specialize (Hc w Hw).
  destruct (c w) as [[a|e] w1]; simpl in *; [done|].
  by apply Hh.
Qed.

Lemma preserves_forEach {A} (l : list A) (k : A → M unit) :
  (∀ a, preserves P (k a)) → preserves P (forEach l k).
Proof.
  intros Hk. induction l as [|a l IH]; simpl.
  - apply preserves_ret.
  - apply preserves_bind; auto.
Qed.

Lemma preserves_option {A C} (o : option A) (c : A → M C) (d : M C) :
  (∀ a, preserves P (c a)) → preserves P d →
  preserves P (match o with Some a => c a | None => d end).
Proof. by destruct o. Qed.

Lemma preserves_if {A} (b : bool) (c d : M A) :
  preserves P c → preserves P d → preserves P (if b then c else d).
Proof. by destruct b. Qed.

Lemma preserves_tryFinally {A} (c : M A) (f : M unit) :
  preserves P c → preserves P f → preserves P (tryFinally c f).
Proof.
  intros Hc Hf w Hw. unfold tryFinally. specialize (Hc w Hw).
  destruct (c w) as [r w1]. specialize (Hf w1 Hc).
  by destruct (f w1) as [[[]|e] w2].
Qed.

End Preserves.

#[export] Hint Resolve preserves_ret preserves_throw preserves_getWorld : preserves.

(** Break a computation down along its control structure, and close the
    leaves with the hints on basic operations. *)
Ltac preserve :=
  repeat first
    [ assumption
    | progress intros
    | solve [eauto with preserves]
    | apply preserves_bind | apply preserves_tryCatch | apply preserves_forEach
    | apply preserves_option | apply preserves_if | apply preserves_tryFinally ].

(** ** Stores and time values *)

Lemma objectStore_set_eq n m d : objectStore n (setObjectStore n m d) = m.
Proof. by destruct n. Qed.

Lemma objectStore_set_ne n n' m d :
  n ≠ n' → objectStore n' (setObjectStore n m d) = objectStore n' d.
Proof. by destruct n, n'. Qed.

Lemma setObjectStore_id n d : setObjectStore n (objectStore n d) d = d.
Proof. by destruct n, d. Qed.

Lemma setDb_id w : setDb (db w) w = w.
Proof. by destruct w. Qed.

Lemma keyPath_id n r : n ≠ Analytics → keyPath n r = id r.
Proof. by destruct n. Qed.

Lemma setObjectStore_twice n m m' d :
  setObjectStore n m (setObjectStore n m' d) = setObjectStore n m d.
Proof. by destruct n. Qed.

Lemma db_putRecord n k r w :
  objectStore n (db (putRecord n k r w)) = <[k := r]> (objectStore n (db w)).
Proof. unfold putRecord. simpl. apply objectStore_set_eq. Qed.

Lemma db_putRecord_ne n n' k r w :
  n ≠ n' → objectStore n' (db (putRecord n k r w)) = objectStore n' (db w).
Proof. intros. unfold putRecord. simpl. by apply objectStore_set_ne. Qed.

Lemma dateGt_spec a b :
  dateGt a b = true ↔ ∃ x y, a = Some x ∧ b = Some y ∧ y < x.
Proof.
  destruct a as [x|], b as [y|]; simpl; split.
  all: try (intros H; discriminate H).
  all: try (intros (x' & y' & ? & ? & ?); discriminate).
  - intros H%bool_decide_eq_true. eauto.
  - intros (x' & y' & [= <-] & [= <-] & ?). by apply bool_decide_eq_true.
Qed.

Lemma dateGt_irrefl a : dateGt a a = false.
Proof. destruct a; simpl; [|done]. apply bool_decide_eq_false. lia. Qed.

Lemma dateGt_trans a b c :
  dateGt a b = true → dateGt b c = true → dateGt a c = true.
Proof.
  rewrite !dateGt_spec. intros (x & y & -> & -> & ?) (y' & z & [= <-] & -> & ?).
  exists x, z. repeat split; lia.
Qed.

(** an incoming record that does not beat [e] does not beat what replaces [e] *)
Lemma dateGt_settled u e e' :
  dateGt u e = false → dateGt e' e = true → dateGt u e' = false.
Proof.
  intros Hu He. destruct (dateGt u e') eqn:H; [|done].
  by rewrite (dateGt_trans _ _ _ H He) in Hu.
Qed.

Lemma notOlder_trans a b c : notOlder a b → notOlder b c → notOlder a c.
Proof.
  intros [->|Hab] [->|Hbc]; [by left | by right | by right |].
  right. by eapply dateGt_trans.
Qed.

(** ** The generic operations *)

Lemma add_fresh n r k w :
  keyPath n r = Some k → objectStore n (db w) !! k = None →
  add n r w = (Ok k, putRecord n k r w).
Proof.
  intros Hk Hfresh. unfold add. rewrite Hk.
  unfold mbind, M_bind, bind, getWorld. by rewrite Hfresh.
Qed.

Lemma add_duplicate_key n r w k :
  keyPath n r = Some k → is_Some (objectStore n (db w) !! k) →
  add n r w = (Throw ConstraintError, w).
Proof.
  intros Hk [e He]. unfold add. rewrite Hk.
  unfold mbind, M_bind, bind, getWorld. by rewrite He.
Qed.

Lemma update_upsert n r w k :
  keyPath n r = Some k → update n r w = (Ok k, putRecord n k r w).
Proof. intros Hk. unfold update. by rewrite Hk. Qed.

(** ** Pulling remote changes: last writer wins *)

Lemma applyRemoteUpdate_unfold n upd w :
  n ≠ Analytics →
  applyRemoteUpdate n upd w =
    match id upd with
    | None => (Throw DataError, w)
    | Some k =>
        match objectStore n (db w) !! k with
        | Some e =>
            if dateGt (updatedAt upd) (updatedAt e)
            then (Ok (), putRecord n k upd w)
            else (Ok (), w)
        | None => (Ok (), putRecord n k upd w)
        end
    end.
Proof.
  intros Hn. unfold applyRemoteUpdate, get, add, update.
  rewrite (keyPath_id n upd Hn).
  destruct (id upd) as [k|]; [|done].
  unfold mbind, M_bind, bind, getWorld; simpl.
  destruct (objectStore n (db w) !! k) as [e|] eqn:Hk; simpl.
  - by destruct (dateGt _ _).
  - by rewrite Hk.
Qed.

Lemma applyRemoteUpdates_cons n upd rest w :
  applyRemoteUpdates n (upd :: rest) w =
    match applyRemoteUpdate n upd w with
    | (Ok _, w1) => applyRemoteUpdates n rest w1
    | (Throw e, w1) => (Throw e, w1)
    end.
Proof. reflexivity. Qed.

Lemma applyRemoteUpdates_app n l1 l2 w :
  applyRemoteUpdates n (l1 ++ l2) w =
    match applyRemoteUpdates n l1 w with
    | (Ok _, w1) => applyRemoteUpdates n l2 w1
    | (Throw e, w1) => (Throw e, w1)
    end.
Proof.
  revert w. induction l1 as [|u l1 IH]; intros w; [done|].
  rewrite <- app_comm_cons, !applyRemoteUpdates_cons.
  destruct (applyRemoteUpdate n u w) as [[[]|e] w1]; [apply IH | done].
Qed.

Lemma applyRemoteUpdates_with_ids n l w :
  n ≠ Analytics → Forall (λ u, is_Some (id u)) l →
  (applyRemoteUpdates n l w).1 = Ok ().
Proof.
  intros Hn Hl. revert w. induction Hl as [|u l [k Hk] _ IH]; intros w; [done|].
  rewrite applyRemoteUpdates_cons, applyRemoteUpdate_unfold, Hk by done.
  destruct (objectStore n (db w) !! k); [destruct (dateGt _ _)|]; apply IH.
Qed.

(** C3: every record of a pulled batch that comes after records with an
    [id] only is resolved against the store as the records before it left
    it. If its id is present there and both [updatedAt] are valid time
    values, it replaces the local record when the local time value is
    strictly less than its own, and otherwise (equal or older) the whole
    world, hence the local record, stays as it was; with an invalid date on
    either side nothing is stored either. If its id is absent, it is
    inserted. Whatever the case, [applyRemoteUpdates] goes on with the rest
    of the batch, and no other record of any store has changed. *)
Theorem applyRemoteUpdates_last_writer_wins n pre upd post w k :
  n ≠ Analytics →
  Forall (λ u, is_Some (id u)) pre →
  id upd = Some k →
  let w0 := (applyRemoteUpdates n pre w).2 in
  (applyRemoteUpdates n pre w).1 = Ok () ∧
  ∃ w1,
    applyRemoteUpdates n (pre ++ upd :: post) w = applyRemoteUpdates n post w1 ∧
    (∀ j, j ≠ k → objectStore n (db w1) !! j = objectStore n (db w0) !! j) ∧
    (∀ n', n' ≠ n → objectStore n' (db w1) = objectStore n' (db w0)) ∧
    match objectStore n (db w0) !! k with
    | Some e =>
        match updatedAt upd, updatedAt e with
        | Some t2, Some t1 =>
            if decide (t1 < t2)
            then objectStore n (db w1) !! k = Some upd
            else w1 = w0
        | _, _ => w1 = w0
        end
    | None => objectStore n (db w1) !! k = Some upd
    end.
Proof.
  intros Hn Hpre Hk w0.
  pose proof (applyRemoteUpdates_with_ids n pre w Hn Hpre) as Hok.
  split; [done|]. rewrite applyRemoteUpdates_app. subst w0.
  destruct (applyRemoteUpdates n pre w) as [[[]|err] w0]; [|done]. cbn [snd].
  rewrite applyRemoteUpdates_cons, applyRemoteUpdate_unfold by done.
  rewrite Hk.
  destruct (objectStore n (db w0) !! k) as [e|] eqn:He.
  - destruct (updatedAt upd) as [t2|], (updatedAt e) as [t1|]; simpl;
      try by exists w0.
    destruct (decide (t1 < t2)) as [Hlt|Hge].
    + rewrite bool_decide_eq_true_2 by done. exists (putRecord n k upd w0).
      split; [done|].
      split; [intros j Hj; by rewrite db_putRecord, lookup_insert_ne|].
      split; [intros n' Hn'; by rewrite db_putRecord_ne|].
      rewrite db_putRecord. apply lookup_insert_eq.
    + rewrite bool_decide_eq_false_2 by done. by exists w0.
  - exists (putRecord n k upd w0). split; [done|].
    split; [intros j Hj; by rewrite db_putRecord, lookup_insert_ne|].
    split; [intros n' Hn'; by rewrite db_putRecord_ne|].
    rewrite db_putRecord. apply lookup_insert_eq.
Qed.

Lemma applyRemoteUpdates_last_writer_wins_witness :
  (Tasks ≠ Analytics ∧ Forall (λ u, is_Some (id u)) [] ∧
   id Sample.taskB = Some "t1" ∧
   (applyRemoteUpdates Tasks [] Sample.localA).1 = Ok () ∧
   ∃ w1,
     applyRemoteUpdates Tasks ([] ++ Sample.taskB :: []) Sample.localA
       = applyRemoteUpdates Tasks [] w1 ∧
     (∀ j, j ≠ "t1" →
        objectStore Tasks (db w1) !! j = objectStore Tasks (db Sample.localA) !! j) ∧
     (∀ n', n' ≠ Tasks →
        objectStore n' (db w1) = objectStore n' (db Sample.localA)) ∧
     objectStore Tasks (db w1) !! "t1" = Some Sample.taskB) ∧
  (Tasks ≠ Analytics ∧ Forall (λ u, is_Some (id u)) [] ∧
   id (Sample.task "C" Sample.jan1) = Some "t1" ∧
   (applyRemoteUpdates Tasks [] Sample.localA).1 = Ok () ∧
   ∃ w1,
     applyRemoteUpdates Tasks ([] ++ Sample.task "C" Sample.jan1 :: []) Sample.localA
       = applyRemoteUpdates Tasks [] w1 ∧
     (∀ j, j ≠ "t1" →
        objectStore Tasks (db w1) !! j = objectStore Tasks (db Sample.localA) !! j) ∧
     (∀ n', n' ≠ Tasks →
        objectStore n' (db w1) = objectStore n' (db Sample.localA)) ∧
     w1 = Sample.localA) ∧
  (Tasks ≠ Analytics ∧ Forall (λ u, is_Some (id u)) [Sample.taskB] ∧
   id Sample.taskA = Some "t1" ∧
   (applyRemoteUpdates Tasks [Sample.taskB] Sample.localA).1 = Ok () ∧
   ∃ w1,
     applyRemoteUpdates Tasks ([Sample.taskB] ++ Sample.taskA :: [Sample.orphan])
       Sample.localA
       = applyRemoteUpdates Tasks [Sample.orphan] w1 ∧
     (∀ j, j ≠ "t1" →
        objectStore Tasks (db w1) !! j = objectStore Tasks (db Sample.localB) !! j) ∧
     (∀ n', n' ≠ Tasks →
        objectStore n' (db w1) = objectStore n' (db Sample.localB)) ∧
     w1 = Sample.localB).
Proof.
  assert (Hn : Tasks ≠ Analytics) by discriminate.
  assert (H0 : Forall (λ u : record, is_Some (id u)) []) by constructor.
  assert (H1 : Forall (λ u, is_Some (id u)) [Sample.taskB])
    by (repeat constructor; by eexists).
  split; [|split].
  - split; [exact Hn|]. split; [exact H0|]. split; [reflexivity|].
    exact (applyRemoteUpdates_last_writer_wins Tasks [] Sample.taskB []
             Sample.localA "t1" Hn H0 eq_refl).
  - split; [exact Hn|]. split; [exact H0|]. split; [reflexivity|].
    exact (applyRemoteUpdates_last_writer_wins Tasks [] (Sample.task "C" Sample.jan1) []
             Sample.localA "t1" Hn H0 eq_refl).
  - split; [exact Hn|]. split; [exact H1|]. split; [reflexivity|].
    exact (applyRemoteUpdates_last_writer_wins Tasks [Sample.taskB] Sample.taskA
             [Sample.orphan] Sample.localA "t1" Hn H1 eq_refl).
Defined.

Lemma applyRemoteUpdate_settled n u w :
  n ≠ Analytics → settled n w u → applyRemoteUpdate n u w = (Ok (), w).
Proof.
  intros Hn (k & e & Hk & He & Hgt).
  by rewrite applyRemoteUpdate_unfold, Hk, He, Hgt.
Qed.

Lemma applyRemoteUpdate_settles n u w w1 :
  n ≠ Analytics → applyRemoteUpdate n u w = (Ok (), w1) →
  settled n w1 u ∧ ∀ v, settled n w v → settled n w1 v.
Proof.
  intros Hn. rewrite applyRemoteUpdate_unfold by done.
  destruct (id u) as [k|] eqn:Hk; [|done].
  destruct (objectStore n (db w) !! k) as [e|] eqn:He;
    [destruct (dateGt (updatedAt u) (updatedAt e)) eqn:Hgt|].
  2: { intros [= <-]. split; [|done]. by exists k, e. }
  all: intros [= <-]; split.
  all: try (exists k, u; rewrite db_putRecord, lookup_insert_eq;
            by rewrite dateGt_irrefl).
  - intros v (j & ev & Hj & Hev & Hv). destruct (decide (j = k)) as [->|Hne].
    + exists k, u. rewrite db_putRecord, lookup_insert_eq.
      repeat split; [done|]. rewrite He in Hev. injection Hev as <-.
      by eapply dateGt_settled.
    + exists j, ev. by rewrite db_putRecord, lookup_insert_ne.
  - intros v (j & ev & Hj & Hev & Hv). destruct (decide (j = k)) as [->|Hne].
    + by rewrite He in Hev.
    + exists j, ev. by rewrite db_putRecord, lookup_insert_ne.
Qed.

Lemma applyRemoteUpdate_throws n u w e w1 :
  n ≠ Analytics → applyRemoteUpdate n u w = (Throw e, w1) → w1 = w.
Proof.
  intros Hn. rewrite applyRemoteUpdate_unfold by done.
  destruct (id u); [|by intros [= _ <-]].
  destruct (_ !! _); [destruct (dateGt _ _)|]; done.
Qed.

Lemma applyRemoteUpdates_replay n updates :
  n ≠ Analytics →
  ∀ w done r w1,
    Forall (settled n w) done →
    applyRemoteUpdates n updates w = (r, w1) →
    Forall (settled n w1) done ∧ applyRemoteUpdates n updates w1 = (r, w1).
Proof.
  intros Hn. induction updates as [|u us IH]; intros w done r w1 Hdone.
  - intros [= <- <-]. done.
  - rewrite applyRemoteUpdates_cons.
    destruct (applyRemoteUpdate n u w) as [[[]|e] w'] eqn:Hu.
    + intros Hrest.
      destruct (applyRemoteUpdate_settles _ _ _ _ Hn Hu) as [Hsu Hkeep].
      destruct (IH w' (u :: done) r w1) as [Hall Hagain]; [|done|].
      { constructor; [done|]. eapply Forall_impl; [exact Hdone|done]. }
      apply Forall_cons in Hall as [Hu1 Hd1]. split; [done|].
      by rewrite applyRemoteUpdates_cons, (applyRemoteUpdate_settled _ _ _ Hn Hu1).
    + intros [= <- <-]. pose proof (applyRemoteUpdate_throws _ _ _ _ _ Hn Hu) as ->.
      split; [done|]. by rewrite applyRemoteUpdates_cons, Hu.
Qed.

(** C4: applying a batch of remote updates a second time ends in the same
    world, with the same outcome, as applying it once. *)
Theorem applyRemoteUpdates_idempotent n updates w :
  n ≠ Analytics →
  applyRemoteUpdates n updates (applyRemoteUpdates n updates w).2
  = applyRemoteUpdates n updates w.
Proof.
  intros Hn. destruct (applyRemoteUpdates n updates w) as [r w1] eqn:H.
  by destruct (applyRemoteUpdates_replay n updates Hn w [] r w1).
Qed.

Lemma applyRemoteUpdates_idempotent_witness :
  Tasks ≠ Analytics ∧
  applyRemoteUpdates Tasks [Sample.taskB; Sample.orphan; Sample.taskA]
    (applyRemoteUpdates Tasks [Sample.taskB; Sample.orphan; Sample.taskA]
       Sample.localA).2
  = applyRemoteUpdates Tasks [Sample.taskB; Sample.orphan; Sample.taskA]
      Sample.localA.
Proof.
  split; [discriminate|].
  apply (applyRemoteUpdates_idempotent Tasks
           [Sample.taskB; Sample.orphan; Sample.taskA] Sample.localA).
  discriminate.
Defined.

(** ** Unique ids and the age of what is written *)

Lemma notOlder_dateGt e e' :
  notOlder e e' → dateGt (updatedAt e) (updatedAt e') = false.
Proof.
  intros [->|H]; [apply dateGt_irrefl|].
  destruct (dateGt (updatedAt e) (updatedAt e')) eqn:H'; [|done].
  pose proof (dateGt_trans _ _ _ H H') as Hcyc. by rewrite dateGt_irrefl in Hcyc.
Qed.

Lemma applyRemoteUpdates_monotone n updates :
  n ≠ Analytics →
  ∀ w k e,
    objectStore n (db w) !! k = Some e →
    ∃ e', objectStore n (db (applyRemoteUpdates n updates w).2) !! k = Some e' ∧
          notOlder e e'.
Proof.
  intros Hn. induction updates as [|u us IH]; intros w k e He.
  - exists e. split; [done | by left].
  - rewrite applyRemoteUpdates_cons, applyRemoteUpdate_unfold by done.
    destruct (id u) as [j|] eqn:Hj; [|exists e; split; [done | by left]].
    destruct (objectStore n (db w) !! j) as [ej|] eqn:Hej;
      [destruct (dateGt (updatedAt u) (updatedAt ej)) eqn:Hgt|].
    2: { by apply IH. }
    all: destruct (decide (j = k)) as [->|Hne].
    all: try (apply IH; by rewrite db_putRecord, lookup_insert_ne).
    + rewrite He in Hej. injection Hej as <-.
      destruct (IH (putRecord n k u w) k u) as (e' & He' & Hle).
      { by rewrite db_putRecord, lookup_insert_eq. }
      exists e'. split; [done|]. eapply notOlder_trans; [|exact Hle]. by right.
    + by rewrite He in Hej.
Qed.

(** What [applyRemoteUpdates] leaves under a key is never older than what
    the key held. *)
Lemma applyRemoteUpdates_never_older n updates w k e e' :
  n ≠ Analytics →
  objectStore n (db w) !! k = Some e →
  objectStore n (db (applyRemoteUpdates n updates w).2) !! k = Some e' →
  dateGt (updatedAt e) (updatedAt e') = false.
Proof.
  intros Hn He He'.
  destruct (applyRemoteUpdates_monotone n updates Hn w k e He) as (e1 & H1 & Hle).
  rewrite He' in H1. injection H1 as <-. by apply notOlder_dateGt.
Qed.

(** Over the newer [taskB], [update] stores the older [taskA]. *)
Lemma update_replaces_newer_task :
  objectStore Tasks (db Sample.localB) !! "t1" = Some Sample.taskB ∧
  objectStore Tasks (db (update Tasks Sample.taskA Sample.localB).2) !! "t1"
  = Some Sample.taskA ∧
  dateGt (updatedAt Sample.taskB) (updatedAt Sample.taskA) = true.
Proof. repeat split; reflexivity. Qed.

(** C7, as stated, fails on [update], which is a plain [put]: over the task
    [taskB] of 2024-01-02, [update] stores [taskA] of 2024-01-01. *)
Lemma update_stores_older_record : ¬ neverStoresOlder update.
Proof.
  intros H. destruct update_replaces_newer_task as (Hold & Hnew & Hgt).
  by rewrite (H Tasks Sample.taskA Sample.localB "t1" _ _ Hold Hnew) in Hgt.
Qed.

(** C7, amended: in a store keyed by [id], for a key that holds a record,
    [add] of a record with that key is refused with [ConstraintError] and
    changes nothing; [applyRemoteUpdates], whatever the batch, leaves under
    that key the same record or one with a strictly greater [updatedAt];
    and [update] is an unconditional create-or-replace. *)
Theorem unique_ids_and_monotone_pull n updates r w k e :
  n ≠ Analytics →
  objectStore n (db w) !! k = Some e →
  keyPath n r = Some k →
  add n r w = (Throw ConstraintError, w) ∧
  (∃ e', objectStore n (db (applyRemoteUpdates n updates w).2) !! k = Some e' ∧
         (e' = e ∨ dateGt (updatedAt e') (updatedAt e) = true)) ∧
  update n r w = (Ok k, putRecord n k r w).
Proof.
  intros Hn He Hk. split; [|split].
  - by eapply add_duplicate_key.
  - by apply applyRemoteUpdates_monotone.
  - by apply update_upsert.
Qed.

Lemma unique_ids_and_monotone_pull_witness :
  Tasks ≠ Analytics ∧
  objectStore Tasks (db Sample.localA) !! "t1" = Some Sample.taskA ∧
  keyPath Tasks Sample.taskB = Some "t1" ∧
  add Tasks Sample.taskB Sample.localA = (Throw ConstraintError, Sample.localA) ∧
  (∃ e', objectStore Tasks
           (db (applyRemoteUpdates Tasks [Sample.taskB] Sample.localA).2) !! "t1"
         = Some e' ∧
         (e' = Sample.taskA ∨
          dateGt (updatedAt e') (updatedAt Sample.taskA) = true)) ∧
  update Tasks Sample.taskB Sample.localA
  = (Ok "t1", putRecord Tasks "t1" Sample.taskB Sample.localA).
Proof.
  split; [discriminate|]. split; [reflexivity|]. split; [reflexivity|].
  apply (unique_ids_and_monotone_pull Tasks [Sample.taskB] Sample.taskB
           Sample.localA "t1" Sample.taskA); [discriminate | reflexivity | reflexivity].
Defined.

(** ** What the store and the transport leave alone *)

(** A property of the world that depends neither on the database nor on the
    step counter (the checkpoint, the flag, the signals) is kept by every
    operation of the store, every clock read and every transport call. *)
Section Frame.
Context (P : world → Prop).
Hypothesis P_setDb : ∀ d w, P w → P (setDb d w).
Hypothesis P_step : ∀ w, P w → P (step w).

Lemma frame_modifyDb g : preserves P (modifyDb g).
Proof. intros w. apply P_setDb. Qed.

#[local] Hint Resolve frame_modifyDb : preserves.

Lemma frame_add n r : preserves P (add n r).
Proof. unfold add. preserve. Qed.

Lemma frame_get n k : preserves P (get n k).
Proof. unfold get. preserve. Qed.

Lemma frame_update n r : preserves P (update n r).
Proof. unfold update. preserve. Qed.

Lemma frame_getAll n : preserves P (getAll n).
Proof. unfold getAll. preserve. Qed.

#[local] Hint Resolve frame_add frame_get frame_update frame_getAll : preserves.

Lemma frame_applyRemoteUpdates n l : preserves P (applyRemoteUpdates n l).
Proof. unfold applyRemoteUpdates, applyRemoteUpdate. preserve. Qed.

Lemma frame_applyBatch n l : preserves P (applyBatch n l).
Proof. destruct l; [apply preserves_ret | apply frame_applyRemoteUpdates]. Qed.

Variable clock : nat → Z.
Variable api : nat → request → option json.

Lemma frame_now : preserves P (now clock).
Proof. intros w. apply P_step. Qed.

Lemma frame_apiRequest m e b : preserves P (apiRequest api m e b).
Proof. intros w. unfold apiRequest. destruct (api _ _); apply P_step. Qed.

#[local] Hint Resolve frame_now frame_apiRequest frame_applyBatch : preserves.

Lemma frame_markSyncItemComplete k : preserves P (markSyncItemComplete clock k).
Proof. unfold markSyncItemComplete, getQueued, updateQueued. preserve. Qed.

#[local] Hint Resolve frame_markSyncItemComplete : preserves.

Lemma frame_syncHandler ty h r :
  syncHandlers api ty = Some h → preserves P (h r).
Proof.
  unfold syncHandlers, syncTask, syncExpense, syncHabit, syncJournal, syncSettings.
  repeat case_decide; intros [= <-]; preserve.
Qed.

Lemma frame_syncPendingItem item : preserves P (syncPendingItem clock api item).
Proof.
  unfold syncPendingItem, updateQueued. apply preserves_tryCatch; [|preserve].
  destruct (syncHandlers api (qtype item)) eqn:Hh; [|preserve].
  apply preserves_bind; [by eapply frame_syncHandler | preserve].
Qed.

Lemma frame_syncPendingItems : preserves P (syncPendingItems clock api).
Proof.
  unfold syncPendingItems, getPendingSyncItems, getAllPending.
  apply preserves_bind; [preserve|]. intros l. apply preserves_forEach.
  apply frame_syncPendingItem.
Qed.

Lemma frame_syncLocalChanges : preserves P (syncLocalChanges api).
Proof.
  unfold syncLocalChanges, syncUnsynced, syncTask, syncExpense, syncJournal.
  preserve.
Qed.

(** The pull keeps whatever does not depend on the checkpoint either. *)
Lemma frame_fetchRemoteChanges :
  (∀ t w, P w → P (setLastSync t w)) →
  preserves P (fetchRemoteChanges clock api).
Proof.
  intros Hls. unfold fetchRemoteChanges, pullAndApply. preserve.
  intros w. apply Hls.
Qed.
End Frame.

(** ** The sync queue *)

Section Queue.
Variable clock : nat → Z.
Variable api : nat → request → option json.

(** C10: [markSyncItemComplete] of an id that the queue does not hold
    returns normally and leaves the whole world as it was; of an id that
    the queue holds, it sets the status of that entry to [completed] and
    stamps [completedAt] with the time read, keeps the other fields of the
    entry, and changes no other entry, no store of records, and nothing of
    the engine. *)
Theorem markSyncItemComplete_frame k w :
  keyedQueue (db w) →
  match syncQueue (db w) !! k with
  | None => markSyncItemComplete clock k w = (Ok (), w)
  | Some it =>
      ∃ w',
        markSyncItemComplete clock k w = (Ok (), w') ∧
        syncQueue (db w') !! k
          = Some (mkSyncItem k (qtype it) (qdata it) completed (attempts it)
                    (createdAt it) (Some (clock (tick w)))) ∧
        (∀ j, j ≠ k → syncQueue (db w') !! j = syncQueue (db w) !! j) ∧
        (∀ n, objectStore n (db w') = objectStore n (db w)) ∧
        keyGenerator (db w') = keyGenerator (db w) ∧
        lastSync w' = lastSync w ∧
        isSyncing w' = isSyncing w ∧
        emitted w' = emitted w
  end.
Proof.
  intros Hq. unfold markSyncItemComplete, getQueued, updateQueued, now.
  unfold mbind, M_bind, bind, getWorld, modifyDb, modifyWorld, ret. simpl.
  destruct (syncQueue (db w) !! k) as [it|] eqn:Hk; [|done].
  pose proof (Hq k it Hk) as Hid. simpl in Hid. subst k.
  eexists. split; [reflexivity|]. simpl.
  split; [apply lookup_insert_eq|].
  split; [intros j Hj; by apply lookup_insert_ne|].
  split; [|done]. by intros [].
Qed.

(** *** Failed pushes

    While the transport is down, a failed push changes nothing in the
    database as long as the stored count of the entry is below
    [maxRetries - 1]: the count is raised on the copy that
    [getPendingSyncItems] returned, and that copy is written back only
    once it reaches [maxRetries]. *)
Hypothesis api_down : ∀ t r, api t r = None.

Lemma syncPendingItem_attempt_lost item w :
  (attempts item + 1 < maxRetries)%nat →
  db (syncPendingItem clock api item w).2 = db w.
Proof.
  intros Hlt. unfold syncPendingItem, tryCatch.
  assert (bool_decide (maxRetries ≤ attempts (setAttempts item (attempts item + 1)))%nat
          = false) as Hno.
  { apply bool_decide_eq_false. simpl. lia. }
  unfold syncHandlers, syncTask, syncExpense, syncHabit, syncJournal, syncSettings.
  repeat case_decide.
  all: unfold mbind, M_bind, bind, apiRequest; rewrite ?api_down; simpl.
  all: by rewrite ?Hno.
Qed.

Lemma forEach_attempts_lost l w :
  Forall (λ it, attempts it + 1 < maxRetries)%nat l →
  db (forEach l (syncPendingItem clock api) w).2 = db w.
Proof.
  intros Hl. revert w. induction Hl as [|it l Hit _ IH]; intros w; [done|].
  rewrite forEach_cons.
  pose proof (syncPendingItem_attempt_lost it w Hit) as Hdb.
  destruct (syncPendingItem clock api it w) as [[[]|e] w1]; simpl in *; [|done].
  by rewrite IH.
Qed.

Lemma syncPendingItems_attempts_lost w :
  map_Forall (λ _ it, attempts it + 1 < maxRetries)%nat (syncQueue (db w)) →
  db (syncPendingItems clock api w).2 = db w.
Proof.
  intros Hq. unfold syncPendingItems, getPendingSyncItems, getAllPending.
  unfold mbind, M_bind, bind, getWorld, ret. simpl.
  apply forEach_attempts_lost. apply Forall_forall. intros it Hit.
  apply list_elem_of_filter in Hit as [_ Hit].
  apply list_elem_of_fmap in Hit as ([k it'] & -> & Hin).
  rewrite merge_sort_Permutation in Hin.
  apply elem_of_map_to_list in Hin. by apply (Hq k).
Qed.

(** However many times the queue is drained while the transport is down,
    an entry queued with [attempts = 0] stays as it was queued. *)
Lemma syncPendingItems_never_fails_an_entry n w :
  map_Forall (λ _ it, attempts it + 1 < maxRetries)%nat (syncQueue (db w)) →
  db (cycles (syncPendingItems clock api) n w) = db w.
Proof.
  intros Hq. induction n as [|n IH]; [done|]. unfold cycles in *. simpl.
  rewrite syncPendingItems_attempts_lost; [done|]. by rewrite IH.
Qed.
End Queue.

Lemma markSyncItemComplete_frame_witness :
  keyedQueue (db Sample.queuedA) ∧
  ∃ w',
    markSyncItemComplete Sample.clock 1 Sample.queuedA = (Ok (), w') ∧
    syncQueue (db w') !! 1%N
      = Some (mkSyncItem 1 "task" Sample.taskA completed 0 (Sample.clock 0)
                (Some (Sample.clock 1))) ∧
    (∀ j, j ≠ 1%N → syncQueue (db w') !! j = syncQueue (db Sample.queuedA) !! j) ∧
    (∀ n, objectStore n (db w') = objectStore n (db Sample.queuedA)) ∧
    keyGenerator (db w') = keyGenerator (db Sample.queuedA) ∧
    lastSync w' = lastSync Sample.queuedA ∧
    isSyncing w' = isSyncing Sample.queuedA ∧
    emitted w' = emitted Sample.queuedA.
Proof.
  assert (Hq : keyedQueue (db Sample.queuedA)).
  { unfold keyedQueue. apply (bool_decide_unpack _). vm_compute. exact I. }
  split; [exact Hq|].
  exact (markSyncItemComplete_frame Sample.clock 1 Sample.queuedA Hq).
Defined.

(** C1: the entry queued for [taskA] is pushed in each of three sync cycles,
    and each push fails; after the third cycle the stored entry still has
    [attempts = 0] and status [pending], where the claim has [attempts = 3]
    and status [failed]. Every cycle to come pushes it again. *)
Theorem failed_attempts_are_not_counted :
  let w3 := cycles (syncAll Sample.clock Sample.apiDown) 3 Sample.queuedA in
  syncQueue (db w3) !! 1%N
  = Some (mkSyncItem 1 "task" Sample.taskA pending 0 (Sample.clock 0) None) ∧
  (getPendingSyncItems None w3).1
  = Ok [mkSyncItem 1 "task" Sample.taskA pending 0 (Sample.clock 0) None].
Proof. vm_compute. done. Qed.

(** ** The sync cycle *)

Section Engine.
Variable clock : nat → Z.
Variable api : nat → request → option json.

Lemma applyBatch_lastSync n l w : lastSync (applyBatch n l w).2 = lastSync w.
Proof.
  by apply (frame_applyBatch (λ w', lastSync w' = lastSync w) (λ _ _ H, H)).
Qed.

(** C2: [fetchRemoteChanges] returns normally whatever happens, and the
    checkpoint moves in one case only: the request was answered and the
    three batches, tasks then expenses then journal, were each applied
    without throwing. When the request fails, or a batch throws after
    earlier batches went through, the world is left as it was at the
    throw, with [lastSync] unchanged. *)
Theorem fetchRemoteChanges_checkpoint_safety w :
  ∃ w',
    fetchRemoteChanges clock api w = (Ok (), w') ∧
    match api (tick w) (mkRequest GET (ApiSync (default 0 (lastSync w))) NoBody) with
    | None => w' = step w ∧ lastSync w' = lastSync w
    | Some updates =>
        match applyBatch Tasks (jTasks updates) (step w) with
        | (Throw _, wa) => w' = wa ∧ lastSync w' = lastSync w
        | (Ok _, wa) =>
            match applyBatch Expenses (jExpenses updates) wa with
            | (Throw _, wb) => w' = wb ∧ lastSync w' = lastSync w
            | (Ok _, wb) =>
                match applyBatch Journal (jJournal updates) wb with
                | (Throw _, wc) => w' = wc ∧ lastSync w' = lastSync w
                | (Ok _, wc) =>
                    w' = setLastSync (Some (clock (tick wc))) (step wc)
                end
            end
        end
    end.
Proof.
  unfold fetchRemoteChanges, pullAndApply, tryCatch, apiRequest, now.
  unfold mbind, M_bind, bind, getWorld, modifyWorld, ret. simpl.
  destruct (api _ _) as [updates|]; [|by eexists].
  pose proof (applyBatch_lastSync Tasks (jTasks updates) (step w)) as Ha.
  destruct (applyBatch Tasks _ _) as [[[]|ea] wa]; simpl in Ha; [|by eexists].
  pose proof (applyBatch_lastSync Expenses (jExpenses updates) wa) as Hb.
  destruct (applyBatch Expenses _ _) as [[[]|eb] wb]; simpl in Hb;
    [|eexists; split; [done|]; split; [done|congruence]].
  pose proof (applyBatch_lastSync Journal (jJournal updates) wb) as Hc.
  destruct (applyBatch Journal _ _) as [[[]|ec] wc]; simpl in Hc;
    [|eexists; split; [done|]; split; [done|congruence]].
  by eexists.
Qed.

Lemma fetchRemoteChanges_never_throws w :
  ∃ w', fetchRemoteChanges clock api w = (Ok (), w').
Proof.
  unfold fetchRemoteChanges, tryCatch, mbind, M_bind, bind, getWorld.
  destruct (pullAndApply clock api _ w) as [[[]|e] w']; by eexists.
Qed.

Lemma phases_emitted w :
  emitted ((syncPendingItems clock api;; syncLocalChanges api) w).2 = emitted w.
Proof.
  apply (preserves_bind (λ w', emitted w' = emitted w)); [| |done].
  - by apply frame_syncPendingItems.
  - intros _. by apply frame_syncLocalChanges.
Qed.

Lemma fetchRemoteChanges_emitted w :
  emitted (fetchRemoteChanges clock api w).2 = emitted w.
Proof.
  by apply (frame_fetchRemoteChanges (λ w', emitted w' = emitted w)
              (λ _ _ H, H) (λ _ H, H)).
Qed.

(** C8, amended: a call of [syncAll] that finds the flag set is dropped
    and changes nothing. Otherwise the call returns normally with the
    flag released, and it has emitted exactly one signal: [syncError]
    when the drain or the push of local changes throws, [syncComplete]
    when they do not, whether the pull succeeded or failed, since
    [fetchRemoteChanges] catches what the pull throws. *)
Theorem syncAll_flag_and_signals w :
  if isSyncing w then syncAll clock api w = (Ok (), w)
  else
    ∃ w',
      syncAll clock api w = (Ok (), w') ∧
      isSyncing w' = false ∧
      match (syncPendingItems clock api;; syncLocalChanges api)
              (setIsSyncing true w) with
      | (Ok _, _) => emitted w' = emitted w ++ [syncComplete]
      | (Throw e, _) => emitted w' = emitted w ++ [syncError e]
      end.
Proof.
  destruct (isSyncing w) eqn:Hflag.
  { unfold syncAll, mbind, M_bind, bind, getWorld. by rewrite Hflag. }
  set (w0 := setIsSyncing true w).
  pose proof (phases_emitted w0) as Hphases.
  unfold syncAll, tryFinally, tryCatch, emit, modifyWorld.
  unfold mbind, M_bind, bind, getWorld in *. rewrite Hflag. fold w0.
  destruct (syncPendingItems clock api w0) as [[[]|e1] w1]; simpl in *.
  - destruct (syncLocalChanges api w1) as [[[]|e2] w2]; simpl in *.
    + destruct (fetchRemoteChanges_never_throws w2) as (w3 & Hf).
      pose proof (fetchRemoteChanges_emitted w2) as Hem.
      rewrite Hf in *. simpl in *. eexists. split; [done|]. split; [done|].
      simpl. by rewrite Hem, Hphases.
    + eexists. split; [done|]. split; [done|]. simpl. by rewrite Hphases.
  - eexists. split; [done|]. split; [done|]. simpl. by rewrite Hphases.
Qed.
End Engine.

(** A pull that fails partway: the task batch is applied, the expense
    batch throws at its second object, which has no id; the task and the
    first expense stay stored, and the checkpoint stays unset. *)
Lemma fetchRemoteChanges_partial_failure :
  let w := (fetchRemoteChanges Sample.clock Sample.apiBadBatch Sample.localA).2 in
  applyBatch Expenses [Sample.expense; Sample.orphan]
    (applyBatch Tasks [Sample.taskB] (step Sample.localA)).2
  = (Throw DataError, w) ∧
  objectStore Tasks (db w) !! "t1" = Some Sample.taskB ∧
  objectStore Expenses (db w) !! "e1" = Some Sample.expense ∧
  lastSync w = lastSync Sample.localA.
Proof. repeat split; vm_compute; reflexivity. Qed.

(** The scenario of an edit made offline: once the network is back, one
    cycle completes the queue entry, flags the task as synced on its way
    out, replaces it by the newer remote task and sets the checkpoint; a
    second cycle with the same answer leaves the task store as it is. *)
Lemma offline_edit_scenario :
  let w1 := (syncAll Sample.clock Sample.apiUp Sample.queuedA).2 in
  let w2 := (syncAll Sample.clock Sample.apiUp w1).2 in
  qstatus <$> syncQueue (db w1) !! 1%N = Some completed ∧
  objectStore Tasks (db w1) !! "t1" = Some (setSynced Sample.taskB true) ∧
  is_Some (lastSync w1) ∧
  emitted w1 = [syncComplete] ∧
  isSyncing w1 = false ∧
  objectStore Tasks (db w2) = objectStore Tasks (db w1).
Proof. vm_compute. repeat split; eauto. Qed.

(** C8, as stated, fails: with the remote service down and nothing to push,
    the pull of the cycle throws [TransportError] inside
    [fetchRemoteChanges], and [syncAll] emits [syncComplete]. *)
Lemma syncAll_complete_after_failed_pull :
  pullAndApply Sample.clock Sample.apiDown 0 (setIsSyncing true initialWorld)
  = (Throw TransportError, setIsSyncing true (step initialWorld)) ∧
  emitted (syncAll Sample.clock Sample.apiDown initialWorld).2 = [syncComplete].
Proof. split; vm_compute; reflexivity. Qed.

(** ** Habit streaks *)

Section Habit.
Variable clock : nat → Z.

(** Logging again for the day of the last completion changes nothing. *)
Lemma logHabitCompletion_same_day habitId d h w :
  objectStore Habits (db w) !! habitId = Some h →
  lastCompleted h = Some d →
  logHabitCompletion clock habitId (Some d) w = (Ok (LogHabit h), w).
Proof.
  intros Hh Hd. unfold logHabitCompletion, get.
  unfold mbind, M_bind, bind, getWorld, ret; simpl.
  simpl in Hh. rewrite Hh. simpl. rewrite Hd. by rewrite bool_decide_eq_true_2.
Qed.

(** The first completion ever starts both streaks at 1. *)
Lemma logHabitCompletion_first habitId d h w :
  objectStore Habits (db w) !! habitId = Some h →
  id h = Some habitId →
  lastCompleted h = None →
  logHabitCompletion clock habitId (Some d) w
  = (Ok (LogKey habitId), putRecord Habits habitId (setStreak h 1 1 d) w).
Proof.
  intros Hh Hid Hd. unfold logHabitCompletion, get, update.
  unfold mbind, M_bind, bind, getWorld, ret; simpl.
  simpl in Hh. rewrite Hh. simpl. rewrite Hd. simpl. by rewrite Hid.
Qed.

(** Logging without a date, on the day after the last completion, extends
    the streak and raises the longest streak to it. *)
Lemma logHabitCompletion_next_day habitId lc h w :
  objectStore Habits (db w) !! habitId = Some h →
  id h = Some habitId →
  lastCompleted h = Some lc →
  isoDate (clock (tick w)) = lc + 1 →
  isoDate (clock (S (tick w)) - msPerDay) = lc →
  logHabitCompletion clock habitId None w
  = (Ok (LogKey habitId),
     putRecord Habits habitId
       (setStreak h (currentStreak h + 1)
          (Z.max (longestStreak h) (currentStreak h + 1)) (lc + 1))
       (step (step w))).
Proof.
  intros Hh Hid Hd Htoday Hyest. unfold logHabitCompletion, get, update, now.
  unfold mbind, M_bind, bind, getWorld, ret; simpl.
  simpl in Hh. rewrite Hh. simpl. rewrite Hd, Htoday.
  rewrite bool_decide_eq_false_2 by (intros [= ?]; lia).
  simpl. rewrite Hyest. rewrite bool_decide_eq_true_2 by done. simpl.
  by rewrite Hid.
Qed.

(** Logging without a date, two days or more after the last completion,
    restarts the streak at 1. *)
Lemma logHabitCompletion_gap habitId lc h w :
  objectStore Habits (db w) !! habitId = Some h →
  id h = Some habitId →
  lastCompleted h = Some lc →
  lc + 1 < isoDate (clock (tick w)) →
  isoDate (clock (S (tick w)) - msPerDay) ≠ lc →
  logHabitCompletion clock habitId None w
  = (Ok (LogKey habitId),
     putRecord Habits habitId
       (setStreak h 1 (longestStreak h) (isoDate (clock (tick w))))
       (step (step w))).
Proof.
  intros Hh Hid Hd Htoday Hyest. unfold logHabitCompletion, get, update, now.
  unfold mbind, M_bind, bind, getWorld, ret; simpl.
  simpl in Hh. rewrite Hh. simpl. rewrite Hd.
  rewrite bool_decide_eq_false_2 by (intros [= ?]; lia).
  simpl. rewrite bool_decide_eq_false_2 by done. simpl.
  by rewrite Hid.
Qed.
End Habit.

(** Logged without a date on 2024-01-01 and on the two days that follow, a
    fresh habit reaches a streak of 3. *)
Lemma logHabitCompletion_three_days_by_the_clock :
  let w1 := (logHabitCompletion (Sample.clockOn Sample.day1) "h1" None
               Sample.freshHabit).2 in
  let w2 := (logHabitCompletion (Sample.clockOn (Sample.day1 + 1)) "h1" None w1).2 in
  let w3 := (logHabitCompletion (Sample.clockOn (Sample.day1 + 2)) "h1" None w2).2 in
  streakOf w3 "h1" = Some 3.
Proof. vm_compute. reflexivity. Qed.

(** C5: on 2024-01-08 by the wall clock, a fresh habit is logged for the
    dates 2024-01-01, 2024-01-02 and 2024-01-03, three consecutive days. The
    streak is 1 after each call, where the claim has 1, 2 and 3: "yesterday"
    is taken from the wall clock, not from the date that is logged. *)
Theorem logHabitCompletion_dated_streak_lost :
  let wall := Sample.clockOn (Sample.day1 + 7) in
  let w1 := (logHabitCompletion wall "h1" (Some Sample.day1) Sample.freshHabit).2 in
  let w2 := (logHabitCompletion wall "h1" (Some (Sample.day1 + 1)) w1).2 in
  let w3 := (logHabitCompletion wall "h1" (Some (Sample.day1 + 2)) w2).2 in
  streakOf w1 "h1" = Some 1 ∧ streakOf w2 "h1" = Some 1 ∧ streakOf w3 "h1" = Some 1.
Proof. vm_compute. done. Qed.

(** In the other direction: on 2024-01-02 by the wall clock, logging for
    2024-01-01 and then for 2024-01-04, a gap of three days, extends the
    streak to 2. *)
Lemma logHabitCompletion_dated_gap_ignored :
  let wall := Sample.clockOn (Sample.day1 + 1) in
  let w1 := (logHabitCompletion wall "h1" (Some Sample.day1) Sample.freshHabit).2 in
  let w2 := (logHabitCompletion wall "h1" (Some (Sample.day1 + 3)) w1).2 in
  streakOf w2 "h1" = Some 2.
Proof. vm_compute. reflexivity. Qed.

(** ** Backup and restore *)

Lemma validateBackup_true backup :
  validateBackup backup = true ↔
  is_Some (data backup) ∧ truthy (version backup) = true ∧
  app backup = Some "DailyTrack".
Proof.
  unfold validateBackup. destruct (data backup); simpl.
  - rewrite andb_true_iff, bool_decide_eq_true.
    split; [intros [Hv Ha]; eauto | by intros (_ & Hv & Ha)].
  - split; [done|]. by intros [[? [=]] _].
Qed.

(** An invalid payload is rejected before anything is cleared. *)
Lemma importData_rejects backup w :
  data backup = None ∨ truthy (version backup) = false →
  importData backup w = (Throw InvalidBackup, w).
Proof.
  unfold importData. intros [->|Hv]; [done|].
  rewrite Hv. by destruct (data backup).
Qed.

Lemma forEach_clearStore w :
  forEach stores clearStore w = (Ok (), setDb (cleared (db w)) w).
Proof. done. Qed.

(** An accepted payload is imported into cleared stores. *)
Lemma importData_accepts backup entries w :
  data backup = Some entries → truthy (version backup) = true →
  importData backup w
  = (forEach entries importEntry;; ret true) (setDb (cleared (db w)) w).
Proof.
  intros Hd Hv. unfold importData. rewrite Hd, Hv.
  by rewrite (bind_Ok _ _ _ () _ (forEach_clearStore w)).
Qed.

(** [importData] does not look at [app]. *)
Lemma importData_ignores_app backup a w :
  importData (mkBackup (data backup) (exportedAt backup) (version backup) a) w
  = importData backup w.
Proof. done. Qed.

(** The restore from a file rejects what [validateBackup] rejects. *)
Lemma restoreData_rejects backup confirmed w :
  validateBackup backup = false → restoreData backup confirmed w = (Ok false, w).
Proof. intros H. unfold restoreData, tryCatch. by rewrite H. Qed.

(** C6: the latest backup on the remote service was written by another
    application. [validateBackup] rejects it, and so does the restore from a
    file; [restoreFromCloud] hands it to [importData], which accepts it:
    every covered store is cleared and the foreign task is inserted. *)
Theorem importData_accepts_foreign_app :
  validateBackup Sample.foreignBackup = false ∧
  restoreData Sample.foreignBackup true Sample.populated = (Ok false, Sample.populated) ∧
  ∃ w',
    restoreFromCloud Sample.apiForeignBackup Sample.populated = (Ok true, w') ∧
    objectStore Tasks (db w') = {[ "t1" := Sample.taskB ]} ∧
    objectStore Expenses (db w') = ∅ ∧
    objectStore Habits (db w') = ∅ ∧
    objectStore Analytics (db w') = ∅.
Proof.
  split; [reflexivity|]. split; [reflexivity|].
  eexists. split; [vm_compute; reflexivity|].
  repeat split; vm_compute; reflexivity.
Qed.

(** *** Export, then import *)

Lemma keyedDatabase_store d n : keyedDatabase d → keyedStore n d.
Proof.
  unfold keyedDatabase. rewrite Forall_forall. intros H. apply H.
  unfold stores. destruct n; repeat constructor.
Qed.

Lemma storeNamed_nameOf n : storeNamed (nameOf n) = Some n.
Proof. by destruct n. Qed.

Lemma storeItems_Permutation n d :
  storeItems n d ≡ₚ map_to_list (objectStore n d).
Proof. apply merge_sort_Permutation. Qed.

(** Adding records with distinct fresh keys, one after the other, succeeds
    and merges them into the store. *)
Lemma forEach_add n (l : list (string * record)) :
  ∀ w,
    NoDup l.*1 →
    Forall (λ kr, keyPath n kr.2 = Some kr.1) l →
    (∀ k, k ∈ l.*1 → objectStore n (db w) !! k = None) →
    forEach l.*2 (λ item, add n item;; ret ()) w
    = (Ok (), setDb (setObjectStore n (list_to_map l ∪ objectStore n (db w)) (db w)) w).
Proof.
  induction l as [|[k r] l IH]; intros w Hnd Hkeys Hfresh.
  - simpl. by rewrite (left_id_L ∅ (∪)), setObjectStore_id, setDb_id.
  - apply NoDup_cons in Hnd as [Hk Hnd]. apply Forall_cons in Hkeys as [Hkr Hkeys].
    rewrite fmap_cons, forEach_cons. simpl in Hkr.
    unfold mbind at 1, M_bind at 1, bind at 1.
    rewrite (add_fresh n r k) by (done || apply Hfresh; rewrite fmap_cons; constructor).
    cbn [ret]. rewrite IH; [|done|done|].
    2: { intros k' Hk'. rewrite db_putRecord.
         assert (k ≠ k') by (intros <-; contradiction).
         rewrite lookup_insert_ne by done.
         apply Hfresh. rewrite fmap_cons. by constructor. }
    unfold putRecord. simpl. rewrite objectStore_set_eq, setObjectStore_twice.
    unfold setDb. simpl. do 3 f_equal.
    rewrite <- insert_union_r by by apply not_elem_of_list_to_map_1.
    by rewrite insert_union_l.
Qed.

(** Importing the exported items of a store into the empty store gives the
    store back. *)
Lemma importEntry_store n d0 w :
  keyedStore n d0 →
  objectStore n (db w) = ∅ →
  importEntry (nameOf n, (storeItems n d0).*2) w
  = (Ok (), setDb (setObjectStore n (objectStore n d0) (db w)) w).
Proof.
  intros Hkeyed Hempty. unfold importEntry. simpl. rewrite storeNamed_nameOf.
  pose proof (storeItems_Permutation n d0) as Hperm.
  rewrite forEach_add.
  - rewrite Hempty, (right_id_L ∅ (∪)).
    rewrite (list_to_map_proper (storeItems n d0) (map_to_list (objectStore n d0)));
      [by rewrite list_to_map_to_list | | done].
    rewrite Hperm. apply NoDup_fst_map_to_list.
  - rewrite Hperm. apply NoDup_fst_map_to_list.
  - apply Forall_forall. intros [k r] Hin. rewrite Hperm in Hin.
    apply elem_of_map_to_list in Hin. by apply (Hkeyed k).
  - intros k _. by rewrite Hempty.
Qed.

Lemma objectStore_restored n src d : objectStore n (restored src d) = objectStore n src.
Proof. by destruct n. Qed.

Section RoundTrip.
Variable clock : nat → Z.

Lemma exportData_exported w :
  exportData clock w = (Ok (exported (clock (tick w)) w), step w).
Proof. done. Qed.

Lemma importData_exported t w target :
  keyedDatabase (db w) →
  importData (exported t w) target
  = (Ok true, setDb (restored (db w) (db target)) target).
Proof.
  intros Hk. pose proof (λ n, keyedDatabase_store (db w) n Hk) as Hstore.
  rewrite (importData_accepts (exported t w) _ target eq_refl eq_refl).
  erewrite bind_Ok; [reflexivity|].
  unfold stores. cbn [map].
  repeat (rewrite forEach_cons, importEntry_store by done).
  by destruct target.
Qed.

(** C9: [exportData] succeeds, and importing the backup that it returns,
    into any world (an emptied store among them), succeeds and leaves in
    every covered store exactly the records, under the same keys and with
    the same fields, that the store held at the export. *)
Theorem export_import_round_trip w target :
  keyedDatabase (db w) →
  ∃ backup w',
    exportData clock w = (Ok backup, step w) ∧
    importData backup target = (Ok true, w') ∧
    ∀ n, objectStore n (db w') = objectStore n (db w).
Proof.
  intros Hk. exists (exported (clock (tick w)) w).
  exists (setDb (restored (db w) (db target)) target).
  split; [apply exportData_exported|].
  split; [by apply importData_exported|].
  intros n. apply objectStore_restored.
Qed.
End RoundTrip.

Lemma export_import_round_trip_witness :
  keyedDatabase (db Sample.populated) ∧
  ∃ backup w',
    exportData Sample.clock Sample.populated = (Ok backup, step Sample.populated) ∧
    importData backup initialWorld = (Ok true, w') ∧
    ∀ n, objectStore n (db w') = objectStore n (db Sample.populated).
Proof.
  assert (Hk : keyedDatabase (db Sample.populated)).
  { unfold keyedDatabase, keyedStore. apply (bool_decide_unpack _).
    vm_compute. exact I. }
  split; [exact Hk|].
  exact (export_import_round_trip Sample.clock Sample.populated initialWorld Hk).
Defined.

(** ** The stores stay keyed *)

(** From [initialWorld] on, every operation leaves every record under the
    key at its key path and every queue entry under its [id]: the
    assumptions on the database made above are invariants of the program. *)

Lemma keyedDatabase_stores d : (∀ n, keyedStore n d) → keyedDatabase d.
Proof. intros H. apply Forall_forall. intros n _. apply H. Qed.

Lemma wellKeyed_initial : wellKeyed initialWorld.
Proof.
  split.
  - apply keyedDatabase_stores. intros []; apply map_Forall_empty.
  - apply map_Forall_empty.
Qed.

Lemma wellKeyed_store n m w :
  map_Forall (λ k r, keyPath n r = Some k) m →
  wellKeyed w → wellKeyed (setDb (setObjectStore n m (db w)) w).
Proof.
  intros Hm [Hdb Hq]. split; [|by destruct n].
  apply keyedDatabase_stores. intros n'. unfold keyedStore. simpl.
  destruct (decide (n = n')) as [<-|Hne].
  - by rewrite objectStore_set_eq.
  - rewrite objectStore_set_ne by done. by apply keyedDatabase_store.
Qed.

Lemma wellKeyed_putRecord n k r w :
  keyPath n r = Some k → wellKeyed w → wellKeyed (putRecord n k r w).
Proof.
  intros Hk Hw. apply wellKeyed_store; [|done].
  apply map_Forall_insert_2; [done|]. by apply keyedDatabase_store, Hw.
Qed.

Lemma wellKeyed_queue q w :
  map_Forall (λ k it, qid it = k) q →
  wellKeyed w → wellKeyed (setDb (setSyncQueue q (db w)) w).
Proof.
  intros Hq [Hdb _]. split; [|done].
  apply keyedDatabase_stores. intros n.
  pose proof (keyedDatabase_store _ n Hdb) as Hn. by destruct n.
Qed.

Lemma wellKeyed_step w : wellKeyed w → wellKeyed (step w).
Proof. done. Qed.

Section Keyed.
Variable clock : nat → Z.
Variable api : nat → request → option json.

Lemma keyed_add n r : preserves wellKeyed (add n r).
Proof.
  intros w Hw. unfold add. destruct (keyPath n r) as [k|] eqn:Hk; [|done].
  unfold mbind, M_bind, bind, getWorld.
  destruct (objectStore n (db w) !! k); [done|].
  by apply wellKeyed_putRecord.
Qed.

Lemma keyed_update n r : preserves wellKeyed (update n r).
Proof.
  intros w Hw. unfold update. destruct (keyPath n r) as [k|] eqn:Hk; [|done].
  by apply wellKeyed_putRecord.
Qed.

Lemma keyed_get n k : preserves wellKeyed (get n k).
Proof. unfold get. preserve. Qed.

Lemma keyed_getAll n : preserves wellKeyed (getAll n).
Proof. unfold getAll. preserve. Qed.

Lemma keyed_clearStore n : preserves wellKeyed (clearStore n).
Proof. intros w Hw. apply wellKeyed_store; [apply map_Forall_empty | done]. Qed.

Lemma keyed_delete n k : preserves wellKeyed (delete n k).
Proof.
  intros w Hw. destruct k as [k|]; [|done].
  apply wellKeyed_store; [|done].
  apply map_Forall_delete. by apply keyedDatabase_store, Hw.
Qed.

Lemma keyed_now : preserves wellKeyed (now clock).
Proof. by intros w. Qed.

Lemma keyed_apiRequest m e b : preserves wellKeyed (apiRequest api m e b).
Proof. intros w Hw. unfold apiRequest. by destruct (api _ _). Qed.

Lemma keyed_updateQueued item : preserves wellKeyed (updateQueued item).
Proof.
  intros w Hw. apply wellKeyed_queue; [|done].
  apply map_Forall_insert_2; [done | apply Hw].
Qed.

Lemma keyed_addToQueue ty r st t a : preserves wellKeyed (addToQueue ty r st t a).
Proof.
  intros w Hw. unfold addToQueue, mbind, M_bind, bind, getWorld.
  destruct (syncQueue (db w) !! keyGenerator (db w)); [done|]. simpl.
  destruct Hw as [Hdb Hq]. split; [|by apply map_Forall_insert_2].
  apply keyedDatabase_stores. intros n.
  pose proof (keyedDatabase_store _ n Hdb) as Hn. by destruct n.
Qed.

#[local] Hint Resolve keyed_add keyed_update keyed_get keyed_getAll
  keyed_clearStore keyed_delete keyed_now keyed_apiRequest keyed_updateQueued
  keyed_addToQueue : preserves.

Lemma keyed_addToSyncQueue ty r : preserves wellKeyed (addToSyncQueue clock ty r).
Proof. unfold addToSyncQueue. preserve. Qed.

Lemma keyed_markSyncItemComplete k :
  preserves wellKeyed (markSyncItemComplete clock k).
Proof. unfold markSyncItemComplete, getQueued. preserve. Qed.

Lemma keyed_applyRemoteUpdates n l : preserves wellKeyed (applyRemoteUpdates n l).
Proof. unfold applyRemoteUpdates, applyRemoteUpdate. preserve. Qed.

Lemma keyed_logHabitCompletion habitId d :
  preserves wellKeyed (logHabitCompletion clock habitId d).
Proof. unfold logHabitCompletion. preserve. Qed.

#[local] Hint Resolve keyed_markSyncItemComplete keyed_applyRemoteUpdates
  : preserves.

Lemma keyed_syncPendingItems : preserves wellKeyed (syncPendingItems clock api).
Proof.
  unfold syncPendingItems, getPendingSyncItems, getAllPending.
  apply preserves_bind; [preserve|]. intros l. apply preserves_forEach.
  intros item. unfold syncPendingItem. apply preserves_tryCatch; [|preserve].
  unfold syncHandlers, syncTask, syncExpense, syncHabit, syncJournal, syncSettings.
  repeat case_decide; preserve.
Qed.

Lemma keyed_syncLocalChanges : preserves wellKeyed (syncLocalChanges api).
Proof.
  unfold syncLocalChanges, syncUnsynced, syncTask, syncExpense, syncJournal.
  preserve.
Qed.

Lemma keyed_applyBatch n l : preserves wellKeyed (applyBatch n l).
Proof. destruct l; simpl; preserve. Qed.

#[local] Hint Resolve keyed_applyBatch : preserves.

Lemma keyed_fetchRemoteChanges : preserves wellKeyed (fetchRemoteChanges clock api).
Proof.
  unfold fetchRemoteChanges, pullAndApply. preserve.
Qed.

#[local] Hint Resolve keyed_syncPendingItems keyed_syncLocalChanges
  keyed_fetchRemoteChanges : preserves.

Lemma keyed_syncAll : preserves wellKeyed (syncAll clock api).
Proof.
  unfold syncAll, emit. preserve.
Qed.

Lemma keyed_importData backup : preserves wellKeyed (importData backup).
Proof. unfold importData, importEntry. preserve. Qed.

#[local] Hint Resolve keyed_importData : preserves.

Lemma keyed_restoreFromCloud : preserves wellKeyed (restoreFromCloud api).
Proof. unfold restoreFromCloud. preserve. Qed.

Lemma keyed_restoreData backup confirmed :
  preserves wellKeyed (restoreData backup confirmed).
Proof. unfold restoreData. preserve. Qed.
End Keyed.

(** * More of the code *)

(** ** Objects without id in a pulled batch *)

(** X1: in a store keyed by [id], a batch whose objects before [bad] all
    have an [id] and where [bad] has none applies those objects, then stops
    with [DataError] at [bad]: the world is the one after the objects before
    [bad], and nothing after [bad] is applied. *)
Theorem applyRemoteUpdates_stops_at_missing_id n pre bad post w :
  n ≠ Analytics →
  Forall (λ u, is_Some (id u)) pre →
  id bad = None →
  (applyRemoteUpdates n pre w).1 = Ok () ∧
  applyRemoteUpdates n (pre ++ bad :: post) w
  = (Throw DataError, (applyRemoteUpdates n pre w).2).
Proof.
  intros Hn Hpre Hbad.
  pose proof (applyRemoteUpdates_with_ids n pre w Hn Hpre) as Hok.
  split; [done|]. rewrite applyRemoteUpdates_app.
  destruct (applyRemoteUpdates n pre w) as [[[]|e] w1]; [|done].
  by rewrite applyRemoteUpdates_cons, applyRemoteUpdate_unfold, Hbad.
Qed.

Lemma applyRemoteUpdates_stops_at_missing_id_witness :
  Tasks ≠ Analytics ∧
  Forall (λ u, is_Some (id u)) [Sample.taskB] ∧
  id Sample.orphan = None ∧
  (applyRemoteUpdates Tasks [Sample.taskB] Sample.localA).1 = Ok () ∧
  applyRemoteUpdates Tasks ([Sample.taskB] ++ Sample.orphan :: [Sample.taskA])
    Sample.localA
  = (Throw DataError, (applyRemoteUpdates Tasks [Sample.taskB] Sample.localA).2).
Proof.
  assert (H1 : Tasks ≠ Analytics) by discriminate.
  assert (H2 : Forall (λ u, is_Some (id u)) [Sample.taskB])
    by (repeat constructor; by eexists).
  assert (H3 : id Sample.orphan = None) by reflexivity.
  split; [exact H1|]. split; [exact H2|]. split; [exact H3|].
  exact (applyRemoteUpdates_stops_at_missing_id Tasks [Sample.taskB] Sample.orphan
           [Sample.taskA] Sample.localA H1 H2 H3).
Defined.

(** ** Habits *)

Section Habits.
Variable clock : nat → Z.

(** What [logHabitCompletion] does to a stored habit, case by case. *)
Lemma logHabitCompletion_cases habitId d h w :
  objectStore Habits (db w) !! habitId = Some h →
  id h = Some habitId →
  let today := loggedDay clock d w in
  if bool_decide (lastCompleted h = Some today)
  then ∃ w1, logHabitCompletion clock habitId d w = (Ok (LogHabit h), w1) ∧
             db w1 = db w ∧ lastSync w1 = lastSync w ∧
             isSyncing w1 = isSyncing w ∧ emitted w1 = emitted w
  else ∃ w1 c l,
      logHabitCompletion clock habitId d w
      = (Ok (LogKey habitId), putRecord Habits habitId (setStreak h c l today) w1) ∧
      db w1 = db w ∧ lastSync w1 = lastSync w ∧
      isSyncing w1 = isSyncing w ∧ emitted w1 = emitted w ∧
      match lastCompleted h with
      | None => c = 1 ∧ l = 1
      | Some _ =>
          (c = currentStreak h + 1 ∧ l = Z.max (longestStreak h) (currentStreak h + 1))
          ∨ (c = 1 ∧ l = longestStreak h)
      end.
Proof.
  intros Hh Hid today. unfold logHabitCompletion, get, update, now.
  unfold mbind, M_bind, bind, getWorld, ret. simpl in *. rewrite Hh. simpl.
  destruct d as [d|]; simpl in *.
  - fold today. destruct (bool_decide (lastCompleted h = Some today)); [by eexists|].
    destruct (lastCompleted h) as [lc|]; simpl.
    + destruct (bool_decide (lc = _)); simpl; rewrite Hid;
        eexists (step w), _, _; repeat split; eauto.
    + rewrite Hid. eexists w, _, _. repeat split; eauto.
  - fold today. destruct (bool_decide (lastCompleted h = Some today)); [by eexists|].
    destruct (lastCompleted h) as [lc|]; simpl.
    + destruct (bool_decide (lc = _)); simpl; rewrite Hid;
        eexists (step (step w)), _, _; repeat split; eauto.
    + rewrite Hid. eexists (step w), _, _. repeat split; eauto.
Qed.

Lemma logHabitCompletion_missing habitId d w :
  objectStore Habits (db w) !! habitId = None →
  logHabitCompletion clock habitId d w = (Ok LogNull, w).
Proof.
  intros Hh. unfold logHabitCompletion, get.
  unfold mbind, M_bind, bind, getWorld, ret. simpl in *. by rewrite Hh.
Qed.

(** X2: whatever its outcome, [logHabitCompletion] on a keyed store of
    habits changes no other habit, no other store, nothing of the queue and
    nothing of the engine; for an id that the store does not hold it
    returns [null] and leaves the world as it was. *)
Theorem logHabitCompletion_frame habitId d w :
  keyedStore Habits (db w) →
  let w' := (logHabitCompletion clock habitId d w).2 in
  (objectStore Habits (db w) !! habitId = None →
   logHabitCompletion clock habitId d w = (Ok LogNull, w)) ∧
  (∀ k, k ≠ habitId →
     objectStore Habits (db w') !! k = objectStore Habits (db w) !! k) ∧
  (∀ n, n ≠ Habits → objectStore n (db w') = objectStore n (db w)) ∧
  syncQueue (db w') = syncQueue (db w) ∧
  keyGenerator (db w') = keyGenerator (db w) ∧
  lastSync w' = lastSync w ∧ isSyncing w' = isSyncing w ∧ emitted w' = emitted w.
Proof.
  intros Hkeyed w'. subst w'.
  destruct (objectStore Habits (db w) !! habitId) as [h|] eqn:Hh.
  2: { by rewrite logHabitCompletion_missing. }
  split; [done|].
  pose proof (logHabitCompletion_cases habitId d h w Hh (Hkeyed _ _ Hh)) as Hc.
  simpl in Hc. destruct (bool_decide _).
  - destruct Hc as (w1 & -> & Hdb & ? & ? & ?). cbn [snd].
    rewrite Hdb. by repeat split.
  - destruct Hc as (w1 & c & l & -> & Hdb & ? & ? & ? & _). cbn [snd].
    split; [intros k Hk; by rewrite db_putRecord, lookup_insert_ne, Hdb|].
    split; [intros n Hn; by rewrite db_putRecord_ne, Hdb|].
    unfold putRecord. simpl. by rewrite Hdb.
Qed.

(** X3: whatever its outcome, [logHabitCompletion] keeps the streaks of a
    stored habit in order: if the habit was never completed or had
    [1 <= currentStreak <= longestStreak], the stored habit afterwards is
    such a habit too. Its last completion is the one from before or the
    logged day; for a habit completed before, the current streak has grown
    by one at most and the longest streak has not shrunk; the history is
    the one from before, or that with the logged day appended; the other
    fields are kept. *)
Theorem logHabitCompletion_streak_bounds habitId d h w :
  keyedStore Habits (db w) →
  objectStore Habits (db w) !! habitId = Some h →
  streakInv h →
  ∃ h',
    objectStore Habits (db (logHabitCompletion clock habitId d w).2) !! habitId
    = Some h' ∧
    streakInv h' ∧
    (lastCompleted h' = lastCompleted h ∨
     lastCompleted h' = Some (loggedDay clock d w)) ∧
    (is_Some (lastCompleted h) →
     currentStreak h' ≤ currentStreak h + 1 ∧ longestStreak h ≤ longestStreak h') ∧
    (completionHistory h' = completionHistory h ∨
     completionHistory h' = completionHistory h ++ [loggedDay clock d w]) ∧
    id h' = id h ∧ date h' = date h ∧ updatedAt h' = updatedAt h ∧
    synced h' = synced h ∧ fields h' = fields h.
Proof.
  intros Hkeyed Hh Hinv.
  pose proof (logHabitCompletion_cases habitId d h w Hh (Hkeyed _ _ Hh)) as Hc.
  simpl in Hc. destruct (bool_decide _) eqn:Hsame.
  - destruct Hc as (w1 & -> & Hdb & _). exists h. simpl. rewrite Hdb.
    split; [done|]. split; [done|]. split; [by left|].
    split; [intros _; lia|]. split; [by left | done].
  - destruct Hc as (w1 & c & l & -> & Hdb & _ & _ & _ & Hcl).
    exists (setStreak h c l (loggedDay clock d w)). cbn [snd].
    rewrite db_putRecord, lookup_insert_eq. split; [done|].
    unfold streakInv. simpl.
    destruct (lastCompleted h) as [lc|] eqn:Hlc.
    + destruct Hinv as [?|[? ?]]; [congruence|].
      destruct Hcl as [[-> ->]|[-> ->]].
      * split; [right; lia|]. split; [by right|]. split; [intros _; lia|].
        split; [by right | done].
      * split; [right; lia|]. split; [by right|]. split; [intros _; lia|].
        split; [by right | done].
    + destruct Hcl as [-> ->].
      split; [right; lia|]. split; [by right|]. split; [by intros [? ?]|].
      split; [by right | done].
Qed.
End Habits.

Lemma logHabitCompletion_frame_witness :
  keyedStore Habits (db Scenario.running) ∧
  let w' := (logHabitCompletion (Sample.clockOn (Sample.day1 + 1)) "h1" None
               Scenario.running).2 in
  (objectStore Habits (db Scenario.running) !! "h1" = None →
   logHabitCompletion (Sample.clockOn (Sample.day1 + 1)) "h1" None Scenario.running
   = (Ok LogNull, Scenario.running)) ∧
  (∀ k, k ≠ "h1" →
     objectStore Habits (db w') !! k = objectStore Habits (db Scenario.running) !! k) ∧
  (∀ n, n ≠ Habits → objectStore n (db w') = objectStore n (db Scenario.running)) ∧
  syncQueue (db w') = syncQueue (db Scenario.running) ∧
  keyGenerator (db w') = keyGenerator (db Scenario.running) ∧
  lastSync w' = lastSync Scenario.running ∧
  isSyncing w' = isSyncing Scenario.running ∧
  emitted w' = emitted Scenario.running.
Proof.
  assert (Hk : keyedStore Habits (db Scenario.running)).
  { unfold keyedStore. apply (bool_decide_unpack _). vm_compute. exact I. }
  split; [exact Hk|].
  exact (logHabitCompletion_frame (Sample.clockOn (Sample.day1 + 1)) "h1" None
           Scenario.running Hk).
Defined.

Lemma logHabitCompletion_streak_bounds_witness :
  keyedStore Habits (db Scenario.running) ∧
  objectStore Habits (db Scenario.running) !! "h1" = Some Scenario.runner ∧
  streakInv Scenario.runner ∧
  ∃ h',
    objectStore Habits
      (db (logHabitCompletion (Sample.clockOn (Sample.day1 + 1)) "h1" None
             Scenario.running).2) !! "h1"
    = Some h' ∧
    streakInv h' ∧
    (lastCompleted h' = lastCompleted Scenario.runner ∨
     lastCompleted h'
     = Some (loggedDay (Sample.clockOn (Sample.day1 + 1)) None Scenario.running)) ∧
    (is_Some (lastCompleted Scenario.runner) →
     currentStreak h' ≤ currentStreak Scenario.runner + 1 ∧
     longestStreak Scenario.runner ≤ longestStreak h') ∧
    (completionHistory h' = completionHistory Scenario.runner ∨
     completionHistory h'
     = completionHistory Scenario.runner
       ++ [loggedDay (Sample.clockOn (Sample.day1 + 1)) None Scenario.running]) ∧
    id h' = id Scenario.runner ∧ date h' = date Scenario.runner ∧
    updatedAt h' = updatedAt Scenario.runner ∧
    synced h' = synced Scenario.runner ∧ fields h' = fields Scenario.runner.
Proof.
  assert (Hk : keyedStore Habits (db Scenario.running)).
  { unfold keyedStore. apply (bool_decide_unpack _). vm_compute. exact I. }
  assert (Hh : objectStore Habits (db Scenario.running) !! "h1" = Some Scenario.runner)
    by reflexivity.
  assert (Hinv : streakInv Scenario.runner) by (right; simpl; lia).
  split; [exact Hk|]. split; [exact Hh|]. split; [exact Hinv|].
  exact (logHabitCompletion_streak_bounds (Sample.clockOn (Sample.day1 + 1)) "h1" None
           Scenario.runner Scenario.running Hk Hh Hinv).
Defined.

(** ** Cloud backup and restore *)

Section Cloud.
Variable clock : nat → Z.
Variable api : nat → request → option json.

(** X4: [restoreFromCloud] never throws. It returns [false] after the one
    request when the request fails or the payload has no [data] or no
    [version], with the database unchanged; otherwise the covered stores
    are cleared and the entries imported, and it returns [true] if the
    import went through and [false], in the world where the import stopped,
    if not. *)
Theorem restoreFromCloud_outcomes w :
  match api (tick w) (mkRequest GET ApiBackupLatest NoBody) with
  | None => restoreFromCloud api w = (Ok false, step w)
  | Some j =>
      match data (jBackup j) with
      | None => restoreFromCloud api w = (Ok false, step w)
      | Some entries =>
          if truthy (version (jBackup j)) then
            match forEach entries importEntry (setDb (cleared (db w)) (step w)) with
            | (Ok _, w') => restoreFromCloud api w = (Ok true, w')
            | (Throw _, w') => restoreFromCloud api w = (Ok false, w')
            end
          else restoreFromCloud api w = (Ok false, step w)
      end
  end.
Proof.
  unfold restoreFromCloud, tryCatch, apiRequest, mbind, M_bind, bind.
  destruct (api _ _) as [j|]; [|done].
  destruct (data (jBackup j)) as [entries|] eqn:Hd.
  2: { by rewrite importData_rejects by by left. }
  destruct (truthy (version (jBackup j))) eqn:Hv.
  2: { by rewrite importData_rejects by by right. }
  rewrite (importData_accepts _ _ _ Hd Hv).
  unfold mbind, M_bind, bind.
  by destruct (forEach entries importEntry _) as [[[]|e] w'].
Qed.

(** X5: [backupToCloud] never throws and never changes the database: it
    reads the clock, posts the export of the current stores to
    [/api/backup], and returns whether the request was answered. *)
Theorem backupToCloud_outcome w :
  backupToCloud clock api w
  = (Ok (bool_decide
           (is_Some (api (S (tick w))
                       (mkRequest POST ApiBackup
                          (BackupBody (exported (clock (tick w)) w)))))),
     step (step w)).
Proof.
  unfold backupToCloud, tryCatch.
  rewrite (bind_Ok _ _ _ _ _ (exportData_exported clock w)).
  unfold mbind, M_bind, bind, apiRequest. simpl.
  by destruct (api _ _) as [j|].
Qed.

(** X6: the backup that [exportData] builds from a keyed database passes
    [validateBackup]; restoring it from a file, once confirmed, returns
    [true] and gives every covered store the exported content; declined, it
    returns [false] and changes nothing. *)
Theorem export_validate_restore w :
  keyedDatabase (db w) →
  ∃ backup,
    exportData clock w = (Ok backup, step w) ∧
    validateBackup backup = true ∧
    (∀ target,
       restoreData backup true target
       = (Ok true, setDb (restored (db w) (db target)) target)) ∧
    (∀ target, restoreData backup false target = (Ok false, target)).
Proof.
  intros Hk. exists (exported (clock (tick w)) w).
  split; [apply exportData_exported|]. split; [done|]. split.
  - intros target. unfold restoreData, tryCatch.
    change (validateBackup _) with true. cbn iota.
    by rewrite (bind_Ok _ _ _ _ _ (importData_exported _ w target Hk)).
  - done.
Qed.
End Cloud.

Lemma export_validate_restore_witness :
  keyedDatabase (db Sample.populated) ∧
  ∃ backup,
    exportData Sample.clock Sample.populated = (Ok backup, step Sample.populated) ∧
    validateBackup backup = true ∧
    (∀ target,
       restoreData backup true target
       = (Ok true, setDb (restored (db Sample.populated) (db target)) target)) ∧
    (∀ target, restoreData backup false target = (Ok false, target)).
Proof.
  assert (Hk : keyedDatabase (db Sample.populated)).
  { unfold keyedDatabase, keyedStore. apply (bool_decide_unpack _).
    vm_compute. exact I. }
  split; [exact Hk|].
  exact (export_validate_restore Sample.clock Sample.populated Hk).
Defined.

(** ** The queue as a list *)

Lemma elem_of_queueItems it d :
  it ∈ queueItems d ↔ ∃ k, syncQueue d !! k = Some it.
Proof.
  unfold queueItems. rewrite list_elem_of_fmap. split.
  - intros ([k it'] & -> & Hin). rewrite merge_sort_Permutation in Hin.
    exists k. by apply elem_of_map_to_list.
  - intros (k & Hk). exists (k, it). split; [done|].
    rewrite merge_sort_Permutation. by apply elem_of_map_to_list.
Qed.

Lemma keyed_elem_of_queueItems it d :
  keyedQueue d → it ∈ queueItems d ↔ syncQueue d !! qid it = Some it.
Proof.
  intros Hq. rewrite elem_of_queueItems. split; [|eauto].
  intros (k & Hk). by rewrite (Hq k it Hk).
Qed.

#[local] Instance queueLe_trans : Transitive queueLe.
Proof. intros a b c. unfold queueLe. lia. Qed.

#[local] Instance queueLe_total : Total queueLe.
Proof. intros a b. unfold queueLe. lia. Qed.

Lemma sorted_pairs_items (l : list (N * syncItem)) :
  Forall (λ p, qid p.2 = p.1) l →
  StronglySorted queueLe l →
  NoDup l.*1 →
  StronglySorted (λ a b, (qid a < qid b)%N) l.*2.
Proof.
  induction l as [|[k it] l IH]; intros Hkeyed Hsorted Hnd; [constructor|].
  apply Forall_cons in Hkeyed as [Hk Hkeyed].
  apply StronglySorted_cons in Hsorted as [Hle Hsorted].
  rewrite fmap_cons in Hnd. apply NoDup_cons in Hnd as [Hnotin Hnd].
  rewrite fmap_cons. apply StronglySorted_cons. split; [|by apply IH].
  apply Forall_fmap, Forall_forall. intros [k' it'] Hin. simpl in *.
  rewrite Forall_forall in Hle, Hkeyed.
  pose proof (Hle _ Hin) as Hle'. pose proof (Hkeyed _ Hin) as Hk'.
  unfold queueLe in Hle'. simpl in *. subst.
  assert (qid it ≠ qid it'); [|lia].
  intros Heq. apply Hnotin. rewrite Heq.
  apply list_elem_of_fmap. by exists (qid it', it').
Qed.

Lemma queueItems_sorted d :
  keyedQueue d → StronglySorted (λ a b, (qid a < qid b)%N) (queueItems d).
Proof.
  intros Hq. unfold queueItems.
  pose proof (merge_sort_Permutation queueLe (map_to_list (syncQueue d))) as Hperm.
  apply sorted_pairs_items.
  - apply Forall_forall. intros [k it] Hin. rewrite Hperm in Hin.
    apply elem_of_map_to_list in Hin. by apply (Hq k).
  - apply StronglySorted_merge_sort; apply _.
  - rewrite Hperm. apply NoDup_fst_map_to_list.
Qed.

Lemma StronglySorted_filter {A} (R : relation A) (P : A → Prop)
    `{∀ x, Decision (P x)} l :
  StronglySorted R l → StronglySorted R (filter P l).
Proof.
  induction 1 as [|x l Hl IH Hx]; [constructor|].
  rewrite filter_cons. destruct (decide (P x)); [|done].
  apply StronglySorted_cons. split; [|done].
  apply Forall_forall. intros y [_ Hy]%list_elem_of_filter.
  rewrite Forall_forall in Hx. by apply Hx.
Qed.

Lemma getAllPending_items w :
  getAllPending w = (Ok (filter (λ it, isPending it = true) (queueItems (db w))), w).
Proof. done. Qed.

Lemma isPending_true it : isPending it = true ↔ qstatus it = pending.
Proof. unfold isPending. by destruct (qstatus it). Qed.

Lemma getPendingSyncItems_items ty w :
  keyedQueue (db w) →
  ∃ l,
    getPendingSyncItems ty w = (Ok l, w) ∧
    (∀ it, it ∈ l ↔
           syncQueue (db w) !! qid it = Some it ∧ qstatus it = pending ∧
           (∀ t, ty = Some t → qtype it = t)) ∧
    StronglySorted (λ a b, (qid a < qid b)%N) l.
Proof.
  intros Hq. unfold getPendingSyncItems.
  rewrite (bind_Ok _ _ _ _ _ (getAllPending_items w)).
  pose proof (queueItems_sorted _ Hq) as Hsorted.
  destruct ty as [t|]; eexists; (split; [reflexivity|]); split.
  - intros it. rewrite !list_elem_of_filter, isPending_true,
      (keyed_elem_of_queueItems _ _ Hq).
    split; [intros (? & ? & ?); repeat split; [done..|congruence] |].
    intros (? & ? & Ht). split; [by apply Ht|done].
  - by do 2 apply StronglySorted_filter.
  - intros it. rewrite list_elem_of_filter, isPending_true,
      (keyed_elem_of_queueItems _ _ Hq).
    split; [intros (? & ?); by repeat split | by intros (? & ? & _)].
  - by apply StronglySorted_filter.
Qed.

(** X7: on a keyed queue [getPendingSyncItems] changes nothing and returns
    exactly the stored entries with status [pending] (of the given type, if
    one is given), each once, by strictly ascending [id]. The empty string,
    which the code takes for no type, is left aside. *)
Theorem getPendingSyncItems_spec ty w :
  ty ≠ Some "" →
  keyedQueue (db w) →
  ∃ l,
    getPendingSyncItems ty w = (Ok l, w) ∧
    (∀ it, it ∈ l ↔
           syncQueue (db w) !! qid it = Some it ∧ qstatus it = pending ∧
           (∀ t, ty = Some t → qtype it = t)) ∧
    StronglySorted (λ a b, (qid a < qid b)%N) l.
Proof. intros _. apply getPendingSyncItems_items. Qed.

Lemma getPendingSyncItems_spec_witness :
  Some "note" ≠ Some "" ∧
  keyedQueue (db Scenario.halfDone) ∧
  ∃ l,
    getPendingSyncItems (Some "note") Scenario.halfDone = (Ok l, Scenario.halfDone) ∧
    (∀ it, it ∈ l ↔
           syncQueue (db Scenario.halfDone) !! qid it = Some it ∧
           qstatus it = pending ∧
           (∀ t, Some "note" = Some t → qtype it = t)) ∧
    StronglySorted (λ a b, (qid a < qid b)%N) l.
Proof.
  assert (Hq : keyedQueue (db Scenario.halfDone)).
  { unfold keyedQueue. apply (bool_decide_unpack _). vm_compute. exact I. }
  assert (Hty : Some "note" ≠ Some "") by discriminate.
  split; [exact Hty|]. split; [exact Hq|].
  exact (getPendingSyncItems_spec (Some "note") Scenario.halfDone Hty Hq).
Defined.

(** ** Enqueueing *)

Section Enqueue.
Variable clock : nat → Z.

(** X8: when every id of the queue is below the key generator,
    [addToSyncQueue] succeeds: it returns the value of the key generator,
    which was free, stores under it a [pending] entry with [attempts = 0]
    created at the time read, advances the generator by one, keeps every
    id below the generator, and changes no other entry, no store of records
    and nothing of the engine. *)
Theorem addToSyncQueue_fresh_id ty r w :
  queueFresh (db w) →
  ∃ w',
    addToSyncQueue clock ty r w = (Ok (keyGenerator (db w)), w') ∧
    syncQueue (db w) !! keyGenerator (db w) = None ∧
    syncQueue (db w')
    = <[keyGenerator (db w) :=
          mkSyncItem (keyGenerator (db w)) ty r pending 0 (clock (tick w)) None]>
        (syncQueue (db w)) ∧
    keyGenerator (db w') = (keyGenerator (db w) + 1)%N ∧
    queueFresh (db w') ∧
    (∀ n, objectStore n (db w') = objectStore n (db w)) ∧
    lastSync w' = lastSync w ∧ isSyncing w' = isSyncing w ∧ emitted w' = emitted w.
Proof.
  intros Hfresh.
  assert (Hnone : syncQueue (db w) !! keyGenerator (db w) = None).
  { destruct (syncQueue (db w) !! keyGenerator (db w)) as [it|] eqn:Hk; [|done].
    pose proof (Hfresh _ _ Hk) as Hlt. simpl in Hlt. lia. }
  unfold addToSyncQueue, addToQueue, now.
  unfold mbind, M_bind, bind, getWorld, modifyDb, modifyWorld, ret. simpl.
  rewrite Hnone. eexists. split; [reflexivity|]. simpl.
  split; [done|]. split; [done|]. split; [done|]. split; [|split; [by intros []|done]].
  apply map_Forall_insert_2; simpl; [lia|].
  intros k it Hk. pose proof (Hfresh _ _ Hk) as Hlt. simpl in *. lia.
Qed.
End Enqueue.

Lemma addToSyncQueue_fresh_id_witness :
  queueFresh (db Scenario.backlog) ∧
  ∃ w',
    addToSyncQueue Sample.clock "habit" Sample.habit Scenario.backlog
    = (Ok (keyGenerator (db Scenario.backlog)), w') ∧
    syncQueue (db Scenario.backlog) !! keyGenerator (db Scenario.backlog) = None ∧
    syncQueue (db w')
    = <[keyGenerator (db Scenario.backlog) :=
          mkSyncItem (keyGenerator (db Scenario.backlog)) "habit" Sample.habit pending 0
            (Sample.clock (tick Scenario.backlog)) None]>
        (syncQueue (db Scenario.backlog)) ∧
    keyGenerator (db w') = (keyGenerator (db Scenario.backlog) + 1)%N ∧
    queueFresh (db w') ∧
    (∀ n, objectStore n (db w') = objectStore n (db Scenario.backlog)) ∧
    lastSync w' = lastSync Scenario.backlog ∧
    isSyncing w' = isSyncing Scenario.backlog ∧
    emitted w' = emitted Scenario.backlog.
Proof.
  assert (Hf : queueFresh (db Scenario.backlog)).
  { unfold queueFresh. apply (bool_decide_unpack _). vm_compute. exact I. }
  split; [exact Hf|].
  exact (addToSyncQueue_fresh_id Sample.clock "habit" Sample.habit Scenario.backlog Hf).
Defined.

(** ** Completing, clearing and purging *)

Section Completing.
Variable clock : nat → Z.

Lemma markSyncItemComplete_unfold k w :
  markSyncItemComplete clock k w =
    match syncQueue (db w) !! k with
    | None => (Ok (), w)
    | Some it =>
        (Ok (),
         setDb (setSyncQueue
                  (<[qid it := completedAtTime it (clock (tick w))]> (syncQueue (db w)))
                  (db w))
           (step w))
    end.
Proof.
  unfold markSyncItemComplete, getQueued, updateQueued, now.
  unfold mbind, M_bind, bind, getWorld, modifyDb, modifyWorld, ret. simpl.
  by destruct (syncQueue (db w) !! k).
Qed.

Lemma sorted_by_id_unique (l1 l2 : list syncItem) :
  StronglySorted (λ a b, (qid a < qid b)%N) l1 →
  StronglySorted (λ a b, (qid a < qid b)%N) l2 →
  (∀ it, it ∈ l1 ↔ it ∈ l2) →
  l1 = l2.
Proof.
  intros H1 H2 Hiff.
  assert (Hnd : ∀ l, StronglySorted (λ a b, (qid a < qid b)%N) l → NoDup l).
  { induction 1 as [|x l _ IH Hx]; constructor; [|done].
    intros Hin. rewrite Forall_forall in Hx. specialize (Hx _ Hin). lia. }
  eapply StronglySorted_unique_strong; [|done|done|].
  - intros x1 x2 _ _ ? ?. simpl in *. lia.
  - apply NoDup_Permutation; auto.
Qed.

(** X9: after [markSyncItemComplete] of [k], the pending entries (of a
    type, if one is given and not the empty string) are the ones from before
    without the entry of id [k], in the same order. *)
Theorem markSyncItemComplete_leaves_pending k ty w :
  ty ≠ Some "" →
  keyedQueue (db w) →
  ∃ w' l l',
    markSyncItemComplete clock k w = (Ok (), w') ∧
    getPendingSyncItems ty w = (Ok l, w) ∧
    getPendingSyncItems ty w' = (Ok l', w') ∧
    l' = filter (λ it, qid it ≠ k) l.
Proof.
  intros _ Hq.
  destruct (getPendingSyncItems_items ty w Hq) as (l & Hl & Hin & Hsorted).
  rewrite markSyncItemComplete_unfold.
  destruct (syncQueue (db w) !! k) as [it0|] eqn:Hk.
  - pose proof (Hq _ _ Hk) as Hid. simpl in Hid.
    set (w' := setDb _ (step w)).
    assert (Hq' : keyedQueue (db w')).
    { apply map_Forall_insert_2; [done|exact Hq]. }
    destruct (getPendingSyncItems_items ty w' Hq') as (l' & Hl' & Hin' & Hsorted').
    exists w', l, l'. repeat split; [done..|].
    apply sorted_by_id_unique; [done|by apply StronglySorted_filter|].
    intros it. rewrite list_elem_of_filter, Hin, Hin'. simpl. rewrite Hid.
    destruct (decide (qid it = k)) as [Heq|Hne].
    + rewrite Heq, lookup_insert_eq. split; [|by intros [? _]].
      intros ([= <-] & Hp & _). done.
    + rewrite lookup_insert_ne by done.
      split; [by intros (? & ? & ?) | by intros (_ & ? & ? & ?)].
  - exists w, l, l. repeat split; [done..|].
    symmetry. apply sorted_by_id_unique; [by apply StronglySorted_filter|done|].
    intros it. rewrite list_elem_of_filter, Hin. split; [by intros [_ ?]|].
    intros (Hit & ? & ?). split; [|done]. intros Heq. rewrite Heq in Hit. congruence.
Qed.
End Completing.

Lemma markSyncItemComplete_leaves_pending_witness :
  Some "task" ≠ Some "" ∧
  keyedQueue (db Scenario.backlog) ∧
  ∃ w' l l',
    markSyncItemComplete Sample.clock 1 Scenario.backlog = (Ok (), w') ∧
    getPendingSyncItems (Some "task") Scenario.backlog = (Ok l, Scenario.backlog) ∧
    getPendingSyncItems (Some "task") w' = (Ok l', w') ∧
    l' = filter (λ it, qid it ≠ 1%N) l.
Proof.
  assert (Hq : keyedQueue (db Scenario.backlog)).
  { unfold keyedQueue. apply (bool_decide_unpack _). vm_compute. exact I. }
  assert (Hty : Some "task" ≠ Some "") by discriminate.
  split; [exact Hty|]. split; [exact Hq|].
  exact (markSyncItemComplete_leaves_pending Sample.clock 1 (Some "task")
           Scenario.backlog Hty Hq).
Defined.

Lemma setSyncQueue_id d : setSyncQueue (syncQueue d) d = d.
Proof. by destruct d. Qed.

Lemma forEach_deleteQueued l w :
  forEach l (λ item, deleteQueued (qid item)) w
  = (Ok (), setDb (setSyncQueue (deleteAll l (syncQueue (db w))) (db w)) w).
Proof.
  revert w. induction l as [|it l IH]; intros w.
  - simpl. by rewrite setSyncQueue_id, setDb_id.
  - rewrite forEach_cons. unfold deleteQueued at 1, modifyDb, modifyWorld.
    rewrite IH. by destruct w as [[]].
Qed.

Lemma lookup_deleteAll l q k :
  deleteAll l q !! k = if decide (k ∈ qid <$> l) then None else q !! k.
Proof.
  revert q. induction l as [|it l IH]; intros q.
  - destruct (decide (k ∈ qid <$> [])) as [Hin|]; [|done].
    rewrite fmap_nil in Hin. by apply elem_of_nil in Hin.
  - change (deleteAll (it :: l) q) with (deleteAll l (base.delete (qid it) q)).
    rewrite IH, fmap_cons.
    destruct (decide (k ∈ qid <$> l)) as [Hin|Hnin].
    + by rewrite decide_True by (by right).
    + destruct (decide (k = qid it)) as [->|Hne].
      * rewrite decide_True by (by left). apply lookup_delete_eq.
      * rewrite lookup_delete_ne by done.
        rewrite decide_False; [done|]. by intros [?|?]%elem_of_cons.
Qed.

Section Purging.
Variable clock : nat → Z.
Variable localTZA : Z → bool → Z.

(** X10: [clearSyncQueue] deletes exactly the entries with status
    [pending]: completed and failed entries stay, no pending entry is left,
    and the stores of records, the key generator, the engine and the step
    counter are unchanged. *)
Theorem clearSyncQueue_removes_pending w :
  keyedQueue (db w) →
  ∃ w',
    clearSyncQueue w = (Ok (), w') ∧
    (∀ k, syncQueue (db w') !! k
          = match syncQueue (db w) !! k with
            | Some it => if isPending it then None else Some it
            | None => None
            end) ∧
    getPendingSyncItems None w' = (Ok [], w') ∧
    (∀ n, objectStore n (db w') = objectStore n (db w)) ∧
    keyGenerator (db w') = keyGenerator (db w) ∧
    lastSync w' = lastSync w ∧ isSyncing w' = isSyncing w ∧
    emitted w' = emitted w ∧ tick w' = tick w.
Proof.
  intros Hq. unfold clearSyncQueue.
  destruct (getPendingSyncItems_items None w Hq) as (l & Hl & Hin & _).
  rewrite (bind_Ok _ _ _ _ _ Hl), forEach_deleteQueued.
  set (w' := setDb _ w).
  assert (Hlook : ∀ k, syncQueue (db w') !! k
                 = match syncQueue (db w) !! k with
                   | Some it => if isPending it then None else Some it
                   | None => None
                   end).
  { intros k. simpl. rewrite lookup_deleteAll.
    destruct (syncQueue (db w) !! k) as [it|] eqn:Hk.
    - pose proof (Hq _ _ Hk) as Hid. simpl in Hid.
      destruct (isPending it) eqn:Hp.
      + rewrite decide_True; [done|]. apply list_elem_of_fmap. exists it.
        split; [done|]. apply Hin. rewrite Hid.
        by rewrite <- isPending_true.
      + rewrite decide_False; [done|]. intros (it' & Heq & Hit')%list_elem_of_fmap.
        apply Hin in Hit' as (Hit' & Hp' & _). rewrite <- Heq, Hk in Hit'.
        injection Hit' as <-. apply isPending_true in Hp'. congruence.
    - destruct (decide _) as [Hd|]; [|done].
      apply list_elem_of_fmap in Hd as (it' & Heq & Hit').
      apply Hin in Hit' as (Hit' & _). rewrite <- Heq in Hit'. congruence. }
  exists w'. split; [done|]. split; [exact Hlook|]. split.
  2: { split; [by intros []|done]. }
  unfold getPendingSyncItems. rewrite (bind_Ok _ _ _ _ _ (getAllPending_items w')).
  unfold ret. f_equal. f_equal.
  destruct (filter _ _) as [|it rest] eqn:Hf; [done|]. exfalso.
  assert (Hit : it ∈ filter (λ it, isPending it = true) (queueItems (db w')))
    by (rewrite Hf; by left).
  apply list_elem_of_filter in Hit as [Hp (k & Hk)%elem_of_queueItems].
  rewrite Hlook in Hk. destruct (syncQueue (db w) !! k) as [it'|]; [|done].
  destruct (isPending it') eqn:Hp'; [done|]. congruence.
Qed.

(** X11: [optimize] reads the clock once and deletes exactly the entries
    of the queue that are [completed] and were created before the cutoff:
    the time read, taken as a local time, moved back by thirty days and
    taken back to UTC. Every other entry, the stores of records, the key
    generator and the engine are unchanged. *)
Theorem optimize_purges_old_completed w :
  keyedQueue (db w) →
  ∃ w',
    optimize clock localTZA w = (Ok (), w') ∧
    (∀ k, syncQueue (db w') !! k
          = match syncQueue (db w) !! k with
            | Some it =>
                if bool_decide
                     (createdAt it
                      < UTC localTZA
                          (LocalTime localTZA (clock (tick w)) - 30 * msPerDay)
                      ∧ qstatus it = completed)
                then None else Some it
            | None => None
            end) ∧
    (∀ n, objectStore n (db w') = objectStore n (db w)) ∧
    keyGenerator (db w') = keyGenerator (db w) ∧
    lastSync w' = lastSync w ∧ isSyncing w' = isSyncing w ∧
    emitted w' = emitted w ∧ tick w' = S (tick w).
Proof.
  intros Hq. unfold optimize, now, getAllQueued.
  unfold mbind, M_bind, bind, getWorld, ret. cbn [db step tick].
  rewrite forEach_deleteQueued. eexists. split; [reflexivity|].
  split; [|split; [by intros []|done]].
  intros k. simpl. rewrite lookup_deleteAll.
  fold (queueItems (db w)).
  destruct (syncQueue (db w) !! k) as [it|] eqn:Hk.
  - pose proof (Hq _ _ Hk) as Hid. simpl in Hid.
    destruct (bool_decide _) eqn:Hold.
    + apply bool_decide_eq_true in Hold as [Hc Hs].
      rewrite decide_True; [done|]. apply list_elem_of_fmap. exists it.
      split; [done|]. apply list_elem_of_filter. split.
      * done.
      * apply elem_of_queueItems. eauto.
    + apply bool_decide_eq_false in Hold.
      rewrite decide_False; [done|]. intros (it' & Heq & Hit')%list_elem_of_fmap.
      apply list_elem_of_filter in Hit' as [[Hc Hs] Hit'].
      apply (keyed_elem_of_queueItems _ _ Hq) in Hit'.
      rewrite <- Heq, Hk in Hit'. injection Hit' as <-. by apply Hold.
  - destruct (decide _) as [Hd|]; [|done].
    apply list_elem_of_fmap in Hd as (it' & Heq & Hit').
    apply list_elem_of_filter in Hit' as [_ Hit'].
    apply (keyed_elem_of_queueItems _ _ Hq) in Hit'. rewrite <- Heq in Hit'. congruence.
Qed.
End Purging.

Lemma clearSyncQueue_removes_pending_witness :
  keyedQueue (db Scenario.halfDone) ∧
  ∃ w',
    clearSyncQueue Scenario.halfDone = (Ok (), w') ∧
    (∀ k, syncQueue (db w') !! k
          = match syncQueue (db Scenario.halfDone) !! k with
            | Some it => if isPending it then None else Some it
            | None => None
            end) ∧
    getPendingSyncItems None w' = (Ok [], w') ∧
    (∀ n, objectStore n (db w') = objectStore n (db Scenario.halfDone)) ∧
    keyGenerator (db w') = keyGenerator (db Scenario.halfDone) ∧
    lastSync w' = lastSync Scenario.halfDone ∧
    isSyncing w' = isSyncing Scenario.halfDone ∧
    emitted w' = emitted Scenario.halfDone ∧ tick w' = tick Scenario.halfDone.
Proof.
  assert (Hq : keyedQueue (db Scenario.halfDone)).
  { unfold keyedQueue. apply (bool_decide_unpack _). vm_compute. exact I. }
  split; [exact Hq|].
  exact (clearSyncQueue_removes_pending Scenario.halfDone Hq).
Defined.

Lemma setDateBack_fixed_offset localTZA c n t :
  (∀ t b, localTZA t b = c) → setDateBack localTZA n t = t - n * msPerDay.
Proof. intros Hc. unfold setDateBack, UTC, LocalTime. rewrite !Hc. lia. Qed.

Lemma optimize_purges_old_completed_witness :
  keyedQueue (db Scenario.halfDone) ∧
  ∃ w',
    optimize (Sample.clockOn (Sample.day1 + 60)) Scenario.plusTwo Scenario.halfDone
    = (Ok (), w') ∧
    (∀ k, syncQueue (db w') !! k
          = match syncQueue (db Scenario.halfDone) !! k with
            | Some it =>
                if bool_decide
                     (createdAt it
                      < UTC Scenario.plusTwo
                          (LocalTime Scenario.plusTwo
                             (Sample.clockOn (Sample.day1 + 60) (tick Scenario.halfDone))
                           - 30 * msPerDay)
                      ∧ qstatus it = completed)
                then None else Some it
            | None => None
            end) ∧
    (∀ n, objectStore n (db w') = objectStore n (db Scenario.halfDone)) ∧
    keyGenerator (db w') = keyGenerator (db Scenario.halfDone) ∧
    lastSync w' = lastSync Scenario.halfDone ∧
    isSyncing w' = isSyncing Scenario.halfDone ∧
    emitted w' = emitted Scenario.halfDone ∧ tick w' = S (tick Scenario.halfDone).
Proof.
  assert (Hq : keyedQueue (db Scenario.halfDone)).
  { unfold keyedQueue. apply (bool_decide_unpack _). vm_compute. exact I. }
  split; [exact Hq|].
  exact (optimize_purges_old_completed (Sample.clockOn (Sample.day1 + 60))
           Scenario.plusTwo Scenario.halfDone Hq).
Defined.

(** ** Draining the queue *)

Lemma preserves_forEach_elem {A} (P : world → Prop) (l : list A) (k : A → M unit) :
  (∀ a, a ∈ l → preserves P (k a)) → preserves P (forEach l k).
Proof.
  induction l as [|a l IH]; intros Hk; simpl.
  - apply preserves_ret.
  - apply preserves_bind.
    + apply Hk. by left.
    + intros _. apply IH. intros b Hb. apply Hk. by right.
Qed.

Lemma forEach_Ok {A} (l : list A) (f : A → M unit) w :
  (∀ a w, (f a w).1 = Ok ()) → (forEach l f w).1 = Ok ().
Proof.
  intros Hf. revert w. induction l as [|a l IH]; intros w; [done|].
  rewrite forEach_cons. specialize (Hf a w).
  destruct (f a w) as [[[]|e] w1]; [apply IH | done].
Qed.

Lemma evolves_refl it : evolves it it.
Proof. by repeat split. Qed.

Section Drain.
Variable clock : nat → Z.
Variable api : nat → request → option json.

Lemma syncHandlers_Some ty h :
  syncHandlers api ty = Some h →
  ty ∈ handledTypes ∧ ∃ m e, h = λ r, apiRequest api m e (RecordBody r).
Proof.
  unfold syncHandlers, handledTypes, syncTask, syncExpense, syncHabit,
    syncJournal, syncSettings.
  repeat case_decide; intros [= <-]; subst; (split; [|by eexists _, _]).
  all: repeat first [by left | right].
Qed.

Lemma syncHandlers_None ty :
  syncHandlers api ty = None ↔ ty ∉ handledTypes.
Proof.
  split.
  - unfold syncHandlers. repeat case_decide; try done. intros _.
    unfold handledTypes. rewrite !elem_of_cons, elem_of_nil. intuition.
  - intros Hty. destruct (syncHandlers api ty) as [h|] eqn:Hh; [|done].
    by apply syncHandlers_Some in Hh as [? _].
Qed.

Lemma syncPendingItem_Ok item w : (syncPendingItem clock api item w).1 = Ok ().
Proof.
  unfold syncPendingItem, tryCatch.
  destruct (match syncHandlers api (qtype item) with _ => _ end w)
    as [[[]|e] w1]; [done|].
  by destruct (bool_decide _).
Qed.

Lemma syncPendingItems_Ok w : (syncPendingItems clock api w).1 = Ok ().
Proof.
  unfold syncPendingItems.
  destruct (getPendingSyncItems None w) as [[l|e] w1] eqn:Hl; [|done].
  rewrite (bind_Ok _ _ _ _ _ Hl). apply forEach_Ok, syncPendingItem_Ok.
Qed.

Lemma drained_refl w : keyedQueue (db w) → drained w w.
Proof.
  intros Hq. repeat split; try done. intros k. unfold evolvesAt.
  destruct (syncQueue (db w) !! k); [apply evolves_refl | done].
Qed.

Lemma drained_step w0 w : drained w0 w → drained w0 (step w).
Proof. done. Qed.

(** Writing, under the key of a pending entry of [w0] with a handled type, an
    entry that differs from the current one in status, attempts and
    completion time only. *)
Lemma drained_put w0 w item it' :
  drained w0 w →
  syncQueue (db w0) !! qid item = Some item →
  qstatus item = pending → qtype item ∈ handledTypes →
  qid it' = qid item → qtype it' = qtype item → qdata it' = qdata item →
  createdAt it' = createdAt item →
  drained w0 (setDb (setSyncQueue (<[qid it' := it']> (syncQueue (db w))) (db w)) w).
Proof.
  intros (Hq & Hev & Hst & Hg & Hrest) H0 Hp Hty Hid Htype Hdata Hcreated.
  split; [by apply map_Forall_insert_2|]. split.
  - intros k. simpl. rewrite Hid. destruct (decide (k = qid item)) as [->|Hne].
    + rewrite lookup_insert_eq, H0. simpl. repeat split; try done.
      intros [?|?]; done.
    + rewrite lookup_insert_ne by done. apply Hev.
  - split; [intros n; rewrite <- Hst; by destruct n|]. done.
Qed.

Lemma syncPendingItem_drained w0 item :
  syncQueue (db w0) !! qid item = Some item →
  qstatus item = pending →
  preserves (drained w0) (syncPendingItem clock api item).
Proof.
  intros H0 Hp. unfold syncPendingItem.
  destruct (syncHandlers api (qtype item)) as [h|] eqn:Hh.
  2: { intros w Hw. done. }
  apply syncHandlers_Some in Hh as (Hty & m & e & ->).
  apply preserves_tryCatch.
  - apply preserves_bind.
    + intros w Hw. unfold apiRequest. destruct (api _ _); by apply drained_step.
    + intros _ w Hw. rewrite markSyncItemComplete_unfold.
      destruct (syncQueue (db w) !! qid item) as [it'|] eqn:Hit'; [|done].
      simpl. pose proof Hw as (_ & Hev & _). specialize (Hev (qid item)).
      rewrite H0, Hit' in Hev. destruct Hev as (Hid & Htype & Hdata & Hc & _).
      apply (drained_put w0 (step w) item (completedAtTime it' (clock (tick w))));
        try done.
  - intros _ w Hw. destruct (bool_decide _); [|done].
    unfold updateQueued, mbind, M_bind, bind, modifyDb, modifyWorld. simpl.
    apply (drained_put w0 w item (setStatus (setAttempts item _) failed)); done.
Qed.

Lemma syncPendingItems_drained w :
  keyedQueue (db w) → drained w (syncPendingItems clock api w).2.
Proof.
  intros Hq. unfold syncPendingItems.
  destruct (getPendingSyncItems_items None w Hq) as (l & Hl & Hin & _).
  rewrite (bind_Ok _ _ _ _ _ Hl).
  apply preserves_forEach_elem; [|by apply drained_refl].
  intros item (H0 & Hp & _)%Hin. by apply syncPendingItem_drained.
Qed.

(** X12: the drain of the queue always returns normally, whatever the
    remote service answers. It neither adds nor deletes an entry; an entry
    keeps its [id], [type], [data] and [createdAt], and an entry that is not
    pending, or whose type has no handler, is not changed at all; the stores
    of records, the key generator and the engine are unchanged. *)
Theorem syncPendingItems_frame w :
  keyedQueue (db w) →
  ∃ w',
    syncPendingItems clock api w = (Ok (), w') ∧
    keyedQueue (db w') ∧
    (∀ k, evolvesAt (syncQueue (db w) !! k) (syncQueue (db w') !! k)) ∧
    (∀ n, objectStore n (db w') = objectStore n (db w)) ∧
    keyGenerator (db w') = keyGenerator (db w) ∧
    lastSync w' = lastSync w ∧ isSyncing w' = isSyncing w ∧ emitted w' = emitted w.
Proof.
  intros Hq.
  pose proof (syncPendingItems_Ok w) as Hok.
  pose proof (syncPendingItems_drained w Hq) as Hd.
  destruct (syncPendingItems clock api w) as [[[]|e] w']; [|done].
  exists w'. split; [done|]. exact Hd.
Qed.
End Drain.

Lemma syncPendingItems_frame_witness :
  keyedQueue (db Scenario.backlog) ∧
  ∃ w',
    syncPendingItems Sample.clock Sample.apiDown Scenario.backlog = (Ok (), w') ∧
    keyedQueue (db w') ∧
    (∀ k, evolvesAt (syncQueue (db Scenario.backlog) !! k) (syncQueue (db w') !! k)) ∧
    (∀ n, objectStore n (db w') = objectStore n (db Scenario.backlog)) ∧
    keyGenerator (db w') = keyGenerator (db Scenario.backlog) ∧
    lastSync w' = lastSync Scenario.backlog ∧
    isSyncing w' = isSyncing Scenario.backlog ∧
    emitted w' = emitted Scenario.backlog.
Proof.
  assert (Hq : keyedQueue (db Scenario.backlog)).
  { unfold keyedQueue. apply (bool_decide_unpack _). vm_compute. exact I. }
  split; [exact Hq|].
  exact (syncPendingItems_frame Sample.clock Sample.apiDown Scenario.backlog Hq).
Defined.

Section DrainUp.
Variable clock : nat → Z.
Variable api : nat → request → option json.
Hypothesis api_up : ∀ t r, is_Some (api t r).

Lemma syncPendingItem_up item w :
  syncQueue (db w) !! qid item = Some item →
  syncPendingItem clock api item w
  = if decide (qtype item ∈ handledTypes)
    then (Ok (),
          setDb (setSyncQueue
                   (<[qid item := completedAtTime item (clock (S (tick w)))]>
                      (syncQueue (db w)))
                   (db w))
            (step (step w)))
    else (Ok (), w).
Proof.
  intros Hitem. unfold syncPendingItem, tryCatch.
  destruct (syncHandlers api (qtype item)) as [h|] eqn:Hh.
  - apply syncHandlers_Some in Hh as (Hty & m & e & ->).
    rewrite decide_True by done.
    unfold mbind, M_bind, bind, apiRequest.
    destruct (api_up (tick w) (mkRequest m e (RecordBody (qdata item)))) as [j ->].
    rewrite markSyncItemComplete_unfold. simpl. by rewrite Hitem.
  - apply syncHandlers_None in Hh. by rewrite decide_False.
Qed.

Lemma drain_up l :
  ∀ w,
    keyedQueue (db w) →
    NoDup (qid <$> l) →
    (∀ it, it ∈ l → syncQueue (db w) !! qid it = Some it) →
    let w' := (forEach l (syncPendingItem clock api) w).2 in
    (∀ it, it ∈ l → qtype it ∈ handledTypes →
       ∃ t, syncQueue (db w') !! qid it = Some (completedAtTime it t)) ∧
    (∀ k, k ∉ qid <$> l → syncQueue (db w') !! k = syncQueue (db w) !! k).
Proof.
  induction l as [|item l IH]; intros w Hq Hnd Hl.
  - simpl. split; [intros it Hit; inversion Hit | done].
  - rewrite fmap_cons in Hnd. apply NoDup_cons in Hnd as [Hnotin Hnd].
    cbn zeta. rewrite forEach_cons, syncPendingItem_up by (apply Hl; by left).
    assert (Hne : ∀ it, it ∈ l → qid it ≠ qid item).
    { intros it Hit Heq. apply Hnotin. rewrite <- Heq.
      apply list_elem_of_fmap. by exists it. }
    destruct (decide (qtype item ∈ handledTypes)) as [Hty|Hty].
    + set (w1 := setDb _ (step (step w))).
      destruct (IH w1) as [Hdone Hother]; [| done | |].
      { by apply map_Forall_insert_2. }
      { intros it Hit. simpl. rewrite lookup_insert_ne by (symmetry; by apply Hne).
        apply Hl. by right. }
      split.
      * intros it [->|Hit]%elem_of_cons Hh; [|by apply Hdone].
        exists (clock (S (tick w))). rewrite Hother by done.
        simpl. apply lookup_insert_eq.
      * intros k Hk. rewrite fmap_cons, not_elem_of_cons in Hk. destruct Hk as [Hk1 Hk2].
        rewrite Hother by done. simpl. by rewrite lookup_insert_ne.
    + destruct (IH w) as [Hdone Hother]; [done..| |].
      { intros it Hit. apply Hl. by right. }
      split.
      * intros it [->|Hit]%elem_of_cons Hh; [done | by apply Hdone].
      * intros k Hk. rewrite fmap_cons, not_elem_of_cons in Hk. apply Hother, Hk.
Qed.

(** X13: when the remote service answers every request, the drain leaves
    every pending entry whose type has a handler [completed], stamped with a
    time read during the drain, its other fields kept. *)
Theorem syncPendingItems_completes_when_up k it w :
  keyedQueue (db w) →
  syncQueue (db w) !! k = Some it →
  qstatus it = pending →
  qtype it ∈ handledTypes →
  ∃ t, syncQueue (db (syncPendingItems clock api w).2) !! k
       = Some (completedAtTime it t).
Proof.
  intros Hq Hk Hp Hty. pose proof (Hq _ _ Hk) as Hid. simpl in Hid. subst k.
  unfold syncPendingItems.
  destruct (getPendingSyncItems_items None w Hq) as (l & Hl & Hin & Hsorted).
  rewrite (bind_Ok _ _ _ _ _ Hl).
  destruct (drain_up l w) as [Hdone _]; [done| |by intros ? (? & _)%Hin|].
  - clear -Hsorted. induction Hsorted as [|x l _ IH Hx]; [constructor|].
    rewrite fmap_cons. apply NoDup_cons. split; [|done].
    intros (y & Heq & Hy)%list_elem_of_fmap. rewrite Forall_forall in Hx.
    specialize (Hx _ Hy). simpl in Hx. lia.
  - apply Hdone; [|done]. by apply Hin.
Qed.
End DrainUp.

Lemma syncPendingItems_completes_when_up_witness :
  (∀ t r, is_Some (Sample.apiUp t r)) ∧
  keyedQueue (db Scenario.backlog) ∧
  syncQueue (db Scenario.backlog) !! 1%N
  = Some (mkSyncItem 1 "task" Sample.taskA pending 0 (Sample.clock 0) None) ∧
  qstatus (mkSyncItem 1 "task" Sample.taskA pending 0 (Sample.clock 0) None) = pending ∧
  qtype (mkSyncItem 1 "task" Sample.taskA pending 0 (Sample.clock 0) None)
    ∈ handledTypes ∧
  ∃ t, syncQueue (db (syncPendingItems Sample.clock Sample.apiUp Scenario.backlog).2)
         !! 1%N
       = Some (completedAtTime
                 (mkSyncItem 1 "task" Sample.taskA pending 0 (Sample.clock 0) None) t).
Proof.
  assert (Hup : ∀ t r, is_Some (Sample.apiUp t r)) by (intros t r; eexists; reflexivity).
  assert (Hq : keyedQueue (db Scenario.backlog)).
  { unfold keyedQueue. apply (bool_decide_unpack _). vm_compute. exact I. }
  assert (Hk : syncQueue (db Scenario.backlog) !! 1%N
               = Some (mkSyncItem 1 "task" Sample.taskA pending 0 (Sample.clock 0) None))
    by reflexivity.
  assert (Hp : qstatus (mkSyncItem 1 "task" Sample.taskA pending 0 (Sample.clock 0) None)
               = pending) by reflexivity.
  assert (Hty : qtype (mkSyncItem 1 "task" Sample.taskA pending 0 (Sample.clock 0) None)
                ∈ handledTypes) by (by left).
  split; [exact Hup|]. split; [exact Hq|]. split; [exact Hk|].
  split; [exact Hp|]. split; [exact Hty|].
  exact (syncPendingItems_completes_when_up Sample.clock Sample.apiUp Hup 1 _
           Scenario.backlog Hq Hk Hp Hty).
Defined.

(** ** Pushing local changes *)

Lemma db_steps k w : db (steps k w) = db w.
Proof. induction k as [|k IH]; [done|]. simpl. exact IH. Qed.

Lemma steps_setDb k d w : steps k (setDb d w) = setDb d (steps k w).
Proof.
  induction k as [|k IH]; [done|]. unfold steps in *. simpl. by rewrite IH.
Qed.

Lemma steps_step k w : steps k (step w) = steps (S k) w.
Proof.
  induction k as [|k IH]; [done|]. unfold steps in *. simpl. by rewrite IH.
Qed.

Lemma steps_frame k w :
  lastSync (steps k w) = lastSync w ∧ isSyncing (steps k w) = isSyncing w ∧
  emitted (steps k w) = emitted w ∧ tick (steps k w) = (k + tick w)%nat.
Proof.
  induction k as [|k (? & ? & ? & ?)]; [done|]. unfold steps in *. simpl.
  repeat split; try done. lia.
Qed.

Lemma filter_snd {A B} (P : B → Prop) `{∀ x, Decision (P x)} (l : list (A * B)) :
  filter P l.*2 = (filter (λ kr, P kr.2) l).*2.
Proof.
  induction l as [|[a b] l IH]; [done|].
  rewrite fmap_cons, !filter_cons. simpl. destruct (decide (P b)); [|done].
  by rewrite fmap_cons, IH.
Qed.

Lemma getAll_storeItems n w : getAll n w = (Ok (storeItems n (db w)).*2, w).
Proof. done. Qed.

Lemma setSynced_synced r : synced r = true → setSynced r true = r.
Proof. destruct r. simpl. by intros ->. Qed.

Lemma keyPath_setSynced n r b : keyPath n (setSynced r b) = keyPath n r.
Proof. by destruct n. Qed.

(** The store after flagging the records of [l]. *)
Lemma lookup_foldl_synced (l : list (string * record)) :
  ∀ (m : gmap string record) k,
    NoDup l.*1 →
    foldl (λ m kr, <[kr.1 := setSynced kr.2 true]> m) m l !! k
    = match (list_to_map l : gmap string record) !! k with
      | Some r => Some (setSynced r true)
      | None => m !! k
      end.
Proof.
  induction l as [|[k0 r0] l IH]; intros m k Hnd; [done|].
  rewrite fmap_cons in Hnd. apply NoDup_cons in Hnd as [Hk0 Hnd].
  cbn [foldl]. rewrite IH, list_to_map_cons by done. cbn [fst snd].
  destruct (decide (k = k0)) as [->|Hne].
  - by rewrite (not_elem_of_list_to_map_1 _ _ Hk0), !lookup_insert_eq.
  - by rewrite !lookup_insert_ne by done.
Qed.

Lemma unsyncedItems_NoDup n d : NoDup (unsyncedItems n d).*1.
Proof.
  apply (sublist_NoDup _ (storeItems n d).*1).
  - rewrite storeItems_Permutation. apply NoDup_fst_map_to_list.
  - apply fmap_sublist, sublist_filter.
Qed.

Lemma elem_of_unsyncedItems n d k r :
  (k, r) ∈ unsyncedItems n d ↔ objectStore n d !! k = Some r ∧ synced r = false.
Proof.
  unfold unsyncedItems. rewrite list_elem_of_filter, storeItems_Permutation,
    elem_of_map_to_list. simpl. tauto.
Qed.

Lemma unsyncedItems_flagged n d :
  foldl (λ m kr, <[kr.1 := setSynced kr.2 true]> m) (objectStore n d)
    (unsyncedItems n d)
  = (λ r, setSynced r true) <$> objectStore n d.
Proof.
  apply map_eq. intros k.
  rewrite lookup_foldl_synced, lookup_fmap by apply unsyncedItems_NoDup.
  destruct (list_to_map (unsyncedItems n d) !! k) as [r|] eqn:Hr.
  - apply elem_of_list_to_map in Hr; [|apply unsyncedItems_NoDup].
    apply elem_of_unsyncedItems in Hr as [-> _]. done.
  - destruct (objectStore n d !! k) as [r|] eqn:Hk; [|done]. simpl.
    destruct (synced r) eqn:Hs; [by rewrite setSynced_synced|].
    assert (Hin : (k, r) ∈ unsyncedItems n d) by by apply elem_of_unsyncedItems.
    apply elem_of_list_to_map in Hin; [|apply unsyncedItems_NoDup]. congruence.
Qed.

Section Push.
Variable api : nat → request → option json.

(** One block of [syncLocalChanges], as a loop over the unsynced records. *)
Lemma syncUnsynced_items n push w :
  syncUnsynced n push w
  = forEach (unsyncedItems n (db w)).*2
      (λ r, push r;; update n (setSynced r true);; ret ()) w.
Proof.
  unfold syncUnsynced. rewrite (bind_Ok _ _ _ _ _ (getAll_storeItems n w)).
  cbn zeta. by rewrite filter_snd.
Qed.
End Push.

Lemma setDb_setDb d d' w : setDb d (setDb d' w) = setDb d w.
Proof. done. Qed.

Section PushUp.
Variable api : nat → request → option json.
Hypothesis api_up : ∀ t r, is_Some (api t r).

Lemma forEach_push_up n (m : method) (e : endpoint) (l : list (string * record)) :
  ∀ w,
    Forall (λ kr, keyPath n kr.2 = Some kr.1) l →
    forEach l.*2
      (λ r, apiRequest api m e (RecordBody r);; update n (setSynced r true);; ret ()) w
    = (Ok (),
       setDb (setObjectStore n
                (foldl (λ m kr, <[kr.1 := setSynced kr.2 true]> m)
                   (objectStore n (db w)) l)
                (db w))
         (steps (length l) w)).
Proof.
  induction l as [|[k r] l IH]; intros w Hl.
  - simpl. by rewrite setObjectStore_id, setDb_id.
  - apply Forall_cons in Hl as [Hk Hl]. simpl in Hk.
    rewrite fmap_cons, forEach_cons. cbn [snd].
    unfold mbind at 1, M_bind at 1, bind at 1, apiRequest at 1.
    destruct (api_up (tick w) (mkRequest m e (RecordBody r))) as [j ->].
    unfold mbind at 1, M_bind at 1, bind at 1.
    rewrite (update_upsert n (setSynced r true) (step w) k)
      by by rewrite keyPath_setSynced.
    cbn [ret]. rewrite IH by done.
    unfold putRecord. cbn [db setDb step length foldl fst snd].
    rewrite objectStore_set_eq, setObjectStore_twice.
    rewrite steps_setDb, setDb_setDb, steps_step. done.
Qed.

Lemma syncUnsynced_up n m e w :
  keyedStore n (db w) →
  syncUnsynced n (λ r, apiRequest api m e (RecordBody r)) w
  = (Ok (),
     setDb (setObjectStore n ((λ r, setSynced r true) <$> objectStore n (db w)) (db w))
       (steps (length (unsyncedItems n (db w))) w)).
Proof.
  intros Hkeyed. rewrite syncUnsynced_items, forEach_push_up.
  - by rewrite unsyncedItems_flagged.
  - apply Forall_forall. intros [k r] [Hk _]%elem_of_unsyncedItems.
    by apply (Hkeyed k).
Qed.

(** X14: when the remote service answers every request, [syncLocalChanges]
    on a keyed database returns normally and leaves the tasks, expenses and
    journal entries as they were except that every one of them is flagged
    [synced]; the other stores, the queue and the engine are unchanged. *)
Theorem syncLocalChanges_flags_everything w :
  keyedDatabase (db w) →
  ∃ w',
    syncLocalChanges api w = (Ok (), w') ∧
    (∀ n, objectStore n (db w')
          = if decide (n ∈ syncedStores)
            then (λ r, setSynced r true) <$> objectStore n (db w)
            else objectStore n (db w)) ∧
    syncQueue (db w') = syncQueue (db w) ∧
    keyGenerator (db w') = keyGenerator (db w) ∧
    lastSync w' = lastSync w ∧ isSyncing w' = isSyncing w ∧ emitted w' = emitted w.
Proof.
  intros Hk. pose proof (λ n, keyedDatabase_store (db w) n Hk) as Hstore.
  unfold syncLocalChanges, syncTask, syncExpense, syncJournal.
  rewrite (bind_Ok _ _ _ _ _ (syncUnsynced_up Tasks _ _ w (Hstore Tasks))).
  set (w1 := setDb _ (steps _ w)).
  assert (H1 : keyedStore Expenses (db w1)) by apply (Hstore Expenses).
  rewrite (bind_Ok _ _ _ _ _ (syncUnsynced_up Expenses _ _ w1 H1)).
  set (w2 := setDb _ (steps _ w1)).
  assert (H2 : keyedStore Journal (db w2)) by apply (Hstore Journal).
  rewrite (syncUnsynced_up Journal _ _ w2 H2).
  eexists. split; [reflexivity|].
  destruct (steps_frame (length (unsyncedItems Tasks (db w))) w) as (? & ? & ? & _).
  destruct (steps_frame (length (unsyncedItems Expenses (db w1))) w1) as (? & ? & ? & _).
  destruct (steps_frame (length (unsyncedItems Journal (db w2))) w2) as (? & ? & ? & _).
  split; [|simpl in *; repeat split; congruence].
  intros n. subst w1 w2. cbn [db setDb]. rewrite ?db_steps.
  destruct (decide (n ∈ syncedStores)) as [Hin|Hnin].
  - unfold syncedStores in Hin. rewrite !elem_of_cons, elem_of_nil in Hin.
    destruct Hin as [->|[->|[->|[]]]]; done.
  - destruct n; try done; exfalso; apply Hnin; unfold syncedStores;
      rewrite !elem_of_cons; auto.
Qed.
End PushUp.

Lemma syncLocalChanges_flags_everything_witness :
  (∀ t r, is_Some (Sample.apiUp t r)) ∧
  keyedDatabase (db Sample.populated) ∧
  ∃ w',
    syncLocalChanges Sample.apiUp Sample.populated = (Ok (), w') ∧
    (∀ n, objectStore n (db w')
          = if decide (n ∈ syncedStores)
            then (λ r, setSynced r true) <$> objectStore n (db Sample.populated)
            else objectStore n (db Sample.populated)) ∧
    syncQueue (db w') = syncQueue (db Sample.populated) ∧
    keyGenerator (db w') = keyGenerator (db Sample.populated) ∧
    lastSync w' = lastSync Sample.populated ∧
    isSyncing w' = isSyncing Sample.populated ∧
    emitted w' = emitted Sample.populated.
Proof.
  assert (Hup : ∀ t r, is_Some (Sample.apiUp t r)) by (intros t r; eexists; reflexivity).
  assert (Hk : keyedDatabase (db Sample.populated)).
  { unfold keyedDatabase, keyedStore. apply (bool_decide_unpack _).
    vm_compute. exact I. }
  split; [exact Hup|]. split; [exact Hk|].
  exact (syncLocalChanges_flags_everything Sample.apiUp Hup Sample.populated Hk).
Defined.

(** ** What the queue operations leave alone *)

(** A property of the world that depends neither on the queue nor on the
    step counter is kept by every operation on the queue. *)
Section QueueFrame.
Context (P : world → Prop).
Hypothesis P_queue : ∀ q w, P w → P (setDb (setSyncQueue q (db w)) w).
Hypothesis P_step : ∀ w, P w → P (step w).

Variable clock : nat → Z.
Variable api : nat → request → option json.

Lemma qframe_updateQueued item : preserves P (updateQueued item).
Proof. intros w Hw. by apply P_queue. Qed.

Lemma qframe_deleteQueued k : preserves P (deleteQueued k).
Proof. intros w Hw. by apply P_queue. Qed.

Lemma qframe_now : preserves P (now clock).
Proof. intros w. apply P_step. Qed.

Lemma qframe_apiRequest m e b : preserves P (apiRequest api m e b).
Proof. intros w. unfold apiRequest. destruct (api _ _); apply P_step. Qed.

#[local] Hint Resolve qframe_updateQueued qframe_deleteQueued qframe_now
  qframe_apiRequest : preserves.

Lemma qframe_markSyncItemComplete k : preserves P (markSyncItemComplete clock k).
Proof. unfold markSyncItemComplete, getQueued. preserve. Qed.

#[local] Hint Resolve qframe_markSyncItemComplete : preserves.

Lemma qframe_syncPendingItems : preserves P (syncPendingItems clock api).
Proof.
  unfold syncPendingItems, getPendingSyncItems, getAllPending.
  apply preserves_bind; [preserve|]. intros l. apply preserves_forEach.
  intros item. unfold syncPendingItem. apply preserves_tryCatch; [|preserve].
  destruct (syncHandlers api (qtype item)) as [h|] eqn:Hh; [|preserve].
  apply (syncHandlers_Some api) in Hh as (_ & m & e & ->). preserve.
Qed.

Lemma qframe_clearSyncQueue : preserves P clearSyncQueue.
Proof. unfold clearSyncQueue, getPendingSyncItems, getAllPending. preserve. Qed.

Lemma qframe_optimize tz : preserves P (optimize clock tz).
Proof. unfold optimize, getAllQueued. preserve. Qed.
End QueueFrame.

(** ** A cycle while the remote service is down *)

Lemma allSynced_unsyncedItems n d : allSynced n d ↔ unsyncedItems n d = [].
Proof.
  split.
  - intros Hall. destruct (unsyncedItems n d) as [|[k r] l] eqn:Hu; [done|].
    assert (Hin : (k, r) ∈ unsyncedItems n d) by (rewrite Hu; by left).
    apply elem_of_unsyncedItems in Hin as [Hk Hs].
    specialize (Hall _ _ Hk). simpl in Hall. congruence.
  - intros Hnil k r Hk. simpl. destruct (synced r) eqn:Hs; [done|].
    assert (Hin : (k, r) ∈ unsyncedItems n d) by by apply elem_of_unsyncedItems.
    rewrite Hnil in Hin. inversion Hin.
Qed.

Section Offline.
Variable clock : nat → Z.
Variable api : nat → request → option json.
Hypothesis api_down : ∀ t r, api t r = None.

Lemma syncUnsynced_down n m e w :
  syncUnsynced n (λ r, apiRequest api m e (RecordBody r)) w
  = if decide (allSynced n (db w)) then (Ok (), w)
    else (Throw TransportError, step w).
Proof.
  rewrite syncUnsynced_items.
  destruct (decide (allSynced n (db w))) as [Hall|Hnot].
  - apply allSynced_unsyncedItems in Hall. by rewrite Hall.
  - destruct (unsyncedItems n (db w)) as [|[k r] l] eqn:Hu.
    { exfalso. by apply Hnot, allSynced_unsyncedItems. }
    rewrite fmap_cons, forEach_cons.
    unfold mbind, M_bind, bind, apiRequest. by rewrite api_down.
Qed.

Lemma syncLocalChanges_down w :
  syncLocalChanges api w
  = if decide (Forall (λ n, allSynced n (db w)) syncedStores) then (Ok (), w)
    else (Throw TransportError, step w).
Proof.
  unfold syncLocalChanges, syncTask, syncExpense, syncJournal, syncedStores.
  unfold mbind, M_bind, bind. rewrite syncUnsynced_down.
  destruct (decide (allSynced Tasks (db w))) as [H1|H1].
  2: { rewrite decide_False; [done|]. by intros [? _]%Forall_cons. }
  rewrite syncUnsynced_down.
  destruct (decide (allSynced Expenses (db w))) as [H2|H2].
  2: { rewrite decide_False; [done|]. by intros [_ [? _]%Forall_cons]%Forall_cons. }
  rewrite syncUnsynced_down.
  destruct (decide (allSynced Journal (db w))) as [H3|H3].
  - rewrite decide_True; [done|]. by repeat constructor.
  - rewrite decide_False; [done|].
    by intros [_ [_ [? _]%Forall_cons]%Forall_cons]%Forall_cons.
Qed.

Lemma fetchRemoteChanges_down w : fetchRemoteChanges clock api w = (Ok (), step w).
Proof.
  unfold fetchRemoteChanges, pullAndApply, tryCatch, apiRequest.
  unfold mbind, M_bind, bind, getWorld. by rewrite api_down.
Qed.

Lemma syncPendingItems_besidesQueue w :
  besidesQueue w (syncPendingItems clock api w).2.
Proof.
  apply (qframe_syncPendingItems (besidesQueue w)); [| |done].
  - intros q w1 (Hs & ?). split; [|done]. intros n. rewrite <- Hs. by destruct n.
  - by intros w1.
Qed.

(** X15: a sync cycle that starts with the flag down while the remote
    service answers no request returns normally with the flag down, leaves
    every store of records and the checkpoint as they were, and emits one
    signal: [syncComplete] when every task, expense and journal entry is
    flagged [synced], [syncError] otherwise. *)
Theorem syncAll_while_offline w :
  isSyncing w = false →
  ∃ w',
    syncAll clock api w = (Ok (), w') ∧
    emitted w'
    = emitted w ++
      [if decide (Forall (λ n, allSynced n (db w)) syncedStores)
       then syncComplete else syncError TransportError] ∧
    (∀ n, objectStore n (db w') = objectStore n (db w)) ∧
    lastSync w' = lastSync w ∧
    isSyncing w' = false.
Proof.
  intros Hflag. set (w0 := setIsSyncing true w).
  pose proof (syncPendingItems_besidesQueue w0) as (Hs & Hl & _ & He).
  pose proof (syncPendingItems_Ok clock api w0) as Hok.
  unfold syncAll, tryFinally, tryCatch, emit, modifyWorld.
  unfold mbind, M_bind, bind, getWorld. rewrite Hflag. fold w0.
  destruct (syncPendingItems clock api w0) as [[[]|e1] w1]; [|done].
  simpl in Hs, Hl, He. rewrite syncLocalChanges_down.
  assert (Hsame : Forall (λ n, allSynced n (db w1)) syncedStores
                  ↔ Forall (λ n, allSynced n (db w)) syncedStores).
  { unfold allSynced. rewrite !Forall_forall. by setoid_rewrite Hs. }
  destruct (decide (Forall (λ n, allSynced n (db w1)) syncedStores)) as [Hall|Hnot].
  - rewrite fetchRemoteChanges_down. rewrite decide_True by by apply Hsame.
    eexists. split; [reflexivity|]. simpl. by rewrite He.
  - rewrite decide_False by (by rewrite <- Hsame).
    eexists. split; [reflexivity|]. simpl. by rewrite He.
Qed.
End Offline.

Lemma syncAll_while_offline_witness :
  (∀ t r, Sample.apiDown t r = None) ∧
  isSyncing Sample.queuedA = false ∧
  ∃ w',
    syncAll Sample.clock Sample.apiDown Sample.queuedA = (Ok (), w') ∧
    emitted w'
    = emitted Sample.queuedA ++
      [if decide (Forall (λ n, allSynced n (db Sample.queuedA)) syncedStores)
       then syncComplete else syncError TransportError] ∧
    (∀ n, objectStore n (db w') = objectStore n (db Sample.queuedA)) ∧
    lastSync w' = lastSync Sample.queuedA ∧
    isSyncing w' = false.
Proof.
  assert (Hdown : ∀ t r, Sample.apiDown t r = None) by reflexivity.
  assert (Hflag : isSyncing Sample.queuedA = false) by reflexivity.
  split; [exact Hdown|]. split; [exact Hflag|].
  exact (syncAll_while_offline Sample.clock Sample.apiDown Hdown Sample.queuedA Hflag).
Defined.

(** ** What a sync cycle never does *)

(** A property of the world that survives the storing of a record in a
    synced store, and does not depend on the step counter, is kept by the
    push and by the pull. *)
Section GrowFrame.
Context (P : world → Prop).
Hypothesis P_put : ∀ n k r w, n ∈ syncedStores → P w → P (putRecord n k r w).
Hypothesis P_step : ∀ w, P w → P (step w).
Hypothesis P_lastSync : ∀ t w, P w → P (setLastSync t w).

Variable clock : nat → Z.
Variable api : nat → request → option json.

Lemma grow_add n r : n ∈ syncedStores → preserves P (add n r).
Proof.
  intros Hn w Hw. unfold add. destruct (keyPath n r) as [k|]; [|done].
  unfold mbind, M_bind, bind, getWorld.
  destruct (objectStore n (db w) !! k); [done|]. by apply P_put.
Qed.

Lemma grow_update n r : n ∈ syncedStores → preserves P (update n r).
Proof.
  intros Hn w Hw. unfold update. destruct (keyPath n r) as [k|]; [|done].
  by apply P_put.
Qed.

Lemma grow_applyRemoteUpdates n l :
  n ∈ syncedStores → preserves P (applyRemoteUpdates n l).
Proof.
  intros Hn. unfold applyRemoteUpdates, applyRemoteUpdate, get.
  apply preserves_forEach. intros u. apply preserves_bind.
  - destruct (id u); preserve.
  - intros [e|].
    + apply preserves_if; [|apply preserves_ret].
      apply preserves_bind; [by apply grow_update | intros; apply preserves_ret].
    + apply preserves_bind; [by apply grow_add | intros; apply preserves_ret].
Qed.

Lemma grow_applyBatch n l : n ∈ syncedStores → preserves P (applyBatch n l).
Proof.
  intros Hn. destruct l; [apply preserves_ret | by apply grow_applyRemoteUpdates].
Qed.

Lemma grow_apiRequest m e b : preserves P (apiRequest api m e b).
Proof. intros w. unfold apiRequest. destruct (api _ _); apply P_step. Qed.

Lemma grow_syncUnsynced n (push : record → M json) :
  n ∈ syncedStores → (∀ r, preserves P (push r)) →
  preserves P (syncUnsynced n push).
Proof.
  intros Hn Hpush. unfold syncUnsynced, getAll.
  apply preserves_bind; [preserve|]. intros l. apply preserves_forEach. intros r.
  apply preserves_bind; [apply Hpush|]. intros _.
  apply preserves_bind; [by apply grow_update | intros; apply preserves_ret].
Qed.

Lemma synced_Tasks : Tasks ∈ syncedStores.
Proof. by left. Qed.
Lemma synced_Expenses : Expenses ∈ syncedStores.
Proof. right. by left. Qed.
Lemma synced_Journal : Journal ∈ syncedStores.
Proof. right. right. by left. Qed.

Lemma grow_syncLocalChanges : preserves P (syncLocalChanges api).
Proof.
  unfold syncLocalChanges.
  apply preserves_bind.
  { apply grow_syncUnsynced; [apply synced_Tasks|]. intros r. apply grow_apiRequest. }
  intros _. apply preserves_bind.
  { apply grow_syncUnsynced; [apply synced_Expenses|]. intros r. apply grow_apiRequest. }
  intros _.
  apply grow_syncUnsynced; [apply synced_Journal|]. intros r. apply grow_apiRequest.
Qed.

Lemma grow_fetchRemoteChanges : preserves P (fetchRemoteChanges clock api).
Proof.
  unfold fetchRemoteChanges, pullAndApply.
  apply preserves_bind; [preserve|]. intros w0.
  apply preserves_tryCatch; [|preserve].
  apply preserves_bind; [apply grow_apiRequest|]. intros u.
  apply preserves_bind; [apply grow_applyBatch, synced_Tasks|]. intros _.
  apply preserves_bind; [apply grow_applyBatch, synced_Expenses|]. intros _.
  apply preserves_bind; [apply grow_applyBatch, synced_Journal|]. intros _.
  apply preserves_bind; [intros w; apply P_step|]. intros t w. apply P_lastSync.
Qed.
End GrowFrame.

Lemma evolves_trans a b c : evolves a b → evolves b c → evolves a c.
Proof.
  intros (Hid & Hty & Hd & Hc & Hsame) (Hid' & Hty' & Hd' & Hc' & Hsame').
  repeat split; try congruence.
  intros H. pose proof (Hsame H) as ->. by apply Hsame'.
Qed.

Lemma evolvesAt_trans a b c : evolvesAt a b → evolvesAt b c → evolvesAt a c.
Proof.
  destruct a, b, c; simpl; try done. apply evolves_trans.
Qed.

Lemma cycleInv_refl w : keyedQueue (db w) → cycleInv w w.
Proof.
  intros Hq. repeat split; try done. intros k. unfold evolvesAt.
  destruct (syncQueue (db w) !! k); [apply evolves_refl | done].
Qed.

Section Cycle.
Variable clock : nat → Z.
Variable api : nat → request → option json.

Lemma cycleInv_syncPendingItems w0 :
  preserves (cycleInv w0) (syncPendingItems clock api).
Proof.
  intros w (Hq & Hev & Hg & Hdom & Hrest).
  destruct (syncPendingItems_drained clock api w Hq)
    as (Hq' & Hev' & Hs & Hg' & _).
  split; [done|]. split.
  { intros k. eapply evolvesAt_trans; [apply Hev | apply Hev']. }
  split; [congruence|]. split.
  - intros n k. rewrite Hs. apply Hdom.
  - intros n Hn. rewrite Hs. by apply Hrest.
Qed.

Lemma cycleInv_put w0 n k r w :
  n ∈ syncedStores → cycleInv w0 w → cycleInv w0 (putRecord n k r w).
Proof.
  intros Hn (Hq & Hev & Hg & Hdom & Hrest).
  split; [by destruct n|]. split; [by destruct n|]. split; [by destruct n|]. split.
  - intros n' k' Hk'. destruct (decide (n = n')) as [<-|Hne].
    + rewrite db_putRecord. destruct (decide (k = k')) as [<-|Hk].
      * rewrite lookup_insert_eq. by eexists.
      * rewrite lookup_insert_ne by done. by apply Hdom.
    + rewrite db_putRecord_ne by done. by apply Hdom.
  - intros n' Hn'. rewrite db_putRecord_ne by (intros ->; done). by apply Hrest.
Qed.

Lemma cycleInv_syncAll w0 : preserves (cycleInv w0) (syncAll clock api).
Proof.
  unfold syncAll, emit.
  apply preserves_bind; [preserve|]. intros w.
  apply preserves_if; [preserve|].
  apply preserves_bind; [by intros ?|]. intros _.
  apply preserves_tryFinally; [|by intros ?].
  apply preserves_tryCatch; [|by intros ? ?].
  apply preserves_bind; [apply cycleInv_syncPendingItems|]. intros _.
  apply preserves_bind.
  { apply grow_syncLocalChanges; [apply cycleInv_put | done]. }
  intros _. apply preserves_bind; [|by intros ? ?].
  apply grow_fetchRemoteChanges; [apply cycleInv_put | done | done].
Qed.

(** X16: a sync cycle, whatever the remote service answers and however it
    ends, deletes nothing: the queue keeps its entries (up to the changes
    that the drain makes to pending entries with a handler) and its key
    generator, every key of every store of records is still there, and the
    habits, settings and analytics are unchanged. *)
Theorem syncAll_never_deletes w :
  keyedQueue (db w) →
  let w' := (syncAll clock api w).2 in
  keyedQueue (db w') ∧
  (∀ k, evolvesAt (syncQueue (db w) !! k) (syncQueue (db w') !! k)) ∧
  keyGenerator (db w') = keyGenerator (db w) ∧
  (∀ n k, is_Some (objectStore n (db w) !! k) → is_Some (objectStore n (db w') !! k)) ∧
  (∀ n, n ∉ syncedStores → objectStore n (db w') = objectStore n (db w)).
Proof. intros Hq. by apply cycleInv_syncAll, cycleInv_refl. Qed.
End Cycle.

Lemma syncAll_never_deletes_witness :
  keyedQueue (db Scenario.backlog) ∧
  let w' := (syncAll Sample.clock Sample.apiBadBatch Scenario.backlog).2 in
  keyedQueue (db w') ∧
  (∀ k, evolvesAt (syncQueue (db Scenario.backlog) !! k) (syncQueue (db w') !! k)) ∧
  keyGenerator (db w') = keyGenerator (db Scenario.backlog) ∧
  (∀ n k, is_Some (objectStore n (db Scenario.backlog) !! k) →
          is_Some (objectStore n (db w') !! k)) ∧
  (∀ n, n ∉ syncedStores → objectStore n (db w') = objectStore n (db Scenario.backlog)).
Proof.
  assert (Hq : keyedQueue (db Scenario.backlog)).
  { unfold keyedQueue. apply (bool_decide_unpack _). vm_compute. exact I. }
  split; [exact Hq|].
  exact (syncAll_never_deletes Sample.clock Sample.apiBadBatch Scenario.backlog Hq).
Defined.

(** ** What the stores of records leave alone *)

(** A property of the world that depends neither on the stores of records
    nor on the step counter (the queue, its key generator, the engine) is
    kept by every operation on the records. *)
Section StoreFrame.
Context (P : world → Prop).
Hypothesis P_store : ∀ n m w, P w → P (setDb (setObjectStore n m (db w)) w).
Hypothesis P_step : ∀ w, P w → P (step w).

Variable clock : nat → Z.
Variable api : nat → request → option json.

Lemma sframe_add n r : preserves P (add n r).
Proof.
  intros w Hw. unfold add. destruct (keyPath n r) as [k|]; [|done].
  unfold mbind, M_bind, bind, getWorld.
  destruct (objectStore n (db w) !! k); [done|]. by apply P_store.
Qed.

Lemma sframe_update n r : preserves P (update n r).
Proof.
  intros w Hw. unfold update. destruct (keyPath n r) as [k|]; [|done].
  by apply P_store.
Qed.

Lemma sframe_get n k : preserves P (get n k).
Proof. unfold get. preserve. Qed.

Lemma sframe_getAll n : preserves P (getAll n).
Proof. unfold getAll. preserve. Qed.

Lemma sframe_clearStore n : preserves P (clearStore n).
Proof. intros w Hw. by apply P_store. Qed.

Lemma sframe_delete n k : preserves P (delete n k).
Proof. intros w Hw. destruct k as [k|]; [|done]. by apply P_store. Qed.

Lemma sframe_now : preserves P (now clock).
Proof. intros w. apply P_step. Qed.

Lemma sframe_apiRequest m e b : preserves P (apiRequest api m e b).
Proof. intros w. unfold apiRequest. destruct (api _ _); apply P_step. Qed.

#[local] Hint Resolve sframe_add sframe_update sframe_get sframe_getAll
  sframe_clearStore sframe_delete sframe_now sframe_apiRequest : preserves.

Lemma sframe_logHabitCompletion habitId d :
  preserves P (logHabitCompletion clock habitId d).
Proof. unfold logHabitCompletion. preserve. Qed.

Lemma sframe_importData backup : preserves P (importData backup).
Proof. unfold importData, importEntry. preserve. Qed.

Lemma sframe_exportData : preserves P (exportData clock).
Proof. intros w. apply P_step. Qed.

#[local] Hint Resolve sframe_importData sframe_exportData : preserves.

Lemma sframe_restoreFromCloud : preserves P (restoreFromCloud api).
Proof. unfold restoreFromCloud. preserve. Qed.

Lemma sframe_restoreData backup confirmed :
  preserves P (restoreData backup confirmed).
Proof. unfold restoreData. preserve. Qed.

Lemma sframe_backupToCloud : preserves P (backupToCloud clock api).
Proof. unfold backupToCloud. preserve. Qed.
End StoreFrame.

(** ** The ids of the queue are never reused *)

Lemma queueFresh_store n m d : queueFresh d → queueFresh (setObjectStore n m d).
Proof. by destruct n. Qed.

Lemma queueFresh_domain d d' :
  keyGenerator d' = keyGenerator d →
  (∀ k, is_Some (syncQueue d' !! k) → is_Some (syncQueue d !! k)) →
  queueFresh d → queueFresh d'.
Proof.
  intros Hg Hdom Hf k it Hk. simpl. rewrite Hg.
  destruct (Hdom k) as [it' Hk']; [by eexists|]. apply (Hf _ _ Hk').
Qed.

Lemma wellFormed_initial : wellFormed initialWorld.
Proof. split; [apply wellKeyed_initial | apply map_Forall_empty]. Qed.

Lemma evolvesAt_is_Some o o' : evolvesAt o o' → is_Some o' → is_Some o.
Proof. destruct o, o'; simpl; try done. Qed.

Section Fresh.
Variable clock : nat → Z.
Variable api : nat → request → option json.

Lemma fresh_deleteQueued k : preserves wellFormed (deleteQueued k).
Proof.
  intros w [Hk Hf]. split.
  - apply wellKeyed_queue; [|done]. apply map_Forall_delete, Hk.
  - simpl. eapply queueFresh_domain; [| |exact Hf]; [done|]. simpl.
    intros k' [it Hit]. apply lookup_delete_Some in Hit as [_ Hit]. by eexists.
Qed.

Lemma fresh_step w : wellFormed w → wellFormed (step w).
Proof. done. Qed.

Lemma fresh_getPendingSyncItems ty : preserves wellFormed (getPendingSyncItems ty).
Proof. unfold getPendingSyncItems, getAllPending. preserve. Qed.

Lemma fresh_clearSyncQueue : preserves wellFormed clearSyncQueue.
Proof.
  unfold clearSyncQueue. apply preserves_bind; [apply fresh_getPendingSyncItems|].
  intros l. apply preserves_forEach. intros item. apply fresh_deleteQueued.
Qed.

Lemma fresh_optimize tz : preserves wellFormed (optimize clock tz).
Proof.
  unfold optimize. apply preserves_bind; [intros w; apply fresh_step|].
  intros t. apply preserves_bind; [unfold getAllQueued; preserve|].
  intros l. apply preserves_forEach. intros item. apply fresh_deleteQueued.
Qed.

Lemma fresh_markSyncItemComplete k :
  preserves wellFormed (markSyncItemComplete clock k).
Proof.
  intros w [Hk Hf]. split; [by apply keyed_markSyncItemComplete|].
  rewrite markSyncItemComplete_unfold.
  destruct (syncQueue (db w) !! k) as [it|] eqn:Hit; [|done].
  simpl. eapply queueFresh_domain; [| |exact Hf]; [done|]. simpl.
  intros k' [it' Hit']. destruct (decide (qid it = k')) as [<-|Hne].
  - destruct Hk as [_ Hq]. rewrite (Hq _ _ Hit). by eexists.
  - rewrite lookup_insert_ne in Hit' by done. by eexists.
Qed.

Lemma fresh_addToSyncQueue ty r : preserves wellFormed (addToSyncQueue clock ty r).
Proof.
  intros w [Hk Hf]. split; [by apply keyed_addToSyncQueue|].
  unfold addToSyncQueue, addToQueue, now.
  unfold mbind, M_bind, bind, getWorld, modifyDb, modifyWorld, ret. simpl.
  destruct (syncQueue (db w) !! keyGenerator (db w)); [done|]. simpl.
  apply map_Forall_insert_2; simpl; [lia|].
  intros k it Hit. pose proof (Hf _ _ Hit) as Hlt. simpl in *. lia.
Qed.

Lemma fresh_syncAll : preserves wellFormed (syncAll clock api).
Proof.
  intros w [Hk Hf]. split; [by apply keyed_syncAll|].
  destruct (cycleInv_syncAll clock api w w) as (_ & Hev & Hg & _).
  { apply cycleInv_refl, Hk. }
  eapply queueFresh_domain; [exact Hg| |exact Hf].
  intros k. apply evolvesAt_is_Some, Hev.
Qed.


Lemma fresh_logHabitCompletion habitId d :
  preserves wellFormed (logHabitCompletion clock habitId d).
Proof.
  intros w [Hk Hf]. split; [by apply keyed_logHabitCompletion|].
  apply (sframe_logHabitCompletion (λ w, queueFresh (db w))); [|done|done].
  intros n m w'. apply queueFresh_store.
Qed.

Lemma fresh_importData backup : preserves wellFormed (importData backup).
Proof.
  intros w [Hk Hf]. split; [by apply keyed_importData|].
  apply (sframe_importData (λ w, queueFresh (db w))); [|done].
  intros n m w'. apply queueFresh_store.
Qed.

Lemma fresh_restoreFromCloud : preserves wellFormed (restoreFromCloud api).
Proof.
  intros w [Hk Hf]. split; [by apply keyed_restoreFromCloud|].
  apply (sframe_restoreFromCloud (λ w, queueFresh (db w))); [|done|done].
  intros n m w'. apply queueFresh_store.
Qed.

Lemma fresh_restoreData backup confirmed :
  preserves wellFormed (restoreData backup confirmed).
Proof.
  intros w [Hk Hf]. split; [by apply keyed_restoreData|].
  apply (sframe_restoreData (λ w, queueFresh (db w))); [|done].
  intros n m w'. apply queueFresh_store.
Qed.

(** X17: a world where every record sits under its key, every queue entry
    under its [id], and every [id] of the queue is below the key generator,
    stays such a world under every operation: enqueueing, completing, a
    sync cycle, clearing and purging the queue, logging a habit, an import
    and both restores. *)
Theorem queue_ids_stay_fresh w :
  wellFormed w →
  (∀ ty r, wellFormed (addToSyncQueue clock ty r w).2) ∧
  (∀ k, wellFormed (markSyncItemComplete clock k w).2) ∧
  wellFormed (syncAll clock api w).2 ∧
  wellFormed (clearSyncQueue w).2 ∧
  (∀ localTZA, wellFormed (optimize clock localTZA w).2) ∧
  (∀ habitId d, wellFormed (logHabitCompletion clock habitId d w).2) ∧
  (∀ backup, wellFormed (importData backup w).2) ∧
  wellFormed (restoreFromCloud api w).2 ∧
  (∀ backup confirmed, wellFormed (restoreData backup confirmed w).2).
Proof.
  intros Hw.
  split; [intros; by apply fresh_addToSyncQueue|].
  split; [intros; by apply fresh_markSyncItemComplete|].
  split; [by apply fresh_syncAll|].
  split; [by apply fresh_clearSyncQueue|].
  split; [intros; by apply fresh_optimize|].
  split; [intros; by apply fresh_logHabitCompletion|].
  split; [intros; by apply fresh_importData|].
  split; [by apply fresh_restoreFromCloud | intros; by apply fresh_restoreData].
Qed.
End Fresh.

Lemma queue_ids_stay_fresh_witness :
  wellFormed Scenario.halfDone ∧
  (∀ ty r, wellFormed (addToSyncQueue Sample.clock ty r Scenario.halfDone).2) ∧
  (∀ k, wellFormed (markSyncItemComplete Sample.clock k Scenario.halfDone).2) ∧
  wellFormed (syncAll Sample.clock Sample.apiUp Scenario.halfDone).2 ∧
  wellFormed (clearSyncQueue Scenario.halfDone).2 ∧
  (∀ localTZA, wellFormed (optimize Sample.clock localTZA Scenario.halfDone).2) ∧
  (∀ habitId d,
     wellFormed (logHabitCompletion Sample.clock habitId d Scenario.halfDone).2) ∧
  (∀ backup, wellFormed (importData backup Scenario.halfDone).2) ∧
  wellFormed (restoreFromCloud Sample.apiUp Scenario.halfDone).2 ∧
  (∀ backup confirmed, wellFormed (restoreData backup confirmed Scenario.halfDone).2).
Proof.
  assert (Hw : wellFormed Scenario.halfDone).
  { unfold wellFormed, wellKeyed, keyedDatabase, keyedStore, keyedQueue, queueFresh.
    apply (bool_decide_unpack _). vm_compute. exact I. }
  split; [exact Hw|].
  exact (queue_ids_stay_fresh Sample.clock Sample.apiUp Scenario.halfDone Hw).
Defined.

(** ** What an import leaves in the stores *)

Lemma objectStore_cleared n d : objectStore n (cleared d) = ∅.
Proof. by destruct n. Qed.

Lemma itemsFor_nil n : itemsFor n [] = [].
Proof. done. Qed.

Lemma itemsFor_cons n e entries :
  itemsFor n (e :: entries)
  = (if decide (storeNamed e.1 = Some n) then e.2 else []) ++ itemsFor n entries.
Proof.
  unfold itemsFor. rewrite filter_cons.
  destruct (decide (storeNamed e.1 = Some n)); by simpl.
Qed.

Lemma itemsFor_app n pre post :
  itemsFor n (pre ++ post) = itemsFor n pre ++ itemsFor n post.
Proof. unfold itemsFor. by rewrite filter_app, fmap_app, concat_app. Qed.

Lemma importable_nil n : importable n [].
Proof. split; [done | constructor]. Qed.

Lemma importable_app n a b :
  importable n (a ++ b) ↔
  importable n a ∧ importable n b ∧
  (∀ r r' k, r ∈ a → r' ∈ b → keyPath n r = Some k → keyPath n r' ≠ Some k).
Proof.
  unfold importable. rewrite Forall_app, fmap_app, NoDup_app. split.
  - intros ((Ha & Hb) & Hna & Hdis & Hnb). split; [done|]. split; [done|].
    intros r r' k Hr Hr' Hk Hk'. apply (Hdis (Some k)).
    + rewrite <- Hk. by apply list_elem_of_fmap_2.
    + rewrite <- Hk'. by apply list_elem_of_fmap_2.
  - intros ((Ha & Hna) & (Hb & Hnb) & Hdis). split; [done|]. split; [done|].
    split; [|done]. intros x (r & -> & Hr)%list_elem_of_fmap (r' & Heq & Hr')%list_elem_of_fmap.
    rewrite Forall_forall in Ha. destruct (Ha r Hr) as [k Hk].
    apply (Hdis r r' k Hr Hr' Hk). congruence.
Qed.

Lemma freshIn_app n w a b : freshIn n w (a ++ b) ↔ freshIn n w a ∧ freshIn n w b.
Proof.
  unfold freshIn. split.
  - intros H. split; intros r k Hr; apply H, elem_of_app; [by left | by right].
  - intros [Ha Hb] r k [Hr|Hr]%elem_of_app; [by apply Ha | by apply Hb].
Qed.

Lemma freshIn_nil n w : freshIn n w [].
Proof. intros r k Hr. inversion Hr. Qed.

(** One [add] after the other: what was stored stays stored, what is stored
    afterwards was stored before or is one of the items, under its key; the
    loop returns exactly when the items have distinct keys that the store
    does not hold, and then every item is stored. *)
Lemma addAll_spec n items :
  ∀ w, let res := forEach items (λ item, add n item;; ret ()) w in
    (∀ n' k r, objectStore n' (db w) !! k = Some r →
               objectStore n' (db res.2) !! k = Some r) ∧
    (∀ n' k r, objectStore n' (db res.2) !! k = Some r →
               objectStore n' (db w) !! k = Some r ∨
               (n' = n ∧ keyPath n r = Some k ∧ r ∈ items)) ∧
    (res.1 = Ok () →
     ∀ r, r ∈ items → ∃ k, keyPath n r = Some k ∧
                            objectStore n (db res.2) !! k = Some r) ∧
    (res.1 = Ok () ∨ res.1 = Throw DataError ∨ res.1 = Throw ConstraintError) ∧
    (res.1 = Ok () ↔ importable n items ∧ freshIn n w items).
Proof.
  induction items as [|r items IH]; intros w; cbn zeta.
  { simpl. split; [done|]. split; [by left|]. split; [intros _ r Hr; inversion Hr|].
    split; [by left|]. split; [|done]. intros _.
    split; [apply importable_nil | apply freshIn_nil]. }
  rewrite forEach_cons. cbn beta.
  destruct (keyPath n r) as [k|] eqn:Hk.
  2: { assert (Hb : (add n r ≫= λ _, ret ()) w = (Throw DataError, w)).
       { unfold mbind, M_bind, bind, add. by rewrite Hk. }
       rewrite Hb. simpl.
       split; [done|]. split; [by left|]. split; [done|].
       split; [right; by left|]. split; [done|].
       intros [[Hall _] _]. apply Forall_cons in Hall as [[? Hs] _]. congruence. }
  destruct (objectStore n (db w) !! k) as [old|] eqn:Hold.
  { assert (Hb : (add n r ≫= λ _, ret ()) w = (Throw ConstraintError, w)).
    { unfold mbind, M_bind, bind.
      by rewrite (add_duplicate_key n r w k Hk) by by eexists. }
    rewrite Hb. simpl.
    split; [done|]. split; [by left|]. split; [done|].
    split; [right; by right|]. split; [done|].
    intros [_ Hfr]. rewrite (Hfr r k) in Hold; [done | by left | done]. }
  assert (Hb : (add n r ≫= λ _, ret ()) w = (Ok (), putRecord n k r w)).
  { unfold mbind, M_bind, bind. by rewrite (add_fresh n r k w Hk Hold). }
  rewrite Hb.
  destruct (IH (putRecord n k r w)) as (Hkeep & Hfrom & Hall & Hres & Hiff).
  cbn zeta in *.
  split; [|split; [|split; [|split; [done|]]]].
  - intros n' k' r' Hr'. apply Hkeep.
    destruct (decide (n = n')) as [<-|Hne].
    + rewrite db_putRecord. destruct (decide (k = k')) as [<-|Hkk]; [congruence|].
      by rewrite lookup_insert_ne.
    + by rewrite db_putRecord_ne.
  - intros n' k' r' Hr'. destruct (Hfrom _ _ _ Hr') as [Hput|(-> & Hkp & Hin)].
    + destruct (decide (n = n')) as [<-|Hne].
      * rewrite db_putRecord in Hput. destruct (decide (k = k')) as [<-|Hkk].
        -- rewrite lookup_insert_eq in Hput. injection Hput as <-.
           right. split; [done|]. split; [done | by left].
        -- rewrite lookup_insert_ne in Hput by done. by left.
      * rewrite db_putRecord_ne in Hput by done. by left.
    + right. split; [done|]. split; [done | by right].
  - intros Hok r' Hr'. apply elem_of_cons in Hr' as [->|Hr'].
    + exists k. split; [done|]. apply Hkeep. rewrite db_putRecord.
      by rewrite lookup_insert_eq.
    + by apply Hall.
  - rewrite Hiff. change (r :: items) with ([r] ++ items).
    rewrite importable_app, freshIn_app. split.
    + intros [Himp Hfr]. split; [split; [|split; [done|]]|split].
      * split; [|apply NoDup_singleton]. apply Forall_singleton. by eexists.
      * intros r0 r' k0 ->%list_elem_of_singleton Hr' Hk0 Hk'.
        assert (k0 = k) as -> by congruence.
        pose proof (Hfr r' k Hr' Hk') as Hnone.
        by rewrite db_putRecord, lookup_insert_eq in Hnone.
      * intros r0 k0 ->%list_elem_of_singleton Hk0. congruence.
      * intros r' k' Hr' Hk'. pose proof (Hfr r' k' Hr' Hk') as Hnone.
        rewrite db_putRecord in Hnone.
        destruct (decide (k = k')) as [<-|Hkk];
          [by rewrite lookup_insert_eq in Hnone|].
        by rewrite lookup_insert_ne in Hnone.
    + intros ((_ & Himp & Hdis) & _ & Hfr). split; [done|].
      intros r' k' Hr' Hk'. rewrite db_putRecord.
      destruct (decide (k = k')) as [<-|Hkk].
      * destruct (Hdis r r' k); [by left | done | done | done].
      * rewrite lookup_insert_ne by done. exact (Hfr r' k' Hr' Hk').
Qed.

Lemma itemsFor_single n e :
  itemsFor n [e] = if decide (storeNamed e.1 = Some n) then e.2 else [].
Proof. by rewrite itemsFor_cons, itemsFor_nil, app_nil_r. Qed.

Lemma importEntry_spec e w :
  let res := importEntry e w in
    (∀ n k r, objectStore n (db w) !! k = Some r →
              objectStore n (db res.2) !! k = Some r) ∧
    (∀ n k r, objectStore n (db res.2) !! k = Some r →
              objectStore n (db w) !! k = Some r ∨
              (keyPath n r = Some k ∧ r ∈ itemsFor n [e])) ∧
    (res.1 = Ok () →
     ∀ n r, r ∈ itemsFor n [e] → ∃ k, keyPath n r = Some k ∧
                                      objectStore n (db res.2) !! k = Some r) ∧
    (res.1 = Ok () ∨ res.1 = Throw DataError ∨ res.1 = Throw ConstraintError) ∧
    (res.1 = Ok () ↔
     ∀ n, importable n (itemsFor n [e]) ∧ freshIn n w (itemsFor n [e])).
Proof.
  cbn zeta. unfold importEntry.
  destruct (storeNamed e.1) as [n0|] eqn:Hn0.
  - destruct (addAll_spec n0 e.2 w) as (Hkeep & Hfrom & Hall & Hres & Hiff).
    cbn zeta in *.
    split; [done|]. split; [|split; [|split; [done|]]].
    + intros n k r Hr. destruct (Hfrom _ _ _ Hr) as [?|(-> & Hk & Hin)]; [by left|].
      right. split; [done|]. by rewrite itemsFor_single, Hn0, decide_True.
    + intros Hok n r. rewrite itemsFor_single, Hn0.
      destruct (decide (Some n0 = Some n)) as [Heq|]; [|by inversion 1].
      assert (n0 = n) as -> by congruence. by apply Hall.
    + rewrite Hiff. split.
      * intros [Himp Hfr] n. rewrite itemsFor_single, Hn0.
        destruct (decide (Some n0 = Some n)) as [[= <-]|]; [done|].
        split; [apply importable_nil | apply freshIn_nil].
      * intros H. specialize (H n0). by rewrite itemsFor_single, Hn0, decide_True in H.
  - simpl. split; [done|]. split; [by left|]. split; [|split; [by left|]].
    + intros _ n r. rewrite itemsFor_single, Hn0, decide_False by done. by inversion 1.
    + split; [|done]. intros _ n. rewrite itemsFor_single, Hn0, decide_False by done.
      split; [apply importable_nil | apply freshIn_nil].
Qed.

Lemma importEntries_spec entries :
  ∀ w, let res := forEach entries importEntry w in
    (∀ n k r, objectStore n (db w) !! k = Some r →
              objectStore n (db res.2) !! k = Some r) ∧
    (∀ n k r, objectStore n (db res.2) !! k = Some r →
              objectStore n (db w) !! k = Some r ∨
              (keyPath n r = Some k ∧ r ∈ itemsFor n entries)) ∧
    (res.1 = Ok () →
     ∀ n r, r ∈ itemsFor n entries → ∃ k, keyPath n r = Some k ∧
                                          objectStore n (db res.2) !! k = Some r) ∧
    (res.1 = Ok () ∨ res.1 = Throw DataError ∨ res.1 = Throw ConstraintError) ∧
    (res.1 = Ok () ↔
     ∀ n, importable n (itemsFor n entries) ∧ freshIn n w (itemsFor n entries)).
Proof.
  induction entries as [|e entries IH]; intros w; cbn zeta.
  { simpl. split; [done|]. split; [by left|]. split; [intros _ n r Hr; inversion Hr|].
    split; [by left|]. split; [|done]. intros _ n.
    split; [apply importable_nil | apply freshIn_nil]. }
  rewrite forEach_cons. unfold mbind, M_bind, bind.
  destruct (importEntry_spec e w) as (Hkeep & Hfrom & Hall & Hres & Hiff).
  cbn zeta in *.
  destruct (importEntry e w) as [[[]|err] w1] eqn:He; simpl in *.
  - destruct (IH w1) as (Hkeep' & Hfrom' & Hall' & Hres' & Hiff'). cbn zeta in *.
    split; [|split; [|split; [|split; [done|]]]].
    + intros n k r Hr. by apply Hkeep', Hkeep.
    + intros n k r Hr. change (e :: entries) with ([e] ++ entries).
      rewrite itemsFor_app, elem_of_app.
      destruct (Hfrom' _ _ _ Hr) as [Hr1|[Hk Hin]]; [|by right; split; [|right]].
      destruct (Hfrom _ _ _ Hr1) as [?|[Hk Hin]]; [by left|].
      right. split; [done | by left].
    + intros Hok n r. change (e :: entries) with ([e] ++ entries).
      rewrite itemsFor_app, elem_of_app. intros [Hin|Hin].
      * destruct (Hall eq_refl n r Hin) as (k & Hk & Hr). exists k.
        split; [done|]. by apply Hkeep'.
      * by apply Hall'.
    + rewrite Hiff'. destruct Hiff as [Hfirst _]. specialize (Hfirst eq_refl).
      split.
      * intros Hrest n. destruct (Hfirst n) as [Himp Hfr].
        destruct (Hrest n) as [Himp' Hfr'].
        change (e :: entries) with ([e] ++ entries).
        rewrite itemsFor_app, importable_app, freshIn_app.
        split; [split; [done|split; [done|]]|split; [done|]].
        -- intros r r' k Hr Hr' Hk Hk'.
           destruct (Hall eq_refl n r Hr) as (k0 & Hk0 & Hst).
           assert (k0 = k) as -> by congruence.
           by rewrite (Hfr' r' k Hr' Hk') in Hst.
        -- intros r k Hr Hk.
           destruct (objectStore n (db w) !! k) as [x|] eqn:Hx; [|done].
           apply Hkeep in Hx. by rewrite (Hfr' r k Hr Hk) in Hx.
      * intros Hboth n. specialize (Hboth n).
        change (e :: entries) with ([e] ++ entries) in Hboth.
        rewrite itemsFor_app, importable_app, freshIn_app in Hboth.
        destruct Hboth as ((_ & Himp & Hdis) & _ & Hfr). split; [done|].
        intros r k Hr Hk.
        destruct (objectStore n (db w1) !! k) as [x|] eqn:Hx; [|done].
        destruct (Hfrom _ _ _ Hx) as [Hw|[Hkx Hin]].
        -- by rewrite (Hfr r k Hr Hk) in Hw.
        -- destruct (Hdis x r k Hin Hr Hkx Hk).
  - split; [done|]. split; [|split; [done|split]].
    + intros n k r Hr. change (e :: entries) with ([e] ++ entries).
      rewrite itemsFor_app, elem_of_app.
      destruct (Hfrom _ _ _ Hr) as [?|[Hk Hin]]; [by left|].
      right. split; [done | by left].
    + destruct Hres as [?|[?|?]]; [done | right; by left | right; by right].
    + split; [done|]. intros Hboth. apply Hiff. intros n. specialize (Hboth n).
      change (e :: entries) with ([e] ++ entries) in Hboth.
      rewrite itemsFor_app, importable_app, freshIn_app in Hboth.
      by destruct Hboth as ((? & _) & ? & _).
Qed.

Lemma importData_frame backup w :
  let w' := (importData backup w).2 in
  syncQueue (db w') = syncQueue (db w) ∧
  keyGenerator (db w') = keyGenerator (db w) ∧
  lastSync w' = lastSync w ∧ isSyncing w' = isSyncing w ∧ emitted w' = emitted w.
Proof.
  cbn zeta.
  apply (sframe_importData
           (λ w', syncQueue (db w') = syncQueue (db w) ∧
                  keyGenerator (db w') = keyGenerator (db w) ∧
                  lastSync w' = lastSync w ∧ isSyncing w' = isSyncing w ∧
                  emitted w' = emitted w)); [|done].
  intros n m w0. by destruct n.
Qed.

(** X18: an import that passes the check of [data] and [version] returns
    [true] exactly when, for every covered store, the records that the
    payload lists for it each have the key of the store and no two of them
    have the same key; otherwise it throws [DataError] or
    [ConstraintError]. *)
Theorem importData_succeeds_iff backup entries w :
  data backup = Some entries → truthy (version backup) = true →
  ((importData backup w).1 = Ok true ↔ ∀ n, importable n (itemsFor n entries)) ∧
  ((importData backup w).1 = Ok true ∨
   (importData backup w).1 = Throw DataError ∨
   (importData backup w).1 = Throw ConstraintError).
Proof.
  intros Hd Hv. rewrite (importData_accepts backup entries w Hd Hv).
  unfold mbind, M_bind, bind.
  destruct (importEntries_spec entries (setDb (cleared (db w)) w))
    as (_ & _ & _ & Hres & Hiff). cbn zeta in *.
  destruct (forEach entries importEntry _) as [[[]|err] w1]; simpl in *.
  - split; [|by left]. split; [|done]. intros _ n.
    destruct Hiff as [Hfwd _]. by destruct (Hfwd eq_refl n).
  - split;
      [|destruct Hres as [?|[[= ->]|[= ->]]]; [done | right; by left | right; by right]].
    split; [done|]. intros Himp. destruct Hiff as [_ Hback].
    discriminate Hback. intros n. split; [done|].
    intros r k _ _. simpl. by rewrite objectStore_cleared.
Qed.

(** X19: after an import that passes the check of [data] and [version],
    whether it returns or throws, every record in a covered store is one of
    the records that the payload lists for that store, under its key: none
    of the records from before is left. When it returns, every listed
    record is stored. The queue, its key generator and the engine are
    unchanged. *)
Theorem importData_replaces_records backup entries w :
  data backup = Some entries → truthy (version backup) = true →
  let res := importData backup w in
  (∀ n k r, objectStore n (db res.2) !! k = Some r →
            keyPath n r = Some k ∧ r ∈ itemsFor n entries) ∧
  (res.1 = Ok true →
   ∀ n r, r ∈ itemsFor n entries →
          ∃ k, keyPath n r = Some k ∧ objectStore n (db res.2) !! k = Some r) ∧
  syncQueue (db res.2) = syncQueue (db w) ∧
  keyGenerator (db res.2) = keyGenerator (db w) ∧
  lastSync res.2 = lastSync w ∧ isSyncing res.2 = isSyncing w ∧
  emitted res.2 = emitted w.
Proof.
  intros Hd Hv. cbn zeta. split; [|split; [|apply importData_frame]].
  - rewrite (importData_accepts backup entries w Hd Hv).
    unfold mbind, M_bind, bind.
    destruct (importEntries_spec entries (setDb (cleared (db w)) w))
      as (_ & Hfrom & _). cbn zeta in *.
    intros n k r Hr.
    assert (Hr' : objectStore n (db (forEach entries importEntry
                                       (setDb (cleared (db w)) w)).2) !! k = Some r).
    { by destruct (forEach entries importEntry _) as [[[]|?] ?]. }
    destruct (Hfrom _ _ _ Hr') as [Hc|?]; [|done].
    simpl in Hc. by rewrite objectStore_cleared in Hc.
  - rewrite (importData_accepts backup entries w Hd Hv).
    unfold mbind, M_bind, bind.
    destruct (importEntries_spec entries (setDb (cleared (db w)) w))
      as (_ & _ & Hall & _). cbn zeta in *.
    intros Hok n r Hin.
    destruct (forEach entries importEntry _) as [[[]|?] ?]; [|done].
    by apply Hall.
Qed.

Lemma importData_succeeds_iff_witness :
  data Scenario.twiceBackup = Some [("tasks", [Sample.taskA; Sample.taskB])] ∧
  truthy (version Scenario.twiceBackup) = true ∧
  ((importData Scenario.twiceBackup Sample.populated).1 = Ok true ↔
   ∀ n, importable n (itemsFor n [("tasks", [Sample.taskA; Sample.taskB])])) ∧
  ((importData Scenario.twiceBackup Sample.populated).1 = Ok true ∨
   (importData Scenario.twiceBackup Sample.populated).1 = Throw DataError ∨
   (importData Scenario.twiceBackup Sample.populated).1 = Throw ConstraintError).
Proof.
  assert (Hd : data Scenario.twiceBackup = Some [("tasks", [Sample.taskA; Sample.taskB])])
    by reflexivity.
  assert (Hv : truthy (version Scenario.twiceBackup) = true) by reflexivity.
  split; [exact Hd|]. split; [exact Hv|].
  exact (importData_succeeds_iff Scenario.twiceBackup _ Sample.populated Hd Hv).
Defined.

Lemma importData_replaces_records_witness :
  data Sample.foreignBackup = Some [("tasks", [Sample.taskB])] ∧
  truthy (version Sample.foreignBackup) = true ∧
  let res := importData Sample.foreignBackup Sample.populated in
  (∀ n k r, objectStore n (db res.2) !! k = Some r →
            keyPath n r = Some k ∧ r ∈ itemsFor n [("tasks", [Sample.taskB])]) ∧
  (res.1 = Ok true →
   ∀ n r, r ∈ itemsFor n [("tasks", [Sample.taskB])] →
          ∃ k, keyPath n r = Some k ∧ objectStore n (db res.2) !! k = Some r) ∧
  syncQueue (db res.2) = syncQueue (db Sample.populated) ∧
  keyGenerator (db res.2) = keyGenerator (db Sample.populated) ∧
  lastSync res.2 = lastSync Sample.populated ∧
  isSyncing res.2 = isSyncing Sample.populated ∧
  emitted res.2 = emitted Sample.populated.
Proof.
  assert (Hd : data Sample.foreignBackup = Some [("tasks", [Sample.taskB])])
    by reflexivity.
  assert (Hv : truthy (version Sample.foreignBackup) = true) by reflexivity.
  split; [exact Hd|]. split; [exact Hv|].
  exact (importData_replaces_records Sample.foreignBackup _ Sample.populated Hd Hv).
Defined.

(** ** The drain while the remote service is down *)

Lemma sorted_ids_NoDup (l : list syncItem) :
  StronglySorted (λ a b, (qid a < qid b)%N) l → NoDup (qid <$> l).
Proof.
  induction 1 as [|x l _ IH Hx]; [constructor|].
  rewrite fmap_cons. apply NoDup_cons. split; [|done].
  intros (y & Heq & Hy)%list_elem_of_fmap. rewrite Forall_forall in Hx.
  specialize (Hx _ Hy). simpl in Hx. lia.
Qed.

Section OfflineDrain.
Variable clock : nat → Z.
Variable api : nat → request → option json.
Hypothesis api_down : ∀ t r, api t r = None.

Lemma syncPendingItem_down item w :
  syncPendingItem clock api item w
  = if decide (qtype item ∈ handledTypes)
    then (Ok (),
          if bool_decide (maxRetries ≤ attempts item + 1)%nat
          then setDb (setSyncQueue (<[qid item := gaveUp item]> (syncQueue (db w)))
                        (db w)) (step w)
          else step w)
    else (Ok (), w).
Proof.
  unfold syncPendingItem, tryCatch.
  destruct (syncHandlers api (qtype item)) as [h|] eqn:Hh.
  - apply syncHandlers_Some in Hh as (Hty & m & e & ->).
    rewrite decide_True by done.
    unfold mbind, M_bind, bind, apiRequest. rewrite api_down.
    cbn [attempts setAttempts]. by destruct (bool_decide _).
  - apply syncHandlers_None in Hh. by rewrite decide_False.
Qed.

Lemma drain_down l :
  ∀ w,
    NoDup (qid <$> l) →
    (∀ it, it ∈ l → syncQueue (db w) !! qid it = Some it) →
    let w' := (forEach l (syncPendingItem clock api) w).2 in
    (∀ it, it ∈ l →
       syncQueue (db w') !! qid it
       = Some (if bool_decide (qtype it ∈ handledTypes ∧
                               (maxRetries ≤ attempts it + 1)%nat)
               then gaveUp it else it)) ∧
    (∀ k, k ∉ qid <$> l → syncQueue (db w') !! k = syncQueue (db w) !! k).
Proof.
  induction l as [|item l IH]; intros w Hnd Hl.
  - simpl. split; [intros it Hit; inversion Hit | done].
  - rewrite fmap_cons in Hnd. apply NoDup_cons in Hnd as [Hnotin Hnd].
    cbn zeta. rewrite forEach_cons, syncPendingItem_down.
    assert (Hne : ∀ it, it ∈ l → qid it ≠ qid item).
    { intros it Hit Heq. apply Hnotin. rewrite <- Heq.
      apply list_elem_of_fmap. by exists it. }
    destruct (decide (qtype item ∈ handledTypes)) as [Hty|Hty].
    + destruct (bool_decide (maxRetries ≤ attempts item + 1)%nat) eqn:Hmax.
      * set (w1 := setDb _ (step w)).
        destruct (IH w1) as [Hdone Hother]; [done| |].
        { intros it Hit. simpl. rewrite lookup_insert_ne by (symmetry; by apply Hne).
          apply Hl. by right. }
        split.
        -- intros it [->|Hit]%elem_of_cons; [|by apply Hdone].
           rewrite Hother by done. simpl. rewrite lookup_insert_eq.
           rewrite bool_decide_eq_true_2; [done|].
           split; [done | by apply bool_decide_eq_true in Hmax].
        -- intros k Hk. rewrite fmap_cons, not_elem_of_cons in Hk.
           destruct Hk as [Hk1 Hk2].
           rewrite Hother by done. simpl. by rewrite lookup_insert_ne.
      * destruct (IH (step w)) as [Hdone Hother]; [done| |].
        { intros it Hit. apply Hl. by right. }
        split.
        -- intros it [->|Hit]%elem_of_cons; [|by apply Hdone].
           rewrite Hother by done. rewrite bool_decide_eq_false_2.
           ++ apply Hl. by left.
           ++ apply bool_decide_eq_false in Hmax. by intros [_ ?].
        -- intros k Hk. rewrite fmap_cons, not_elem_of_cons in Hk.
           rewrite Hother by apply Hk. done.
    + destruct (IH w) as [Hdone Hother]; [done| |].
      { intros it Hit. apply Hl. by right. }
      split.
      * intros it [->|Hit]%elem_of_cons; [|by apply Hdone].
        rewrite Hother by done. rewrite bool_decide_eq_false_2 by by intros [? _].
        apply Hl. by left.
      * intros k Hk. rewrite fmap_cons, not_elem_of_cons in Hk. apply Hother, Hk.
Qed.

(** X20: the drain of a keyed queue while the remote service answers no
    request changes exactly the pending entries whose type has a handler and
    whose stored [attempts] is at least [maxRetries - 1]: these get one more
    attempt and status [failed]. Every other entry is left as stored, its
    failed attempt not counted. *)
Theorem syncPendingItems_while_offline w :
  keyedQueue (db w) →
  ∀ k, syncQueue (db (syncPendingItems clock api w).2) !! k
       = match syncQueue (db w) !! k with
         | Some it =>
             Some (if bool_decide (qstatus it = pending ∧ qtype it ∈ handledTypes ∧
                                   (maxRetries ≤ attempts it + 1)%nat)
                   then gaveUp it else it)
         | None => None
         end.
Proof.
  intros Hq k. unfold syncPendingItems.
  destruct (getPendingSyncItems_items None w Hq) as (l & Hl & Hin & Hsorted).
  rewrite (bind_Ok _ _ _ _ _ Hl).
  destruct (drain_down l w) as [Hdone Hother];
    [by apply sorted_ids_NoDup | by intros ? (? & _)%Hin |].
  cbn zeta in *.
  destruct (syncQueue (db w) !! k) as [it|] eqn:Hk.
  - pose proof (Hq _ _ Hk) as Hid. simpl in Hid.
    destruct (decide (qstatus it = pending)) as [Hp|Hp].
    + assert (Hit : it ∈ l) by (apply Hin; rewrite Hid; by repeat split).
      rewrite <- Hid at 1. rewrite (Hdone it Hit). f_equal.
      destruct (bool_decide (qtype it ∈ handledTypes ∧ _)) eqn:Hb.
      * apply bool_decide_eq_true in Hb as [? ?].
        by rewrite bool_decide_eq_true_2.
      * apply bool_decide_eq_false in Hb.
        rewrite bool_decide_eq_false_2; [done|]. by intros (_ & ? & ?); apply Hb.
    + rewrite Hother.
      * rewrite Hk, bool_decide_eq_false_2; [done|]. by intros [? _].
      * intros (it' & Heq & Hit')%list_elem_of_fmap.
        apply Hin in Hit' as (Hst & Hp' & _). rewrite <- Heq, Hk in Hst.
        injection Hst as <-. done.
  - rewrite Hother; [done|].
    intros (it' & Heq & Hit')%list_elem_of_fmap.
    apply Hin in Hit' as (Hst & _). rewrite <- Heq in Hst. congruence.
Qed.
End OfflineDrain.

Lemma syncPendingItems_while_offline_witness :
  (∀ t r, Sample.apiDown t r = None) ∧
  keyedQueue (db Scenario.backlog) ∧
  ∀ k, syncQueue (db (syncPendingItems Sample.clock Sample.apiDown
                        Scenario.backlog).2) !! k
       = match syncQueue (db Scenario.backlog) !! k with
         | Some it =>
             Some (if bool_decide (qstatus it = pending ∧ qtype it ∈ handledTypes ∧
                                   (maxRetries ≤ attempts it + 1)%nat)
                   then gaveUp it else it)
         | None => None
         end.
Proof.
  assert (Hdown : ∀ t r, Sample.apiDown t r = None) by reflexivity.
  assert (Hq : keyedQueue (db Scenario.backlog)).
  { unfold keyedQueue. apply (bool_decide_unpack _). vm_compute. exact I. }
  split; [exact Hdown|]. split; [exact Hq|].
  exact (syncPendingItems_while_offline Sample.clock Sample.apiDown Hdown
           Scenario.backlog Hq).
Defined.

(** ** The restore from a file *)

(** X21: the restore from a file never throws. When the backup fails
    [validateBackup] or the user declines, it returns [false] and changes
    nothing; otherwise it leaves the world that [importData] leaves, and
    returns [true] exactly when the import returned. *)
Theorem restoreData_outcomes backup confirmed w :
  ∃ ok,
    restoreData backup confirmed w
    = (Ok ok, if validateBackup backup && confirmed
              then (importData backup w).2 else w) ∧
    (ok = true ↔
     validateBackup backup = true ∧ confirmed = true ∧
     (importData backup w).1 = Ok true).
Proof.
  unfold restoreData, tryCatch.
  destruct (validateBackup backup) eqn:Hv.
  2: { exists false. split; [done|]. split; [done | by intros (? & _)]. }
  destruct confirmed.
  2: { exists false. split; [done|]. split; [done | by intros (_ & ? & _)]. }
  unfold mbind, M_bind, bind.
  assert (Hres : (importData backup w).1 = Ok true
                 ∨ ∃ e, (importData backup w).1 = Throw e).
  { unfold validateBackup in Hv.
    destruct (data backup) as [entries|] eqn:Hd; [|done].
    apply andb_true_iff in Hv as [Hver _].
    rewrite (importData_accepts backup entries w Hd Hver).
    unfold mbind, M_bind, bind.
    destruct (forEach entries importEntry _) as [[[]|e] w1]; [by left|].
    right. by exists e. }
  destruct (importData backup w) as [[b|e] w1]; simpl in *.
  - destruct Hres as [[= ->]|[e [=]]]. exists true. by repeat split.
  - exists false. split; [done|]. split; [done | by intros (_ & _ & ?)].
Qed.
